(** * laxels/llm: streaming chat responses and exponential backoff

    A shallow embedding of [src/stream.ts] (the chunk transformer
    [modifyChunk], the transform stage [ModifyChunkStream], the consumer
    [streamChatResponse], [getAPIStream], [getResponseStream],
    [streamSingleResponse]) and of the retry wrapper
    [withExponentialBackoff] of [src/request.ts], together with the part of
    the JavaScript runtime these functions call: string primitives,
    [JSON.parse], [JSON.stringify], property access, [ToString],
    [ToBoolean] and exceptions.

    Conventions.
    - A JavaScript string is a list of UTF-16 code units, each an [N].
      Nothing below relies on a unit being smaller than 2^16.
    - A [Buffer] is represented by the text [Buffer.toString()] decodes from
      it; [Buffer.from (s)] followed by [toString ()] is the identity on
      the strings [JSON.stringify] produces (they are well-formed UTF-16).
    - An exception is a value of [jserror]; code that can throw returns a
      [completion].
    - Numbers are IEEE-754 doubles.  Those read by [JSON.parse] are
      computed exactly; the sums and products of the retry wrapper are the
      rounded ones.  The parameters of the retry wrapper are integers,
      written as [Z] and read as the doubles nearest to them. *)

From Stdlib Require Import List NArith ZArith PArith Bool Lia String Ascii QArith Qround Qpower.
Import ListNotations.

(** ** JavaScript strings *)

Module JSString.

Definition jsstr := list N.

(** [js "abc"] is the JavaScript string with the same (ASCII) characters. *)
Definition js (s : string) : jsstr :=
  List.map N_of_ascii (list_ascii_of_string s).

(** [jq] is [js] with every apostrophe replaced by a double quote, to write
    JSON text in examples. *)
Definition jq (s : string) : jsstr :=
  List.map (fun c => if N.eqb c 39 then 34%N else c) (js s).

Definition LF : N := 10.

Fixpoint str_eqb (a b : jsstr) : bool :=
  match a, b with
  | [], [] => true
  | x :: a', y :: b' => N.eqb x y && str_eqb a' b'
  | _, _ => false
  end.

(** [String.prototype.startsWith]. *)
Fixpoint startsWith (p s : jsstr) : bool :=
  match p with
  | [] => true
  | x :: p' =>
      match s with
      | [] => false
      | y :: s' => N.eqb x y && startsWith p' s'
      end
  end.

(** [String.prototype.includes]. *)
Fixpoint includes (p s : jsstr) : bool :=
  startsWith p s ||
  match s with
  | [] => false
  | _ :: s' => includes p s'
  end.

(** [String.prototype.slice (n)] for [0 <= n]. *)
Definition slice (n : nat) (s : jsstr) : jsstr := skipn n s.

(** WhiteSpace and LineTerminator code units, the ones [trim] removes. *)
Definition isWhiteSpace (c : N) : bool :=
  ((9 <=? c) && (c <=? 13) || (c =? 32) || (c =? 160) || (c =? 5760)
   || (8192 <=? c) && (c <=? 8202) || (c =? 8232) || (c =? 8233)
   || (c =? 8239) || (c =? 8287) || (c =? 12288) || (c =? 65279))%N.

Fixpoint trimStart (s : jsstr) : jsstr :=
  match s with
  | [] => []
  | c :: s' => if isWhiteSpace c then trimStart s' else s
  end.

Definition trimEnd (s : jsstr) : jsstr := rev (trimStart (rev s)).

(** [String.prototype.trim]. *)
Definition trim (s : jsstr) : jsstr := trimEnd (trimStart s).

(** [split_go sep s skip cur] scans [s] from left to right; [cur] is the
    segment being read (reversed) and [skip] the number of units of a
    separator just matched that are still to be passed over. *)
Fixpoint split_go (sep s : jsstr) (skip : nat) (cur : jsstr) : list jsstr :=
  match s with
  | [] => [rev cur]
  | c :: s' =>
      match skip with
      | S k => split_go sep s' k cur
      | O =>
          if startsWith sep s
          then rev cur :: split_go sep s' (List.length sep - 1) []
          else split_go sep s' 0 (c :: cur)
      end
  end.

(** [String.prototype.split (sep)] for a non-empty separator. *)
Definition split (sep s : jsstr) : list jsstr := split_go sep s 0 [].

End JSString.
Export JSString.

(** ** JavaScript numbers: the doubles [JSON.parse] produces *)

Module JSNumber.

Local Open Scope Z_scope.

(** A double other than NaN: a zero, an infinity, or [m * 2^e] with
    [2^52 <= m < 2^53] and [-1074 <= e <= 971] (normal) or [m < 2^52] and
    [e = -1074] (subnormal). *)
Inductive double : Type :=
| DZero (neg : bool)
| DFinite (neg : bool) (m : positive) (e : Z)
| DInfinity (neg : bool).

Definition double_eqb (x y : double) : bool :=
  match x, y with
  | DZero a, DZero b => Bool.eqb a b
  | DInfinity a, DInfinity b => Bool.eqb a b
  | DFinite a m e, DFinite b m' e' => Bool.eqb a b && Pos.eqb m m' && Z.eqb e e'
  | _, _ => false
  end.

(** [x === 0] holds of both zeros. *)
Definition isZero (x : double) : bool :=
  match x with DZero _ => true | _ => false end.

(** The integer [t] with [2^t <= n / d < 2^(t+1)]. *)
Definition log2_ratio (n d : positive) : Z :=
  let t0 := Z.log2 (Zpos n) - Z.log2 (Zpos d) in
  let ge := if 0 <=? t0 then Zpos d * 2 ^ t0 <=? Zpos n
            else Zpos d <=? Zpos n * 2 ^ (- t0) in
  if ge then t0 else t0 - 1.

(** The integer nearest to [num / den], ties to even. *)
Definition round_half_even (num den : Z) : Z :=
  let q := num / den in
  let r := num mod den in
  if 2 * r <? den then q
  else if den <? 2 * r then q + 1
  else if Z.even q then q else q + 1.

(** The double nearest to the rational [n / d] (round to nearest, ties to
    even), with gradual underflow and overflow to infinity. *)
Definition round_ratio (neg : bool) (n d : positive) : double :=
  let t := log2_ratio n d in
  let p := Z.max (t - 52) (-1074) in
  let q := if 0 <=? p then round_half_even (Zpos n) (Zpos d * 2 ^ p)
           else round_half_even (Zpos n * 2 ^ (- p)) (Zpos d) in
  let '(q, p) := if q =? 2 ^ 53 then (2 ^ 52, p + 1) else (q, p) in
  match q with
  | Zpos m => if 971 <? p then DInfinity neg else DFinite neg m p
  | _ => DZero neg
  end.

(** The double nearest to [m * 10^e]. *)
Definition of_decimal (neg : bool) (m : N) (e : Z) : double :=
  match m with
  | N0 => DZero neg
  | Npos pm =>
      if 0 <=? e then round_ratio neg (pm * Z.to_pos (10 ^ e)) 1
      else round_ratio neg pm (Z.to_pos (10 ^ (- e)))
  end.

(** The double of a non-negative integer (an array or string length). *)
Definition of_N (n : N) : double := of_decimal false n 0.

Fixpoint digits_go (fuel : nat) (v : N) (acc : jsstr) : jsstr :=
  match fuel with
  | O => acc
  | S f =>
      if (v <? 10)%N then (48 + v)%N :: acc
      else digits_go f (v / 10)%N ((48 + v mod 10)%N :: acc)
  end.

(** The decimal digits of [v], most significant first. *)
Definition decimal (v : N) : jsstr := digits_go (S (N.size_nat v)) v [].

Fixpoint first_scale (fuel : nat) (a b : Z) (j : Z) : Z :=
  match fuel with
  | O => j
  | S f => if b <=? a * 10 ^ j then j else first_scale f a b (j + 1)
  end.

(** The integer [n] with [10^(n-1) <= a / b < 10^n], for a positive double
    [a / b]. *)
Definition decimal_exponent (a b : Z) : Z :=
  if b <=? a then Z.of_nat (List.length (decimal (Z.to_N (a / b))))
  else 1 - first_scale 400 a b 1.

(** The [k]-digit decimals [s * 10^t] next to [a / b] on either side; the
    ones that read back as [x] are kept and the nearer one wins. *)
Definition try_digits (x : double) (a b n k : Z) : option (Z * Z) :=
  let t := n - k in
  let '(num, den) := if 0 <=? t then (a, b * 10 ^ t) else (a * 10 ^ (- t), b) in
  let lo := num / den in
  let r := num mod den in
  let hi := lo + 1 in
  let ok s := double_eqb (of_decimal false (Z.to_N s) t) x in
  match ok lo, ok hi with
  | true, true =>
      Some (if 2 * r <? den then lo
            else if den <? 2 * r then hi
            else if Z.even lo then lo else hi, t)
  | true, false => Some (lo, t)
  | false, true => Some (hi, t)
  | false, false => None
  end.

Fixpoint shortest (fuel : nat) (x : double) (a b n k : Z) : Z * Z :=
  match fuel with
  | O => (a / b, 0)
  | S f =>
      match try_digits x a b n k with
      | Some r => r
      | None => shortest f x a b n (k + 1)
      end
  end.

Fixpoint strip_zeros (rev_digits : jsstr) : jsstr :=
  match rev_digits with
  | c :: (_ :: _) as r => if (c =? 48)%N then strip_zeros r else rev_digits
  | _ => rev_digits
  end.

(** Number::toString for the positive value [s * 10^t]. *)
Definition format (s t : Z) : jsstr :=
  let all := decimal (Z.to_N s) in
  let n := t + Z.of_nat (List.length all) in
  let ds := rev (strip_zeros (rev all)) in
  let k := Z.of_nat (List.length ds) in
  if (k <=? n) && (n <=? 21) then ds ++ repeat 48%N (Z.to_nat (n - k))
  else if (0 <? n) && (n <=? 21) then
    firstn (Z.to_nat n) ds ++ 46%N :: skipn (Z.to_nat n) ds
  else if (-6 <? n) && (n <=? 0) then
    48%N :: 46%N :: repeat 48%N (Z.to_nat (- n)) ++ ds
  else
    let e := n - 1 in
    let es := (if e <? 0 then 45%N else 43%N) :: decimal (Z.to_N (Z.abs e)) in
    if k =? 1 then ds ++ 101%N :: es
    else firstn 1 ds ++ 46%N :: skipn 1 ds ++ 101%N :: es.

(** Number::toString (radix 10): the shortest decimal that reads back as
    the same double. *)
Definition toString (x : double) : jsstr :=
  match x with
  | DZero _ => [48%N]
  | DInfinity neg => (if neg then [45%N] else []) ++ js "Infinity"
  | DFinite neg m e =>
      let '(a, b) := if 0 <=? e then (Zpos m * 2 ^ e, 1) else (Zpos m, 2 ^ (- e)) in
      let '(s, t) := shortest 17 x a b (decimal_exponent a b) 1 in
      (if neg then [45%N] else []) ++ format s t
  end.

End JSNumber.

(** ** Arithmetic on JavaScript numbers *)

(** The numbers of the retry wrapper are IEEE-754 doubles, and its sums and
    products are the rounded ones.  A [number] is a double or NaN. *)
Module JSArith.

Import JSNumber.
Local Open Scope Z_scope.

Inductive number : Type :=
| Num (x : double)
| NaN.

(** The double nearest to [m * 2^e], for [0 < m] (round to nearest, ties to
    even), with gradual underflow and overflow to infinity: [t] is the
    exponent of the leading bit, [p] the exponent of the last bit kept. *)
Definition round_dyadic (neg : bool) (m e : Z) : double :=
  let t := Z.log2 m + e in
  let p := Z.max (t - 52) (-1074) in
  let q := round_half_even (m * 2 ^ Z.max 0 (e - p)) (2 ^ Z.max 0 (p - e)) in
  let '(q, p) := if q =? 2 ^ 53 then (2 ^ 52, p + 1) else (q, p) in
  match q with
  | Zpos k => if 971 <? p then DInfinity neg else DFinite neg k p
  | _ => DZero neg
  end.

(** The double of the integer [s * 2^e]; [zero] is the sign of the result
    when [s] is 0. *)
Definition round_signed (s e : Z) (zero : bool) : double :=
  match s with
  | Z0 => DZero zero
  | Zpos m => round_dyadic false (Zpos m) e
  | Zneg m => round_dyadic true (Zpos m) e
  end.

(** The number an integer literal denotes: the nearest double. *)
Definition ofInteger (z : Z) : double := round_signed z 0 false.

Definition signed (neg : bool) (m : positive) : Z := if neg then Zneg m else Zpos m.

Definition negative (x : double) : bool :=
  match x with
  | DZero neg => neg
  | DFinite neg _ _ => neg
  | DInfinity neg => neg
  end.

(** Number::add, the [+] of two numbers. *)
Definition Number_add (x y : number) : number :=
  match x, y with
  | Num a, Num b =>
      match a, b with
      | DInfinity s, DInfinity s' => if Bool.eqb s s' then Num a else NaN
      | DInfinity _, _ => Num a
      | _, DInfinity _ => Num b
      | DZero s, DZero s' => Num (DZero (s && s'))
      | DZero _, DFinite _ _ _ => Num b
      | DFinite _ _ _, DZero _ => Num a
      | DFinite s m e, DFinite s' m' e' =>
          let e0 := Z.min e e' in
          Num (round_signed (signed s m * 2 ^ (e - e0) + signed s' m' * 2 ^ (e' - e0))
                            e0 false)
      end
  | _, _ => NaN
  end.

(** Number::multiply, the [*] of two numbers. *)
Definition Number_multiply (x y : number) : number :=
  match x, y with
  | Num a, Num b =>
      let neg := xorb (negative a) (negative b) in
      match a, b with
      | DInfinity _, DZero _ => NaN
      | DZero _, DInfinity _ => NaN
      | DInfinity _, _ => Num (DInfinity neg)
      | _, DInfinity _ => Num (DInfinity neg)
      | DZero _, _ => Num (DZero neg)
      | _, DZero _ => Num (DZero neg)
      | DFinite _ m e, DFinite _ m' e' => Num (round_dyadic neg (Zpos m * Zpos m') (e + e'))
      end
  | _, _ => NaN
  end.

(** [Math.floor]: the result of a number of (0, 1) is +0, and -0 is kept. *)
Definition Math_floor (x : number) : number :=
  match x with
  | Num (DFinite s m e) =>
      if 0 <=? e then x
      else
        match signed s m / 2 ^ (- e) with
        | Z0 => Num (DZero s)
        | n => Num (ofInteger n)
        end
  | _ => x
  end.

(** [Math.pow (2, n)] for an integer [n]. *)
Definition Math_pow2 (n : Z) : double := round_dyadic false 1 n.

End JSArith.
Export JSArith.

(** ** Exceptions *)

(** The values thrown in this program: the errors of the runtime, [Error]
    objects, and what the HTTP client rejects with: an Axios error carries
    a message and, when the server answered, the message of the API error
    ([err.response.data.error.message]). *)
Inductive jserror : Type :=
| SyntaxError
| TypeError
| Error (message : jsstr)
| AxiosError (message : jsstr) (apiMessage : option jsstr).

Inductive completion (A : Type) : Type :=
| Normal (a : A)
| Throw (e : jserror).

Arguments Normal {A} a.
Arguments Throw {A} e.

Definition isAxiosError (e : jserror) : bool :=
  match e with AxiosError _ _ => true | _ => false end.

(** ** JSON values, [JSON.parse] and [JSON.stringify] *)

Module JSON.

Import JSNumber.
#[local] Set Warnings "-register-all".
Local Open Scope N_scope.

Inductive json : Type :=
| JNull
| JBool (b : bool)
| JNumber (x : double)
| JString (s : jsstr)
| JArray (elements : list json)
| JObject (members : list (jsstr * json)).

Inductive presult : Type :=
| POk (v : json) (rest : jsstr)
| PFail
| POutOfFuel.

Definition isJSONWhiteSpace (c : N) : bool :=
  (c =? 9) || (c =? 10) || (c =? 13) || (c =? 32).

Fixpoint skip_ws (s : jsstr) : jsstr :=
  match s with
  | [] => []
  | c :: s' => if isJSONWhiteSpace c then skip_ws s' else s
  end.

Definition of_hex (c : N) : option N :=
  if (48 <=? c) && (c <=? 57) then Some (c - 48)
  else if (97 <=? c) && (c <=? 102) then Some (c - 87)
  else if (65 <=? c) && (c <=? 70) then Some (c - 55)
  else None.

Definition of_hex4 (a b c d : N) : option N :=
  match of_hex a, of_hex b, of_hex c, of_hex d with
  | Some x, Some y, Some z, Some w => Some (((x * 16 + y) * 16 + z) * 16 + w)
  | _, _, _, _ => None
  end.

(** The unit a single-character escape stands for. *)
Definition unescape (c : N) : option N :=
  if c =? 34 then Some 34
  else if c =? 92 then Some 92
  else if c =? 47 then Some 47
  else if c =? 98 then Some 8
  else if c =? 102 then Some 12
  else if c =? 110 then Some 10
  else if c =? 114 then Some 13
  else if c =? 116 then Some 9
  else None.

Definition cons_fst (c : N) (r : option (jsstr * jsstr)) : option (jsstr * jsstr) :=
  match r with
  | Some (str, rest) => Some (c :: str, rest)
  | None => None
  end.

(** The characters of a JSON string, after its opening quote, up to and
    including the closing quote. *)
Fixpoint parse_chars (s : jsstr) : option (jsstr * jsstr) :=
  match s with
  | [] => None
  | c :: r =>
      if c =? 34 then Some ([], r)
      else if c =? 92 then
        match r with
        | [] => None
        | e :: r1 =>
            if e =? 117 then
              match r1 with
              | h1 :: h2 :: h3 :: h4 :: r2 =>
                  match of_hex4 h1 h2 h3 h4 with
                  | Some u => cons_fst u (parse_chars r2)
                  | None => None
                  end
              | _ => None
              end
            else
              match unescape e with
              | Some u => cons_fst u (parse_chars r1)
              | None => None
              end
        end
      else if c <? 32 then None
      else cons_fst c (parse_chars r)
  end.

Definition isDigit (c : N) : bool := (48 <=? c) && (c <=? 57).

Fixpoint take_digits (s : jsstr) : list N * jsstr :=
  match s with
  | [] => ([], [])
  | c :: s' =>
      if isDigit c then let '(ds, r) := take_digits s' in (c - 48 :: ds, r)
      else ([], s)
  end.

Definition digits_value (ds : list N) : N :=
  fold_left (fun acc d => acc * 10 + d) ds 0.

(** The parts of a JSON number: an optional minus sign, an integer part
    without a superfluous leading zero, an optional fraction (a dot and at
    least one digit) and an optional exponent ([e] or [E], an optional sign
    and at least one digit). *)
Definition parse_sign (s : jsstr) : bool * jsstr :=
  match s with
  | c :: r => if c =? 45 then (true, r) else (false, s)
  | [] => (false, s)
  end.

Definition parse_int (s : jsstr) : option (list N * jsstr) :=
  match s with
  | c :: r =>
      if c =? 48 then Some ([0], r)
      else if isDigit c then Some (take_digits s)
      else None
  | [] => None
  end.

Definition parse_frac (s : jsstr) : option (list N * jsstr) :=
  match s with
  | c :: r =>
      if c =? 46 then
        match take_digits r with
        | ([], _) => None
        | (fds, r') => Some (fds, r')
        end
      else Some ([], s)
  | [] => Some ([], s)
  end.

Definition parse_exp_sign (s : jsstr) : bool * jsstr :=
  match s with
  | c :: r =>
      if c =? 45 then (true, r)
      else if c =? 43 then (false, r)
      else (false, s)
  | [] => (false, s)
  end.

Definition parse_exp (s : jsstr) : option (Z * jsstr) :=
  match s with
  | c :: r =>
      if (c =? 101) || (c =? 69) then
        let '(eneg, r1) := parse_exp_sign r in
        match take_digits r1 with
        | ([], _) => None
        | (eds, r2) =>
            let e := Z.of_N (digits_value eds) in
            Some (if eneg then (- e)%Z else e, r2)
        end
      else Some (0%Z, s)
  | [] => Some (0%Z, s)
  end.

(** A JSON number, read as the nearest double. *)
Definition parse_number (s : jsstr) : option (double * jsstr) :=
  let '(neg, s1) := parse_sign s in
  match parse_int s1 with
  | None => None
  | Some (ids, s2) =>
      match parse_frac s2 with
      | None => None
      | Some (fds, s3) =>
          match parse_exp s3 with
          | None => None
          | Some (e, s4) =>
              Some (of_decimal neg (digits_value (ids ++ fds))
                      (e - Z.of_nat (List.length fds))%Z, s4)
          end
      end
  end.

(** The recursive-descent parser.  [fuel] bounds the number of nested
    calls; [JSON_parse_fuel] below shows that the amount [JSON_parse]
    passes is never used up, and [parse_more_fuel] that a larger amount
    gives the same result. *)
Fixpoint parse_value (fuel : nat) (s : jsstr) : presult :=
  match fuel with
  | O => POutOfFuel
  | S f =>
      match skip_ws s with
      | [] => PFail
      | c :: r =>
          if c =? 123 then
            match skip_ws r with
            | [] => PFail
            | c' :: r' =>
                if c' =? 125 then POk (JObject []) r'
                else parse_members f r []
            end
          else if c =? 91 then
            match skip_ws r with
            | [] => PFail
            | c' :: r' =>
                if c' =? 93 then POk (JArray []) r'
                else parse_elements f r []
            end
          else if c =? 34 then
            match parse_chars r with
            | Some (str, r') => POk (JString str) r'
            | None => PFail
            end
          else if startsWith (js "true") (c :: r) then
            POk (JBool true) (skipn 4 (c :: r))
          else if startsWith (js "false") (c :: r) then
            POk (JBool false) (skipn 5 (c :: r))
          else if startsWith (js "null") (c :: r) then
            POk JNull (skipn 4 (c :: r))
          else
            match parse_number (c :: r) with
            | Some (x, r') => POk (JNumber x) r'
            | None => PFail
            end
      end
  end

with parse_elements (fuel : nat) (s : jsstr) (acc : list json) : presult :=
  match fuel with
  | O => POutOfFuel
  | S f =>
      match parse_value f s with
      | POk v r =>
          match skip_ws r with
          | [] => PFail
          | c :: r' =>
              if c =? 44 then parse_elements f r' (v :: acc)
              else if c =? 93 then POk (JArray (rev (v :: acc))) r'
              else PFail
          end
      | other => other
      end
  end

with parse_members (fuel : nat) (s : jsstr) (acc : list (jsstr * json)) : presult :=
  match fuel with
  | O => POutOfFuel
  | S f =>
      match skip_ws s with
      | [] => PFail
      | q :: r =>
          if q =? 34 then
            match parse_chars r with
            | None => PFail
            | Some (key, r1) =>
                match skip_ws r1 with
                | [] => PFail
                | colon :: r2 =>
                    if colon =? 58 then
                      match parse_value f r2 with
                      | POk v r3 =>
                          match skip_ws r3 with
                          | [] => PFail
                          | c :: r4 =>
                              if c =? 44 then parse_members f r4 ((key, v) :: acc)
                              else if c =? 125 then
                                POk (JObject (rev ((key, v) :: acc))) r4
                              else PFail
                          end
                      | other => other
                      end
                    else PFail
                end
            end
          else PFail
      end
  end.

(** [JSON.parse (text)]: a value, or a SyntaxError. *)
Definition JSON_parse (text : jsstr) : completion json :=
  match parse_value (2 * List.length text + 2) text with
  | POk v r =>
      match skip_ws r with
      | [] => Normal v
      | _ :: _ => Throw SyntaxError
      end
  | _ => Throw SyntaxError
  end.

(** *** QuoteJSONString *)

Definition hexdigit (d : N) : N := if d <? 10 then 48 + d else 87 + d.

(** [\uXXXX], in lower-case hexadecimal. *)
Definition unicode_escape (c : N) : jsstr :=
  [92; 117; hexdigit (c / 4096 mod 16); hexdigit (c / 256 mod 16);
   hexdigit (c / 16 mod 16); hexdigit (c mod 16)].

Definition isLeadingSurrogate (c : N) : bool := (55296 <=? c) && (c <=? 56319).
Definition isTrailingSurrogate (c : N) : bool := (56320 <=? c) && (c <=? 57343).

(** The escape of a unit that is not a surrogate. *)
Definition escape_unit (c : N) : jsstr :=
  if c =? 8 then [92; 98]
  else if c =? 9 then [92; 116]
  else if c =? 10 then [92; 110]
  else if c =? 12 then [92; 102]
  else if c =? 13 then [92; 114]
  else if c =? 34 then [92; 34]
  else if c =? 92 then [92; 92]
  else if c <? 32 then unicode_escape c
  else [c].

(** The characters between the quotes: a surrogate pair is copied, a lone
    surrogate is escaped. *)
Fixpoint quote_chars (s : jsstr) : jsstr :=
  match s with
  | [] => []
  | c :: r =>
      if isLeadingSurrogate c then
        match r with
        | d :: r' =>
            if isTrailingSurrogate d then c :: d :: quote_chars r'
            else unicode_escape c ++ quote_chars r
        | [] => unicode_escape c
        end
      else if isTrailingSurrogate c then unicode_escape c ++ quote_chars r
      else escape_unit c ++ quote_chars r
  end.

Definition QuoteJSONString (s : jsstr) : jsstr := 34 :: quote_chars s ++ [34].

(** *** Values at run time *)

(** The property names this program reads. *)
Inductive propkey : Type :=
| K_choices | K_length | K_0 | K_delta | K_content | K_finish_reason
| K_data | K_finished.

Definition key_name (k : propkey) : jsstr :=
  match k with
  | K_choices => js "choices"
  | K_length => js "length"
  | K_0 => js "0"
  | K_delta => js "delta"
  | K_content => js "content"
  | K_finish_reason => js "finish_reason"
  | K_data => js "data"
  | K_finished => js "finished"
  end.

(** The member [JSON.parse] keeps for a name: the last one in the text. *)
Definition lookup (name : jsstr) (members : list (jsstr * json)) : option json :=
  fold_left (fun found kv => if str_eqb name (fst kv) then Some (snd kv) else found)
            members None.

(** [v[k]] for a value that is neither [undefined] nor [null]; [None] is
    [undefined]. *)
Definition Get (v : json) (k : propkey) : option json :=
  match v with
  | JObject members => lookup (key_name k) members
  | JArray elements =>
      match k with
      | K_length => Some (JNumber (of_N (N.of_nat (List.length elements))))
      | K_0 => nth_error elements 0
      | _ => None
      end
  | JString s =>
      match k with
      | K_length => Some (JNumber (of_N (N.of_nat (List.length s))))
      | K_0 => match s with c :: _ => Some (JString [c]) | [] => None end
      | _ => None
      end
  | _ => None
  end.

(** Reading a property of, or destructuring, [undefined] or [null] throws
    a TypeError. *)
Definition RequireObjectCoercible (v : option json) : completion json :=
  match v with
  | None => Throw TypeError
  | Some JNull => Throw TypeError
  | Some j => Normal j
  end.

Definition ToBoolean (v : option json) : bool :=
  match v with
  | None => false
  | Some JNull => false
  | Some (JBool b) => b
  | Some (JNumber x) => negb (isZero x)
  | Some (JString s) => match s with [] => false | _ :: _ => true end
  | Some (JArray _) => true
  | Some (JObject _) => true
  end.

(** ToString of a value read from JSON.  An array is joined with commas,
    [null] elements giving the empty string.  An object is converted by the
    [toString] method it inherits, which gives "[object Object]", unless it
    has a property of its own named [toString]: such a property is not
    callable (it was read from JSON), [valueOf] gives back the object, and
    the conversion throws a TypeError.  The [+] operator converts the same
    way. *)
Fixpoint ToString (v : json) : completion jsstr :=
  match v with
  | JNull => Normal (js "null")
  | JBool true => Normal (js "true")
  | JBool false => Normal (js "false")
  | JNumber x => Normal (JSNumber.toString x)
  | JString s => Normal s
  | JArray elements =>
      (fix joinElements (l : list json) : completion jsstr :=
         match l with
         | [] => Normal []
         | x :: l' =>
             match (match x with JNull => Normal [] | _ => ToString x end) with
             | Throw e => Throw e
             | Normal a =>
                 match l' with
                 | [] => Normal a
                 | _ :: _ =>
                     match joinElements l' with
                     | Throw e => Throw e
                     | Normal b => Normal (a ++ 44 :: b)
                     end
                 end
             end
         end) elements
  | JObject members =>
      match lookup (js "toString") members with
      | Some _ => Throw TypeError
      | None => Normal (js "[object Object]")
      end
  end.

Definition ToStringV (v : option json) : completion jsstr :=
  match v with
  | None => Normal (js "undefined")
  | Some j => ToString j
  end.

(** [x === 0]. *)
Definition strictEqualsZero (v : option json) : bool :=
  match v with
  | Some (JNumber x) => isZero x
  | _ => false
  end.

(** [x === s] for a string [s]. *)
Definition strictEqualsString (v : option json) (s : jsstr) : bool :=
  match v with
  | Some (JString t) => str_eqb t s
  | _ => false
  end.

End JSON.
Export JSON.

(** ** State and exceptions *)

(** A computation that reads and writes a state of type [S] and either
    returns a value or throws. *)
Definition M (S A : Type) : Type := S -> completion A * S.

Definition ret {S A : Type} (a : A) : M S A := fun s => (Normal a, s).

Definition throw {S A : Type} (e : jserror) : M S A := fun s => (Throw e, s).

Definition lift {S A : Type} (c : completion A) : M S A := fun s => (c, s).

Definition bind {S A B : Type} (m : M S A) (k : A -> M S B) : M S B :=
  fun s =>
    match m s with
    | (Normal a, s') => k a s'
    | (Throw e, s') => (Throw e, s')
    end.

(** [try { body } catch (err) { handler err }]: the handler starts from the
    state the body had reached. *)
Definition tryCatch {S A : Type} (body : M S A) (handler : jserror -> M S A) : M S A :=
  fun s =>
    match body s with
    | (Throw e, s') => handler e s'
    | r => r
    end.

Definition modify {S : Type} (f : S -> S) : M S unit := fun s => (Normal tt, f s).

Declare Scope js_scope.
Delimit Scope js_scope with js.
Notation "x <- m ;; k" := (bind m (fun x => k))
  (at level 61, m at next level, right associativity) : js_scope.
Notation "m ;;; k" := (bind m (fun _ => k))
  (at level 61, right associativity) : js_scope.

(** What [console.error] was given. *)
Inductive logEntry : Type :=
| LogError (e : jserror)
| LogText (text : jsstr).

(** ** [src/stream.ts] *)

Definition Buffer : Type := jsstr.

(** A readable stream, as the chunks it yields, in order, before it ends. *)
Definition Readable : Type := list Buffer.

Record StreamData : Type := { data : jsstr; finished : bool }.

Definition JSON_LINE_SEPARATOR : jsstr := js "___BASILISK_JSON_LINE_SEPARATOR___".
Definition DEFAULT_MODEL : jsstr := js "gpt-4-1106-preview".
Definition DEFAULT_OPENAI_API_TIMEOUT : Z := 2000.

Definition DATA_CHUNK_HEADER : jsstr := js "data: ".
Definition DATA_CHUNK_TERMINATOR : jsstr := js "[DONE]".
Definition STOP_FINISH_REASON : jsstr := js "stop".

(** [JSON.stringify] of a [StreamData]: its two properties in the order of
    the object literal. *)
Definition JSON_stringify (streamData : StreamData) : jsstr :=
  js "{" ++ QuoteJSONString (js "data") ++ js ":"
  ++ QuoteJSONString (data streamData)
  ++ js "," ++ QuoteJSONString (js "finished") ++ js ":"
  ++ (if finished streamData then js "true" else js "false") ++ js "}".

(** *** modifyChunk *)

(** The variables of one call of [modifyChunk], and the console. *)
Module Frame.
Record t : Type := mk { tokens : list json; finished : bool; console : list logEntry }.
Definition push (content : json) (f : t) : t :=
  mk (tokens f ++ [content]) (finished f) (console f).
Definition setFinished (f : t) : t := mk (tokens f) true (console f).
Definition consoleError (e : jserror) (f : t) : t :=
  mk (tokens f) (finished f) (console f ++ [LogError e]).
End Frame.

Local Open Scope js_scope.

(** The body of the [try] block, lines 172 to 185. *)
Definition tryBlock (data : jsstr) : M Frame.t unit :=
  parsed <- lift (JSON_parse data) ;;
  obj <- lift (RequireObjectCoercible (Some parsed)) ;;
  let choices := Get obj K_choices in
  choicesObj <- lift (RequireObjectCoercible choices) ;;
  if strictEqualsZero (Get choicesObj K_length) then
    throw (Error (js "No choices returned from API"))
  else
    first <- lift (RequireObjectCoercible (Get choicesObj K_0)) ;;
    delta <- lift (RequireObjectCoercible (Get first K_delta)) ;;
    let content := Get delta K_content in
    let finish_reason := Get first K_finish_reason in
    (match content with
     | Some c => if ToBoolean content then modify (Frame.push c) else ret tt
     | None => ret tt
     end) ;;;
    (if strictEqualsString finish_reason STOP_FINISH_REASON
     then modify Frame.setFinished else ret tt).

(** The [for ... of dataStrs] loop, lines 163 to 189. *)
Fixpoint forDataStrs (dataStrs : list jsstr) : M Frame.t unit :=
  match dataStrs with
  | [] => ret tt
  | dataStr :: rest =>
      if negb (startsWith DATA_CHUNK_HEADER dataStr) then
        forDataStrs rest
      else
        let data := slice (List.length DATA_CHUNK_HEADER) dataStr in
        if str_eqb data DATA_CHUNK_TERMINATOR then
          ret tt
        else
          tryCatch (tryBlock data) (fun err => modify (Frame.consoleError err)) ;;;
          forDataStrs rest
  end.

(** [chunk.toString().trim().split("\n").map((l) => l.trim())]. *)
Definition dataStrsOf (chunk : Buffer) : list jsstr :=
  List.map trim (split [LF] (trim chunk)).

(** [tokens.join("")]: the elements are converted with ToString, in order,
    and the conversion of an element can throw. *)
Fixpoint joinTokens (tokens : list json) : completion jsstr :=
  match tokens with
  | [] => Normal []
  | x :: rest =>
      match (match x with JNull => Normal [] | _ => ToString x end) with
      | Throw e => Throw e
      | Normal a =>
          match joinTokens rest with
          | Throw e => Throw e
          | Normal b => Normal (a ++ b)
          end
      end
  end.

(** Lines 153 to 193.  The call of [join] is outside the [try] block. *)
Definition modifyChunk (chunk : Buffer) : M (list logEntry) Buffer :=
  fun console =>
    let dataStrs := dataStrsOf chunk in
    match forDataStrs dataStrs (Frame.mk [] false console) with
    | (Normal _, f) =>
        match joinTokens (Frame.tokens f) with
        | Normal joined =>
            let streamData := {| data := joined; finished := Frame.finished f |} in
            (Normal (JSON_stringify streamData ++ JSON_LINE_SEPARATOR), Frame.console f)
        | Throw e => (Throw e, Frame.console f)
        end
    | (Throw e, f) => (Throw e, Frame.console f)
    end.

(** *** ModifyChunkStream *)

(** The stream [getResponseStream] returns, as what a reader gets from it:
    the chunks it yields, in order, and the error it fails with after them,
    if it does not end normally.  A reader gets the buffers pushed to the
    stream; when it is slower than the writer it can get several of them
    joined in one chunk, which is why the consumer splits on the separator
    ([forChunks_encoded] shows that this changes nothing). *)
Record ReadableStream : Type := { chunks : list Buffer; failure : option jserror }.

(** The transform stream: its modification function, what it has pushed
    to its readable side, and the error that destroyed it, if any. *)
Record ModifyChunkStream : Type := {
  modifyFunction : Buffer -> M (list logEntry) Buffer;
  pushed : list Buffer;
  errored : option jserror
}.

Definition new_ModifyChunkStream (modifyFunction : Buffer -> M (list logEntry) Buffer) :
  ModifyChunkStream :=
  {| modifyFunction := modifyFunction; pushed := []; errored := None |}.

(** Lines 128 to 137. *)
Definition _transform (this : ModifyChunkStream) (chunk : Buffer) :
  M (list logEntry) ModifyChunkStream :=
  modifiedChunk <- modifyFunction this chunk ;;
  ret {| modifyFunction := modifyFunction this;
         pushed := pushed this ++ [modifiedChunk];
         errored := errored this |}.

(** [source.pipe (dest)]: every chunk of the source goes through
    [_transform], in order; an exception raised there destroys the
    destination, which receives no further chunk.  The source is taken to
    end normally. *)
Fixpoint pipe (source : Readable) (dest : ModifyChunkStream) :
  list logEntry -> ModifyChunkStream * list logEntry :=
  fun console =>
    match source with
    | [] => (dest, console)
    | chunk :: rest =>
        match _transform dest chunk console with
        | (Normal dest', console') => pipe rest dest' console'
        | (Throw e, console') =>
            ({| modifyFunction := modifyFunction dest; pushed := pushed dest;
                errored := Some e |}, console')
        end
    end.

(** The readable side of the transform stream. *)
Definition readableOf (s : ModifyChunkStream) : ReadableStream :=
  {| chunks := pushed s; failure := errored s |}.

(** *** streamChatResponse *)

(** How the body of a loop ends: it goes on to the next iteration, or the
    function returns. *)
Inductive control : Type :=
| Next (responseStr : jsstr)
| Return (responseStr : jsstr).

(** The inner loop, lines 64 to 74; no handler is passed by the only
    caller, so [onData] and [onEnd] are undefined. *)
Fixpoint forJsonLines (jsonLines : list jsstr) (responseStr : jsstr) : completion control :=
  match jsonLines with
  | [] => Normal (Next responseStr)
  | json :: rest =>
      match JSON_parse json with
      | Throw e => Throw e
      | Normal parsed =>
          match RequireObjectCoercible (Some parsed) with
          | Throw e => Throw e
          | Normal obj =>
              let data := Get obj K_data in
              let finished := Get obj K_finished in
              match ToStringV data with
              | Throw e => Throw e
              | Normal text =>
                  let responseStr := responseStr ++ text in
                  if ToBoolean finished then Normal (Return responseStr)
                  else forJsonLines rest responseStr
              end
          end
      end
  end.

(** [filter((l) => l)] keeps the non-empty strings. *)
Definition nonEmpty (l : jsstr) : bool :=
  match l with [] => false | _ :: _ => true end.

(** The [for await] loop, lines 61 to 75, and the [return] of line 77; a
    stream that fails makes the loop throw once its chunks are read. *)
Fixpoint forChunks (chunks : list Buffer) (failure : option jserror)
  (responseStr : jsstr) : completion jsstr :=
  match chunks with
  | [] =>
      match failure with
      | Some e => Throw e
      | None => Normal responseStr
      end
  | chunk :: rest =>
      let jsonLines := chunk in
      match forJsonLines (filter nonEmpty (split JSON_LINE_SEPARATOR jsonLines)) responseStr with
      | Throw e => Throw e
      | Normal (Return r) => Normal r
      | Normal (Next r) => forChunks rest failure r
      end
  end.

Definition streamChatResponse (responseStream : ReadableStream) : completion jsstr :=
  forChunks (chunks responseStream) (failure responseStream) [].

(** ** The world outside the program *)

Inductive debugMessage : Type :=
| RequestFailed (err : jserror)
| WaitingBeforeRetry (delayMS : number).

(** What a run leaves behind, oldest first.  [Invoked] is a ghost event: it
    records that [withExponentialBackoff] called its operation, and the
    error the call ended with, if any. *)
Inductive event : Type :=
| Invoked (failure : option jserror)
| LogDebug (message : debugMessage)
| Wait (delayMS : number).

(** [remote] is the state of the network and of the API server; [entropy]
    gives the results of the successive calls of [Math.random], which are
    doubles. *)
Record World (R : Type) : Type := {
  remote : R;
  console : list logEntry;
  events : list event;
  entropy : nat -> JSNumber.double;
  drawn : nat
}.

Arguments remote {R} w.
Arguments console {R} w.
Arguments events {R} w.
Arguments entropy {R} w.
Arguments drawn {R} w.

Definition record {R : Type} (e : event) (w : World R) : World R :=
  {| remote := remote w; console := console w; events := events w ++ [e];
     entropy := entropy w; drawn := drawn w |}.

(** [logDebug] and [wait] of [@laxels/utils]: seen here through the events
    they leave. *)
Definition logDebug {R : Type} (message : debugMessage) (w : World R) : World R :=
  record (LogDebug message) w.

Definition wait {R : Type} (delayMS : number) (w : World R) : World R :=
  record (Wait delayMS) w.

Definition Math_random {R : Type} (w : World R) : JSNumber.double * World R :=
  (entropy w (drawn w),
   {| remote := remote w; console := console w; events := events w;
      entropy := entropy w; drawn := S (drawn w) |}).

Definition console_error {R : Type} (entry : logEntry) (w : World R) : World R :=
  {| remote := remote w; console := console w ++ [entry]; events := events w;
     entropy := entropy w; drawn := drawn w |}.

(** A computation on the remote state, run in the world. *)
Definition onRemote {R A : Type} (m : M R A) : M (World R) A :=
  fun w =>
    match m (remote w) with
    | (r, s) =>
        (r, {| remote := s; console := console w; events := events w;
               entropy := entropy w; drawn := drawn w |})
    end.

(** ** [src/request.ts] *)

Definition DEFAULT_MAX_RETRIES : Z := 3.
Definition DEFAULT_INITIAL_RETRY_DELAY_MS : Z := 1000.
Definition DEFAULT_MAX_JITTER_MS : Z := 1000.

Module ExponentialBackoffParams.
Record t : Type := mk {
  maxRetries : option Z;
  initialRetryDelayMS : option Z;
  maxJitterMS : option Z
}.
End ExponentialBackoffParams.

(** A default value applies where the property is undefined. *)
Definition orDefault (d : Z) (v : option Z) : Z :=
  match v with Some x => x | None => d end.

Section WithExponentialBackoff.

Context {R T : Type}.
Variable fn : M R T.
Variables maxRetries initialRetryDelayMS maxJitterMS : Z.

Definition shouldRetry (retryCount : Z) : bool := (retryCount <? maxRetries)%Z.

(** Lines 43 to 49.  The parameters are integers, held in numbers; the
    sum and the products are those of numbers. *)
Definition waitBeforeRetry (retryCount : Z) (w : World R) : World R :=
  let exponentialMultiplier := Num (Math_pow2 retryCount) in
  let '(r, w1) := Math_random w in
  let jitterMS := Math_floor (Number_multiply (Num r) (Num (ofInteger maxJitterMS))) in
  let delayMS :=
    Number_multiply (Number_add (Num (ofInteger initialRetryDelayMS)) jitterMS)
                    exponentialMultiplier in
  wait delayMS (logDebug (WaitingBeforeRetry delayMS) w1).

(** [fn ()], with the ghost event.  The operation acts on the remote
    state, which holds whatever it can reach. *)
Definition invoke : M (World R) T :=
  fun w =>
    match onRemote fn w with
    | (Normal v, w') => (Normal v, record (Invoked None) w')
    | (Throw err, w') => (Throw err, record (Invoked (Some err)) w')
    end.

(** The [while (true)] loop, lines 26 to 37; [None] when [fuel] iterations
    did not suffice. *)
Fixpoint whileTrue (fuel : nat) (retryCount : Z) (w : World R) :
  option (completion T * World R) :=
  match fuel with
  | O => None
  | S fuel' =>
      match invoke w with
      | (Normal v, w1) => Some (Normal v, w1)
      | (Throw err, w1) =>
          let w2 := logDebug (RequestFailed err) w1 in
          if negb (shouldRetry retryCount) then Some (Throw err, w2)
          else whileTrue fuel' (retryCount + 1)%Z (waitBeforeRetry retryCount w2)
      end
  end.

End WithExponentialBackoff.

(** The loop runs at most [maxRetries + 1] times, which is the fuel given. *)
Definition withExponentialBackoff {R T : Type} (fn : M R T)
  (params : option ExponentialBackoffParams.t) (w : World R) :
  option (completion T * World R) :=
  let params := match params with
                | Some p => p
                | None =>
                    ExponentialBackoffParams.mk (Some DEFAULT_MAX_RETRIES)
                      (Some DEFAULT_INITIAL_RETRY_DELAY_MS) (Some DEFAULT_MAX_JITTER_MS)
                end in
  let maxRetries :=
    orDefault DEFAULT_MAX_RETRIES (ExponentialBackoffParams.maxRetries params) in
  let initialRetryDelayMS :=
    orDefault DEFAULT_INITIAL_RETRY_DELAY_MS
      (ExponentialBackoffParams.initialRetryDelayMS params) in
  let maxJitterMS :=
    orDefault DEFAULT_MAX_JITTER_MS (ExponentialBackoffParams.maxJitterMS params) in
  let retryCount := 0%Z in
  whileTrue fn maxRetries initialRetryDelayMS maxJitterMS
    (S (Z.to_nat maxRetries)) retryCount w.

(** ** [src/stream.ts], continued: the requests *)

Record ChatCompletionRequestMessage : Type := { role : jsstr; content : jsstr }.

Record CreateChatCompletionRequest : Type := {
  model : jsstr;
  messages : list ChatCompletionRequestMessage;
  n : Z;
  temperature : Z;
  stream : bool
}.

Record AxiosRequestConfig : Type := { responseType : jsstr; timeout : Z }.

(** The client of the [openai] package: a request changes the remote state
    and gives a stream, or is rejected. *)
Record OpenAIApi (R : Type) : Type := {
  createChatCompletion :
    CreateChatCompletionRequest -> AxiosRequestConfig -> M R Readable
}.

Arguments createChatCompletion {R} o _ _ _.

(** [Error.prototype.toString]. *)
Definition errorToString (e : jserror) : jsstr :=
  let named (name message : jsstr) :=
    match message with [] => name | _ :: _ => name ++ js ": " ++ message end in
  match e with
  | SyntaxError => js "SyntaxError"
  | TypeError => js "TypeError"
  | Error message => named (js "Error") message
  | AxiosError message _ => named (js "AxiosError") message
  end.

(** [err.response?.data?.error?.message]. *)
Definition responseErrorMessage (e : jserror) : option jsstr :=
  match e with
  | AxiosError _ apiMessage => apiMessage
  | _ => None
  end.

Section Requests.

Context {R : Type}.
Variable api : OpenAIApi R.

(** Lines 85 to 115; [None] is [null].  The outer [option] is the one of
    [withExponentialBackoff]. *)
Definition getAPIStream (model : jsstr) (messages : list ChatCompletionRequestMessage)
  (w : World R) : option (option Readable * World R) :=
  let request :=
    createChatCompletion api
      {| model := model; messages := messages; n := 1; temperature := 1; stream := true |}
      {| responseType := js "stream"; timeout := DEFAULT_OPENAI_API_TIMEOUT |} in
  match withExponentialBackoff request None w with
  | None => None
  | Some (Normal apiResponse, w') => Some (Some apiResponse, w')
  | Some (Throw err, w') =>
      let w'' :=
        if isAxiosError err then
          console_error
            (LogText (js "Error generating response: "
                      ++ match responseErrorMessage err with
                         | Some message => message
                         | None => errorToString err
                         end)) w'
        else console_error (LogError err) w' in
      Some (None, w'')
  end.

(** Lines 20 to 31.  The stream returned is given by what the transform
    stage pushes; this is computed here at once, though the program
    computes it as the stream is read. *)
Definition getResponseStream (messages : list ChatCompletionRequestMessage)
  (w : World R) : option (completion ReadableStream * World R) :=
  match getAPIStream DEFAULT_MODEL messages w with
  | None => None
  | Some (None, w') => Some (Throw (Error (js "Error getting response from OpenAI")), w')
  | Some (Some apiResponse, w') =>
      let modifyChunkStream := new_ModifyChunkStream modifyChunk in
      match pipe apiResponse modifyChunkStream (console w') with
      | (piped, c) =>
          Some (Normal (readableOf piped),
                {| remote := remote w'; console := c; events := events w';
                   entropy := entropy w'; drawn := drawn w' |})
      end
  end.

(** Lines 33 to 42. *)
Definition streamSingleResponse (messages : list ChatCompletionRequestMessage)
  (w : World R) : option (completion jsstr * World R) :=
  match getResponseStream messages w with
  | None => None
  | Some (Throw e, w') => Some (Throw e, w')
  | Some (Normal responseStream, w') =>
      let response := streamChatResponse responseStream in
      Some (response, w')
  end.

End Requests.

(** ** What a chunk says, read line by line as the specification does *)

(** A trimmed line is ignored, ends the chunk, or carries a payload. *)
Inductive lineClass : Type :=
| Ignored
| Terminator
| Payload (payload : jsstr).

Definition classify (dataStr : jsstr) : lineClass :=
  if startsWith DATA_CHUNK_HEADER dataStr then
    if str_eqb (slice 6 dataStr) DATA_CHUNK_TERMINATOR then Terminator
    else Payload (slice 6 dataStr)
  else Ignored.

(** The frame a payload holds: [choices[0].delta.content] and
    [choices[0].finish_reason], each possibly undefined; or the error that
    makes the line unusable: the payload is not JSON, [choices] is empty,
    or one of [choices], [choices[0]], [choices[0].delta] cannot be
    read. *)
Definition decodeFrame (payload : jsstr) : completion (option json * option json) :=
  match JSON_parse payload with
  | Throw e => Throw e
  | Normal parsed =>
      match RequireObjectCoercible (Some parsed) with
      | Throw e => Throw e
      | Normal obj =>
          match RequireObjectCoercible (Get obj K_choices) with
          | Throw e => Throw e
          | Normal choices =>
              if strictEqualsZero (Get choices K_length) then
                Throw (Error (js "No choices returned from API"))
              else
                match RequireObjectCoercible (Get choices K_0) with
                | Throw e => Throw e
                | Normal first =>
                    match RequireObjectCoercible (Get first K_delta) with
                    | Throw e => Throw e
                    | Normal delta =>
                        Normal (Get delta K_content, Get first K_finish_reason)
                    end
                end
          end
      end
  end.

(** The lines before the first terminator line. *)
Fixpoint beforeTerminator (dataStrs : list jsstr) : list jsstr :=
  match dataStrs with
  | [] => []
  | dataStr :: rest =>
      match classify dataStr with
      | Terminator => []
      | _ => dataStr :: beforeTerminator rest
      end
  end.

(** The content fragment of a line: the content of its frame, when present
    and not empty (truthy). *)
Definition lineFragment (dataStr : jsstr) : list json :=
  match classify dataStr with
  | Payload payload =>
      match decodeFrame payload with
      | Normal (Some c, _) => if ToBoolean (Some c) then [c] else []
      | _ => []
      end
  | _ => []
  end.

(** The line signals the stop reason. *)
Definition lineStops (dataStr : jsstr) : bool :=
  match classify dataStr with
  | Payload payload =>
      match decodeFrame payload with
      | Normal (_, finish_reason) => strictEqualsString finish_reason STOP_FINISH_REASON
      | Throw _ => false
      end
  | _ => false
  end.

(** The error a line is skipped with. *)
Definition lineError (dataStr : jsstr) : list logEntry :=
  match classify dataStr with
  | Payload payload =>
      match decodeFrame payload with
      | Throw e => [LogError e]
      | Normal _ => []
      end
  | _ => []
  end.

Definition fragments (dataStrs : list jsstr) : list json :=
  flat_map lineFragment (beforeTerminator dataStrs).

Definition stopSignaled (dataStrs : list jsstr) : bool :=
  existsb lineStops (beforeTerminator dataStrs).

Definition errorsLogged (dataStrs : list jsstr) : list logEntry :=
  flat_map lineError (beforeTerminator dataStrs).

(** The text a fragment contributes: a string contributes itself, another
    value its conversion to a string, which can fail. *)
Definition fragmentText (c : json) : completion jsstr :=
  match c with JNull => Normal [] | _ => ToString c end.

(** The texts of the fragments, joined in order. *)
Fixpoint joinedText (cs : list json) : completion jsstr :=
  match cs with
  | [] => Normal []
  | c :: rest =>
      match fragmentText c with
      | Throw e => Throw e
      | Normal a =>
          match joinedText rest with
          | Throw e => Throw e
          | Normal b => Normal (a ++ b)
          end
      end
  end.

(** The fragments are strings, as the type [MessageDelta] declares. *)
Definition isString (c : json) : bool :=
  match c with JString _ => true | _ => false end.

(** The record of a chunk: the fragments in line order, and whether a line
    signals the stop reason; or the error the conversion of a fragment
    throws. *)
Definition recordOfLines (dataStrs : list jsstr) : completion StreamData :=
  match joinedText (fragments dataStrs) with
  | Normal joined => Normal {| data := joined; finished := stopSignaled dataStrs |}
  | Throw e => Throw e
  end.

Definition recordOf (chunk : Buffer) : completion StreamData :=
  recordOfLines (dataStrsOf chunk).

(** The encoding the transformer emits. *)
Definition encode (streamData : StreamData) : Buffer :=
  JSON_stringify streamData ++ JSON_LINE_SEPARATOR.

(** The decoding the consumer applies to a chunk: split on the separator,
    drop the empty segments, parse each of the others. *)
Definition decodeChunk (chunk : Buffer) : list (completion json) :=
  List.map JSON_parse (filter nonEmpty (split JSON_LINE_SEPARATOR chunk)).

Definition jsonOfRecord (streamData : StreamData) : json :=
  JObject [(js "data", JString (data streamData));
           (js "finished", JBool (finished streamData))].

(** What the consumer returns for a sequence of records: the data up to
    and including the first finished one. *)
Fixpoint accumulate (records : list StreamData) : jsstr :=
  match records with
  | [] => []
  | r :: rest => data r ++ (if finished r then [] else accumulate rest)
  end.

(** What the transform stage makes of the chunks of a source: the outputs
    it pushes, the error that stops it, if any, and what it logs. *)
Fixpoint piped (source : Readable) : list Buffer * option jserror * list logEntry :=
  match source with
  | [] => ([], None, [])
  | chunk :: rest =>
      match recordOf chunk with
      | Normal streamData =>
          let '(outputs, failure, logs) := piped rest in
          (encode streamData :: outputs, failure, errorsLogged (dataStrsOf chunk) ++ logs)
      | Throw e => ([], Some e, errorsLogged (dataStrsOf chunk))
      end
  end.

(** ** What the consumer reads *)

(** The non-empty segments of a chunk. *)
Definition segments (chunk : Buffer) : list jsstr :=
  filter nonEmpty (split JSON_LINE_SEPARATOR chunk).

(** What the consumer reads from a segment: the text it appends and whether
    it stops there; or the error it fails with. *)
Definition readRecord (json : jsstr) : completion (jsstr * bool) :=
  match JSON_parse json with
  | Throw e => Throw e
  | Normal parsed =>
      match RequireObjectCoercible (Some parsed) with
      | Throw e => Throw e
      | Normal obj =>
          match ToStringV (Get obj K_data) with
          | Throw e => Throw e
          | Normal text => Normal (text, ToBoolean (Get obj K_finished))
          end
      end
  end.

(** The records of a stream, in the order they are read. *)
Definition recordsRead (responseStream : ReadableStream) : list (completion (jsstr * bool)) :=
  List.map readRecord (flat_map segments (chunks responseStream)).

(** The state machine of the consumer: read, decode, accumulate, and stop
    at a finished record or at the end of the stream, which is an error when
    the stream has failed. *)
Fixpoint consume (reads : list (completion (jsstr * bool))) (failure : option jserror)
  (responseStr : jsstr) : completion jsstr :=
  match reads with
  | [] =>
      match failure with
      | Some e => Throw e
      | None => Normal responseStr
      end
  | Throw e :: _ => Throw e
  | Normal (d, fin) :: rest =>
      if fin then Normal (responseStr ++ d) else consume rest failure (responseStr ++ d)
  end.

(** A record read with the flag not set. *)
Definition unfinished (d : jsstr) : completion (jsstr * bool) := Normal (d, false).

(** ** What a run of the retry wrapper leaves behind *)

(** The invocations of the operation recorded in a list of events, each
    with the error it ended with, if any. *)
Definition invocations (es : list event) : list (option jserror) :=
  flat_map (fun e => match e with Invoked o => [o] | _ => [] end) es.

(** The delays waited, in milliseconds. *)
Definition waits (es : list event) : list number :=
  flat_map (fun e => match e with Wait d => [d] | _ => [] end) es.

Definition outcome {T : Type} (r : completion T) : option jserror :=
  match r with Normal _ => None | Throw e => Some e end.

(** The jitter for a draw [r] of [Math.random]:
    [Math.floor (r * maxJitterMS)]. *)
Definition jitterOf (r : JSNumber.double) (maxJitterMS : Z) : number :=
  Math_floor (Number_multiply (Num r) (Num (ofInteger maxJitterMS))).

(** The delay before the retry numbered [retryCount] (from 0):
    [(initialRetryDelayMS + jitterMS) * Math.pow (2, retryCount)]. *)
Definition retryDelay (initialRetryDelayMS : Z) (jitterMS : number) (retryCount : Z) :
  number :=
  Number_multiply (Number_add (Num (ofInteger initialRetryDelayMS)) jitterMS)
                  (Num (Math_pow2 retryCount)).

(** The integer a number is, when it is one. *)
Definition integerOf (x : number) : option Z :=
  match x with
  | Num (JSNumber.DZero _) => Some 0%Z
  | Num (JSNumber.DFinite s m e) =>
      if (0 <=? e)%Z then Some (signed s m * 2 ^ e)%Z
      else if (Zpos m mod 2 ^ (- e) =? 0)%Z then Some (signed s m / 2 ^ (- e))%Z
      else None
  | _ => None
  end.

(** The value of a finite double, as a rational. *)
Definition valueOf (x : JSNumber.double) : Q :=
  match x with
  | JSNumber.DFinite s m e => inject_Z (signed s m) * 2 ^ e
  | _ => 0
  end.

(** A double as [Math.random] gives them: +0, or a positive double below
    1, in its normal or subnormal form. *)
Definition unitDraw (x : JSNumber.double) : bool :=
  match x with
  | JSNumber.DZero neg => negb neg
  | JSNumber.DFinite neg m e =>
      negb neg && (Zpos m <? 2 ^ 53)%Z && (-1074 <=? e)%Z && (e <? 0)%Z
      && ((2 ^ 52 <=? Zpos m) || (e =? -1074))%Z
      && (Zpos m <? 2 ^ (- e))%Z
  | JSNumber.DInfinity _ => false
  end.

(** The configuration in force: a property left undefined takes its
    default, and so does every property when no configuration is given. *)
Definition maxRetriesOf (params : option ExponentialBackoffParams.t) : Z :=
  match params with
  | Some p => orDefault DEFAULT_MAX_RETRIES (ExponentialBackoffParams.maxRetries p)
  | None => DEFAULT_MAX_RETRIES
  end.

Definition initialRetryDelayOf (params : option ExponentialBackoffParams.t) : Z :=
  match params with
  | Some p =>
      orDefault DEFAULT_INITIAL_RETRY_DELAY_MS (ExponentialBackoffParams.initialRetryDelayMS p)
  | None => DEFAULT_INITIAL_RETRY_DELAY_MS
  end.

Definition maxJitterOf (params : option ExponentialBackoffParams.t) : Z :=
  match params with
  | Some p => orDefault DEFAULT_MAX_JITTER_MS (ExponentialBackoffParams.maxJitterMS p)
  | None => DEFAULT_MAX_JITTER_MS
  end.

(** The request [getAPIStream] issues. *)
Definition chatRequest {R : Type} (api : OpenAIApi R)
  (messages : list ChatCompletionRequestMessage) : M R Readable :=
  createChatCompletion api
    {| model := DEFAULT_MODEL; messages := messages; n := 1; temperature := 1;
       stream := true |}
    {| responseType := js "stream"; timeout := DEFAULT_OPENAI_API_TIMEOUT |}.

(** The diagnostic [getAPIStream] prints for the error it catches. *)
Definition diagnostic (err : jserror) : logEntry :=
  if isAxiosError err then
    LogText (js "Error generating response: "
             ++ match responseErrorMessage err with
                | Some message => message
                | None => errorToString err
                end)
  else LogError err.

(** The message of a thrown value. *)
Definition messageOf (e : jserror) : jsstr :=
  match e with
  | SyntaxError => []
  | TypeError => []
  | Error message => message
  | AxiosError message _ => message
  end.

(** The world after [console.error] printed the entries. *)
Definition console_errors {R : Type} (entries : list logEntry) (w : World R) : World R :=
  {| remote := remote w; console := console w ++ entries; events := events w;
     entropy := entropy w; drawn := drawn w |}.

(** The string a fragment is, when it is one. *)
Definition stringOf (c : json) : jsstr :=
  match c with JString s => s | _ => [] end.

(** ** Auxiliary notions for the proofs *)

(** The units of the separator: capital letters and the underscore. *)
Definition sepUnit (c : N) : bool := ((65 <=? c) && (c <=? 90) || (c =? 95))%N.

(** [noMatchIn sep j tail]: the separator starts at no position of [j] in
    [j ++ tail]. *)
Fixpoint noMatchIn (sep j tail : jsstr) : bool :=
  match j with
  | [] => true
  | _ :: j' => negb (startsWith sep (j ++ tail)) && noMatchIn sep j' tail
  end.

(** A terminator line occurs in the list. *)
Definition terminated (dataStrs : list jsstr) : bool :=
  existsb (fun l => match classify l with Terminator => true | _ => false end) dataStrs.

(** ** Inputs for the examples *)

Module Examples.

(** A world where nothing has happened yet and [Math.random] gives 0. *)
Definition world0 : World unit :=
  {| remote := tt; console := []; events := []; entropy := fun _ => JSNumber.DZero false; drawn := 0 |}.

Definition boom : jserror := Error (js "boom").

(** An operation that fails at every call. *)
Definition alwaysFails : M unit unit := fun s => (Throw boom, s).

(** An operation on a counter: it fails until the counter reaches 2. *)
Definition failsTwice : M nat jsstr :=
  fun k => if (k <? 2)%nat then (Throw boom, S k) else (Normal (js "ok"), S k).

Definition worldAt (k : nat) : World nat :=
  {| remote := k; console := []; events := []; entropy := fun _ => JSNumber.DZero false; drawn := 0 |}.

Definition retries (m : Z) : option ExponentialBackoffParams.t :=
  Some (ExponentialBackoffParams.mk (Some m) None None).

Definition noDelay : option ExponentialBackoffParams.t :=
  Some (ExponentialBackoffParams.mk None (Some 0%Z) (Some 0%Z)).

(** A server that answers every request with the same chunks. *)
Definition serving (chunks : Readable) : OpenAIApi unit :=
  {| createChatCompletion := fun _ _ s => (Normal chunks, s) |}.

Definition rateLimited : jserror :=
  AxiosError (js "Request failed with status code 429") (Some (js "Rate limit reached")).

(** A server that rejects every request. *)
Definition down : OpenAIApi unit :=
  {| createChatCompletion := fun _ _ s => (Throw rateLimited, s) |}.

Definition chunkHel : Buffer :=
  jq "data: {'choices':[{'delta':{'content':'Hel'},'finish_reason':null}]}".

Definition chunkLo : Buffer :=
  jq "data: {'choices':[{'delta':{'content':'lo'},'finish_reason':'stop'}]}".

Definition chunkDone : Buffer := js "data: [DONE]".

(** Two content lines around a line that is not JSON. *)
Definition chunkBroken : Buffer :=
  jq "data: {'choices':[{'delta':{'content':'Hel'},'finish_reason':null}]}"
  ++ LF :: jq "data: {'choices':[{'delta':"
  ++ LF :: jq "data: {'choices':[{'delta':{'content':'lo'},'finish_reason':null}]}".

(** A stop line, then a content line, then the terminator and one more
    content line. *)
Definition chunkStopThenMore : Buffer :=
  chunkLo ++ LF :: chunkHel ++ LF :: chunkDone ++ LF :: chunkHel.

(** The separator, as the content of one line. *)
Definition chunkSeparator : Buffer :=
  jq "data: {'choices':[{'delta':{'content':'___BASILISK_JSON_LINE_SEPARATOR___'}}]}".

(** The separator, in two fragments of one chunk. *)
Definition chunkSeparatorInTwo : Buffer :=
  jq "data: {'choices':[{'delta':{'content':'___BASILISK_JSON_LINE'}}]}"
  ++ LF :: jq "data: {'choices':[{'delta':{'content':'_SEPARATOR___'}}]}".

(** A content that is an object with a property named [toString]. *)
Definition chunkObject : Buffer :=
  jq "data: {'choices':[{'delta':{'content':{'toString':0}}}]}".

End Examples.

(** ** Runs of the retry wrapper, seen from the operation *)

(** [failsFor fn k s]: the operation fails [k] times in a row when started
    in the state [s], each call starting in the state the one before has
    left; the result is the errors, in order, and the last state. *)
Fixpoint failsFor {R T : Type} (fn : M R T) (k : nat) (s : R) : option (list jserror * R) :=
  match k with
  | O => Some ([], s)
  | S k' =>
      match fn s with
      | (Throw e, s1) =>
          match failsFor fn k' s1 with
          | Some (errs, s') => Some (e :: errs, s')
          | None => None
          end
      | (Normal _, _) => None
      end
  end.

(** The events of a failed attempt that is retried after [delayMS]. *)
Definition retried (err : jserror) (delayMS : number) : list event :=
  [Invoked (Some err); LogDebug (RequestFailed err);
   LogDebug (WaitingBeforeRetry delayMS); Wait delayMS].

(** The events of the attempt that ends the run. *)
Definition lastAttempt {T : Type} (r : completion T) : list event :=
  match r with
  | Normal _ => [Invoked None]
  | Throw err => [Invoked (Some err); LogDebug (RequestFailed err)]
  end.

(** The events of the failed attempts [errs], the first of them being the
    retry numbered [retryCount] and using the draw numbered [drawn]. *)
Fixpoint retriedFrom (initialRetryDelayMS maxJitterMS : Z)
  (entropy : nat -> JSNumber.double)
  (drawn : nat) (retryCount : Z) (errs : list jserror) : list event :=
  match errs with
  | [] => []
  | err :: rest =>
      retried err (retryDelay initialRetryDelayMS
                     (jitterOf (entropy drawn) maxJitterMS) retryCount)
      ++ retriedFrom initialRetryDelayMS maxJitterMS entropy (S drawn)
           (retryCount + 1)%Z rest
  end.

(** The sum of a list of delays. *)
Definition totalMS (delays : list Z) : Z := fold_right Z.add 0%Z delays.

(** Every draw of [Math.random] is a double of [0, 1). *)
Definition unitInterval (entropy : nat -> JSNumber.double) : Prop :=
  forall k : nat, unitDraw (entropy k) = true.

(** ** More inputs for the examples *)

Module Samples.

(** The doubles 0.5, 0.009 and 0.999. *)
Definition half : JSNumber.double := JSNumber.of_decimal false 5 (-1).
Definition small : JSNumber.double := JSNumber.of_decimal false 9 (-3).
Definition large : JSNumber.double := JSNumber.of_decimal false 999 (-3).

(** A world where nothing has happened yet and [Math.random] gives 0.5,
    0.009, 0.999, then 0.5 for ever. *)
Definition world1 : World nat :=
  {| remote := 0%nat; console := []; events := [];
     entropy := fun k => nth k [half; small; large] half; drawn := 0 |}.

End Samples.

(** ** Chunks and their lines *)

Definition CR : N := 13.

(** The text with every line feed preceded by a carriage return. *)
Definition crlf (s : jsstr) : jsstr :=
  flat_map (fun c => if N.eqb c LF then [CR; LF] else [c]) s.

(** The string is made of white space only. *)
Definition blank (s : jsstr) : bool := forallb isWhiteSpace s.

(** The lines of a text, trimmed, the empty ones left out. *)
Definition linesOf (s : jsstr) : list jsstr :=
  filter nonEmpty (List.map trim (split [LF] s)).

Module Lines.

(** A keep-alive comment, an event line, and a data line with no space
    after the colon. *)
Definition comment : jsstr := js ": keep-alive".
Definition eventLine : jsstr := js "event: message".
Definition noSpace : jsstr :=
  jq "data:{'choices':[{'delta':{'content':'lost'},'finish_reason':null}]}".

(** A frame with two choices and further properties. *)
Definition twoChoices : jsstr :=
  jq "{'id':'c1','choices':[{'delta':{'content':'Hel'},'finish_reason':null},{'delta':{'content':'XX'},'finish_reason':'stop'}]}".

Definition oneChoice : jsstr :=
  jq "{'choices':[{'delta':{'content':'Hel'},'finish_reason':null}]}".

End Lines.

(** ** [streamChatResponse] with its handlers *)

(** [streamChatResponse] takes two optional handlers, [onData] and
    [onEnd]; its only caller, [streamSingleResponse], passes none, which is
    the case [streamChatResponse] above embeds.  Here they are: a handler
    is a function of the caller, which acts on a state [H] of its own and
    can throw.  [onData] is given the [data] property as it was read, which
    is [undefined] when the record has none. *)
Module Handlers.

Section WithHandlers.

Context {H : Type}.

(** The type [StreamHandlers], lines 44 to 48; [onError] is declared there
    but [streamChatResponse] does not read it. *)
Record StreamHandlers : Type := {
  onData : option (option json -> M H unit);
  onEnd : option (M H unit);
  onError : option (M H unit)
}.

Variable handlers : StreamHandlers.

Local Open Scope js_scope.

(** [onData?.(data)] and [onEnd?.()]. *)
Definition callOnData (data : option json) : M H unit :=
  match onData handlers with
  | Some f => f data
  | None => ret tt
  end.

Definition callOnEnd : M H unit :=
  match onEnd handlers with
  | Some f => f
  | None => ret tt
  end.

(** The inner loop, lines 64 to 74. *)
Fixpoint forJsonLines (jsonLines : list jsstr) (responseStr : jsstr) : M H control :=
  match jsonLines with
  | [] => ret (Next responseStr)
  | json :: rest =>
      parsed <- lift (JSON_parse json) ;;
      obj <- lift (RequireObjectCoercible (Some parsed)) ;;
      let data := Get obj K_data in
      let finished := Get obj K_finished in
      callOnData data ;;;
      text <- lift (ToStringV data) ;;
      let responseStr := responseStr ++ text in
      if ToBoolean finished then
        callOnEnd ;;; ret (Return responseStr)
      else forJsonLines rest responseStr
  end.

(** The [for await] loop, lines 61 to 75, and the [return] of line 77. *)
Fixpoint forChunks (chunks : list Buffer) (failure : option jserror)
  (responseStr : jsstr) : M H jsstr :=
  match chunks with
  | [] =>
      match failure with
      | Some e => throw e
      | None => ret responseStr
      end
  | chunk :: rest =>
      let jsonLines := chunk in
      c <- forJsonLines (filter nonEmpty (split JSON_LINE_SEPARATOR jsonLines)) responseStr ;;
      match c with
      | Return r => ret r
      | Next r => forChunks rest failure r
      end
  end.

(** Lines 54 to 78. *)
Definition streamChatResponse (responseStream : ReadableStream) : M H jsstr :=
  forChunks (chunks responseStream) (failure responseStream) [].

(** The calls the records of a stream give rise to, and the text returned:
    [onData] for each record in turn, with its data, then [onEnd] at the
    first finished record, where the reading stops. *)
Fixpoint notify (records : list StreamData) (responseStr : jsstr) : M H jsstr :=
  match records with
  | [] => ret responseStr
  | r :: rest =>
      callOnData (Some (JString (data r))) ;;;
      if finished r then callOnEnd ;;; ret (responseStr ++ data r)
      else notify rest (responseStr ++ data r)
  end.

End WithHandlers.

Arguments StreamHandlers H : clear implicits.

(** A handler that returns from every state. *)
Definition returns {H : Type} (m : M H unit) : Prop :=
  forall h : H, exists h' : H, m h = (Normal tt, h').

(** No handler at all. *)
Definition none {H : Type} : StreamHandlers H :=
  {| onData := None; onEnd := None; onError := None |}.

(** Handlers that write down the calls they receive. *)
Inductive call : Type :=
| DataCall (data : option json)
| EndCall
| ErrorCall.

Definition recording : StreamHandlers (list call) :=
  {| onData := Some (fun d => modify (fun calls => calls ++ [DataCall d]));
     onEnd := Some (modify (fun calls => calls ++ [EndCall]));
     onError := Some (modify (fun calls => calls ++ [ErrorCall])) |}.

(** The calls the recording handlers write down for a sequence of
    records. *)
Fixpoint callsOf (records : list StreamData) : list call :=
  match records with
  | [] => []
  | r :: rest =>
      DataCall (Some (JString (data r)))
      :: (if finished r then [EndCall] else callsOf rest)
  end.

End Handlers.

(** The fragment is an array. *)
Definition isArray (c : json) : bool :=
  match c with JArray _ => true | _ => false end.

(** A read that does not end the stream with a finished record. *)
Definition notFinished (r : completion (jsstr * bool)) : bool :=
  match r with
  | Normal (_, true) => false
  | _ => true
  end.

(** ** Well-formed UTF-16 *)

(** The string has no lone surrogate: every leading surrogate is followed
    by a trailing one, and every trailing one follows a leading one.  These
    are the strings that [Buffer.from] followed by [toString] gives back
    unchanged. *)
Fixpoint wellFormed (s : jsstr) : bool :=
  match s with
  | [] => true
  | c :: r =>
      if isLeadingSurrogate c then
        match r with
        | d :: r' => isTrailingSurrogate d && wellFormed r'
        | [] => false
        end
      else negb (isTrailingSurrogate c) && wellFormed r
  end.

(** The string has no surrogate at all. *)
Definition plain (s : jsstr) : bool :=
  forallb (fun c => negb (isLeadingSurrogate c) && negb (isTrailingSurrogate c)) s.

Module Surrogates.

(** A chunk whose content is a lone leading surrogate, written as a JSON
    escape. *)
Definition chunkLone : Buffer :=
  jq "data: {'choices':[{'delta':{'content':'\ud83d'}}]}".

End Surrogates.

(** ** Lemmas on strings *)

Lemma str_eqb_eq (a b : jsstr) : str_eqb a b = true <-> a = b.
Proof.
  revert b; induction a as [|x a IH]; intros [|y b]; simpl; split; intro H;
    try reflexivity; try discriminate.
  - apply andb_true_iff in H as [Hx Hab]. apply N.eqb_eq in Hx.
    apply IH in Hab. congruence.
  - injection H as -> ->. rewrite N.eqb_refl. simpl. now apply IH.
Qed.


(** ** The loop of [modifyChunk] computes the record of the chunk *)

Lemma tryBlock_decode (payload : jsstr) (f : Frame.t) :
  tryBlock payload f =
  match decodeFrame payload with
  | Throw e => (Throw e, f)
  | Normal (content, finish_reason) =>
      let f1 := match content with
                | Some c => if ToBoolean content then Frame.push c f else f
                | None => f
                end in
      (Normal tt,
       if strictEqualsString finish_reason STOP_FINISH_REASON
       then Frame.setFinished f1 else f1)
  end.
Proof.
  unfold tryBlock, decodeFrame, bind, lift, throw, ret, modify.
  destruct (JSON_parse payload) as [parsed|e]; [|reflexivity].
  destruct (RequireObjectCoercible (Some parsed)) as [obj|e]; [|reflexivity].
  destruct (RequireObjectCoercible (Get obj K_choices)) as [choices|e]; [|reflexivity].
  destruct (strictEqualsZero (Get choices K_length)); [reflexivity|].
  destruct (RequireObjectCoercible (Get choices K_0)) as [first|e]; [|reflexivity].
  destruct (RequireObjectCoercible (Get first K_delta)) as [delta|e]; [|reflexivity].
  destruct (Get delta K_content) as [c|];
    [destruct (ToBoolean (Some c))|];
    destruct (strictEqualsString (Get first K_finish_reason) STOP_FINISH_REASON);
    reflexivity.
Qed.

Lemma forDataStrs_spec (dataStrs : list jsstr) (f : Frame.t) :
  forDataStrs dataStrs f =
  (Normal tt,
   Frame.mk (Frame.tokens f ++ fragments dataStrs)
            (Frame.finished f || stopSignaled dataStrs)
            (Frame.console f ++ errorsLogged dataStrs)).
Proof.
  revert f; induction dataStrs as [|dataStr rest IH]; intros [tk fin con].
  - unfold fragments, stopSignaled, errorsLogged; simpl.
    now rewrite !app_nil_r, orb_false_r.
  - unfold fragments, stopSignaled, errorsLogged in *.
    cbn [forDataStrs beforeTerminator].
    unfold classify, lineFragment, lineStops, lineError.
    change (List.length DATA_CHUNK_HEADER) with 6%nat.
    destruct (startsWith DATA_CHUNK_HEADER dataStr) eqn:Hh; cbn [negb].
    + destruct (str_eqb (slice 6 dataStr) DATA_CHUNK_TERMINATOR) eqn:Ht.
      * unfold ret; simpl. now rewrite !app_nil_r, orb_false_r.
      * cbn [flat_map existsb]. unfold classify. rewrite Hh, Ht.
        unfold bind, tryCatch. rewrite tryBlock_decode.
        destruct (decodeFrame (slice 6 dataStr)) as [[content fr]|e].
        -- cbn zeta.
           destruct content as [c|];
             [destruct (ToBoolean (Some c))|];
             destruct (strictEqualsString fr STOP_FINISH_REASON);
             rewrite IH; cbn [Frame.tokens Frame.finished Frame.console
                              Frame.push Frame.setFinished];
             rewrite ?app_nil_l, <- ?app_assoc, ?orb_true_r, ?orb_false_l;
             cbn [app orb]; try reflexivity.
        -- unfold modify. rewrite IH.
           cbn [Frame.tokens Frame.finished Frame.console Frame.consoleError].
           now rewrite <- app_assoc.
    + cbn [flat_map existsb]. unfold classify. rewrite Hh.
      rewrite IH. reflexivity.
Qed.

Lemma joinTokens_joinedText (tokens : list json) : joinTokens tokens = joinedText tokens.
Proof.
  induction tokens as [|c rest IH]; [reflexivity|].
  cbn [joinTokens joinedText]. unfold fragmentText. now rewrite IH.
Qed.

Lemma modifyChunk_spec (chunk : Buffer) (console : list logEntry) :
  modifyChunk chunk console =
  (match recordOf chunk with
   | Normal streamData => Normal (encode streamData)
   | Throw e => Throw e
   end,
   console ++ errorsLogged (dataStrsOf chunk)).
Proof.
  unfold modifyChunk. rewrite forDataStrs_spec.
  cbn [Frame.tokens Frame.finished Frame.console app orb].
  unfold encode, recordOf, recordOfLines. rewrite joinTokens_joinedText.
  now destruct (joinedText (fragments (dataStrsOf chunk))).
Qed.

(** Fragments that are strings are joined as they are. *)
Lemma joinedText_strings (cs : list json) :
  forallb isString cs = true ->
  joinedText cs = Normal (List.concat (List.map stringOf cs)).
Proof.
  induction cs as [|c rest IH]; intros H; [reflexivity|].
  cbn [forallb] in H. apply andb_true_iff in H as [Hc Hrest].
  destruct c; try discriminate Hc.
  cbn [joinedText fragmentText ToString]. now rewrite (IH Hrest).
Qed.

(** A chunk whose fragments are strings has a record. *)
Lemma recordOf_strings (chunk : Buffer) :
  forallb isString (fragments (dataStrsOf chunk)) = true ->
  recordOf chunk =
  Normal {| data := List.concat (List.map stringOf (fragments (dataStrsOf chunk)));
            finished := stopSignaled (dataStrsOf chunk) |}.
Proof.
  intros H. unfold recordOf, recordOfLines. now rewrite (joinedText_strings _ H).
Qed.

(** ** [JSON.parse] undoes [JSON.stringify] *)

Lemma of_hex_hexdigit (d : N) : (d < 16)%N -> of_hex (hexdigit d) = Some d.
Proof.
  intros H. destruct d as [|p]; [reflexivity|].
  do 5 (destruct p as [p|p|]; try reflexivity; try lia).
Qed.

Lemma of_hex4_unicode_escape (c : N) :
  (c < 65536)%N ->
  of_hex4 (hexdigit (c / 4096 mod 16)) (hexdigit (c / 256 mod 16))
          (hexdigit (c / 16 mod 16)) (hexdigit (c mod 16)) = Some c.
Proof.
  intros H. unfold of_hex4.
  rewrite !of_hex_hexdigit by (apply N.mod_lt; discriminate).
  f_equal.
  assert (Hs : (c / 4096 < 16)%N) by (apply N.Div0.div_lt_upper_bound; lia).
  rewrite (N.mod_small _ _ Hs).
  replace (c / 4096)%N with (c / 16 / 16 / 16)%N
    by (rewrite !N.Div0.div_div; reflexivity).
  replace (c / 256)%N with (c / 16 / 16)%N
    by (rewrite !N.Div0.div_div; reflexivity).
  pose proof (N.div_mod c 16 ltac:(discriminate)).
  pose proof (N.div_mod (c / 16) 16 ltac:(discriminate)).
  pose proof (N.div_mod (c / 16 / 16) 16 ltac:(discriminate)).
  lia.
Qed.

Lemma parse_chars_literal (c : N) (t : jsstr) :
  c <> 34%N -> c <> 92%N -> (32 <= c)%N ->
  parse_chars (c :: t) = cons_fst c (parse_chars t).
Proof.
  intros H1 H2 H3. cbn [parse_chars].
  destruct (N.eqb_spec c 34); [contradiction|].
  destruct (N.eqb_spec c 92); [contradiction|].
  destruct (N.ltb_spec c 32); [lia|reflexivity].
Qed.

Lemma parse_chars_unicode_escape (c : N) (t : jsstr) :
  (c < 65536)%N ->
  parse_chars (unicode_escape c ++ t) = cons_fst c (parse_chars t).
Proof.
  intros H. unfold unicode_escape. cbn [app parse_chars].
  change (92 =? 34)%N with false. change (92 =? 92)%N with true.
  change (117 =? 117)%N with true. cbv iota.
  now rewrite of_hex4_unicode_escape.
Qed.

Lemma parse_chars_escape_unit (c : N) (t : jsstr) :
  parse_chars (escape_unit c ++ t) = cons_fst c (parse_chars t).
Proof.
  unfold escape_unit.
  repeat match goal with
         | |- context [N.eqb c ?k] =>
             destruct (N.eqb_spec c k); [subst c; reflexivity|]
         end.
  destruct (N.ltb_spec c 32).
  - apply parse_chars_unicode_escape. lia.
  - apply parse_chars_literal; assumption.
Qed.

Lemma parse_chars_quote_chars_aux (k : nat) :
  forall (s rest : jsstr), (List.length s <= k)%nat ->
  parse_chars (quote_chars s ++ 34%N :: rest) = Some (s, rest).
Proof.
  induction k as [|k IH]; intros s rest Hlen.
  - destruct s; [reflexivity|simpl in Hlen; lia].
  - destruct s as [|c r]; [reflexivity|]. simpl in Hlen.
    cbn [quote_chars].
    destruct (isLeadingSurrogate c) eqn:Hl.
    + unfold isLeadingSurrogate in Hl. apply andb_true_iff in Hl as [Hl1 Hl2].
      apply N.leb_le in Hl1, Hl2.
      destruct r as [|d r'].
      * rewrite parse_chars_unicode_escape by lia. reflexivity.
      * destruct (isTrailingSurrogate d) eqn:Ht.
        -- unfold isTrailingSurrogate in Ht. apply andb_true_iff in Ht as [Ht1 Ht2].
           apply N.leb_le in Ht1, Ht2. cbn [app].
           rewrite parse_chars_literal by lia.
           rewrite parse_chars_literal by lia.
           rewrite IH by (simpl in Hlen; lia). reflexivity.
        -- rewrite <- app_assoc, parse_chars_unicode_escape by lia.
           rewrite IH by lia. reflexivity.
    + destruct (isTrailingSurrogate c) eqn:Ht.
      * unfold isTrailingSurrogate in Ht. apply andb_true_iff in Ht as [Ht1 Ht2].
        apply N.leb_le in Ht1, Ht2.
        rewrite <- app_assoc, parse_chars_unicode_escape by lia.
        rewrite IH by lia. reflexivity.
      * rewrite <- app_assoc, parse_chars_escape_unit.
        rewrite IH by lia. reflexivity.
Qed.

Lemma parse_chars_quote_chars (s rest : jsstr) :
  parse_chars (quote_chars s ++ 34%N :: rest) = Some (s, rest).
Proof. now apply (parse_chars_quote_chars_aux (List.length s)). Qed.

Lemma JSON_stringify_unfold (streamData : StreamData) :
  JSON_stringify streamData =
  jq "{'data':'" ++ quote_chars (data streamData)
  ++ jq "','finished':" ++ (if finished streamData then js "true" else js "false")
  ++ js "}".
Proof.
  unfold JSON_stringify, QuoteJSONString.
  change (js "{" ++ 34%N :: quote_chars (js "data") ++ [34%N]) with (jq "{'data'").
  cbn [app]. rewrite <- !app_assoc. reflexivity.
Qed.
Lemma parse_value_string (fuel : nat) (d rest : jsstr) :
  parse_value (S fuel) (34%N :: quote_chars d ++ 34%N :: rest) = POk (JString d) rest.
Proof.
  cbv -[parse_chars quote_chars app].
  now rewrite parse_chars_quote_chars.
Qed.

Lemma parse_members_more (fuel : nat) (key r r2 r4 : jsstr) (v : json)
  (acc : list (jsstr * json)) :
  parse_chars r = Some (key, 58%N :: r2) ->
  parse_value fuel r2 = POk v (44%N :: r4) ->
  parse_members (S fuel) (34%N :: r) acc = parse_members fuel r4 ((key, v) :: acc).
Proof.
  intros Hk Hv. cbn [parse_members]. 
  change (skip_ws (34%N :: r)) with (34%N :: r). cbv iota.
  change (34 =? 34)%N with true. cbv iota.
  rewrite Hk. change (skip_ws (58%N :: r2)) with (58%N :: r2). cbv iota.
  change (58 =? 58)%N with true. cbv iota.
  rewrite Hv. reflexivity.
Qed.

Lemma parse_members_last (fuel : nat) (key r r2 r4 : jsstr) (v : json)
  (acc : list (jsstr * json)) :
  parse_chars r = Some (key, 58%N :: r2) ->
  parse_value fuel r2 = POk v (125%N :: r4) ->
  parse_members (S fuel) (34%N :: r) acc = POk (JObject (rev ((key, v) :: acc))) r4.
Proof.
  intros Hk Hv. cbn [parse_members]. 
  change (skip_ws (34%N :: r)) with (34%N :: r). cbv iota.
  change (34 =? 34)%N with true. cbv iota.
  rewrite Hk. change (skip_ws (58%N :: r2)) with (58%N :: r2). cbv iota.
  change (58 =? 58)%N with true. cbv iota.
  rewrite Hv. reflexivity.
Qed.

Lemma parse_value_stringify (fuel : nat) (streamData : StreamData) (rest : jsstr) :
  parse_value (4 + fuel) (JSON_stringify streamData ++ rest) =
  POk (jsonOfRecord streamData) rest.
Proof.
  rewrite JSON_stringify_unfold. destruct streamData as [d b].
  cbn [data finished]. rewrite <- !app_assoc.
  change (4 + fuel)%nat with (S (S (S (S fuel)))).
  change (jq "{'data':'" ++ quote_chars d ++ jq "','finished':" ++
          (if b then js "true" else js "false") ++ js "}" ++ rest)
    with (123%N :: 34%N :: (js "data" ++ 34%N :: 58%N :: 34%N :: quote_chars d ++
          34%N :: 44%N :: 34%N :: (js "finished" ++ 34%N :: 58%N ::
          (if b then js "true" else js "false") ++ 125%N :: rest))).
  transitivity (parse_members (S (S (S fuel)))
    (34%N :: (js "data" ++ 34%N :: 58%N :: 34%N :: quote_chars d ++
     34%N :: 44%N :: 34%N :: (js "finished" ++ 34%N :: 58%N ::
     (if b then js "true" else js "false") ++ 125%N :: rest))) []);
    [reflexivity|].
  erewrite parse_members_more;
    [ | reflexivity | apply parse_value_string ].
  erewrite parse_members_last;
    [ reflexivity | reflexivity | destruct b; reflexivity ].
Qed.

Lemma JSON_parse_stringify (streamData : StreamData) :
  JSON_parse (JSON_stringify streamData) = Normal (jsonOfRecord streamData).
Proof.
  unfold JSON_parse.
  set (fuel := (2 * List.length (JSON_stringify streamData) + 2)%nat).
  assert (H : (4 <= fuel)%nat).
  { subst fuel. rewrite JSON_stringify_unfold, length_app.
    change (List.length (jq "{'data':'")) with 9%nat. lia. }
  replace fuel with (4 + (fuel - 4))%nat by lia.
  rewrite <- (app_nil_r (JSON_stringify streamData)).
  rewrite parse_value_stringify. reflexivity.
Qed.

(** ** The separator and the text of a record *)

Lemma startsWith_self_app (sep rest : jsstr) : startsWith sep (sep ++ rest) = true.
Proof. induction sep as [|x sep IH]; simpl; [reflexivity|]. now rewrite N.eqb_refl. Qed.

Lemma startsWith_app_notin (sep a b : jsstr) (x : N) :
  ~ In x sep -> startsWith sep (a ++ x :: b) = startsWith sep a.
Proof.
  revert a; induction sep as [|s sep IH]; intros a Hx; [reflexivity|].
  destruct a as [|c a]; simpl.
  - destruct (N.eqb_spec s x); [|reflexivity]. exfalso. apply Hx. now left.
  - rewrite IH; [reflexivity|]. intro H. apply Hx. now right.
Qed.

Lemma includes_cons_notin (sep b : jsstr) (x : N) :
  sep <> [] -> ~ In x sep -> includes sep (x :: b) = includes sep b.
Proof.
  intros Hne Hx. destruct sep as [|s sep]; [contradiction|].
  cbn [includes startsWith].
  destruct (N.eqb_spec s x); [|reflexivity]. exfalso. apply Hx. now left.
Qed.

Lemma includes_app_notin (sep a b : jsstr) (x : N) :
  sep <> [] -> ~ In x sep ->
  includes sep (a ++ x :: b) = includes sep a || includes sep b.
Proof.
  intros Hne Hx. induction a as [|c a IH].
  - cbn [app]. rewrite includes_cons_notin by assumption.
    destruct sep; [contradiction|reflexivity].
  - cbn [app includes]. rewrite IH.
    change (c :: a ++ x :: b) with ((c :: a) ++ x :: b).
    rewrite startsWith_app_notin by assumption.
    now rewrite orb_assoc.
Qed.

Lemma includes_app_skip (sep esc b : jsstr) :
  sep <> [] -> Forall (fun u => ~ In u sep) esc ->
  includes sep (esc ++ b) = includes sep b.
Proof.
  intros Hne H. induction H as [|u esc Hu _ IH]; [reflexivity|].
  cbn [app]. now rewrite includes_cons_notin.
Qed.


Lemma separator_units : Forall (fun u => sepUnit u = true) JSON_LINE_SEPARATOR.
Proof. repeat constructor. Qed.

Lemma notin_separator (x : N) : sepUnit x = false -> ~ In x JSON_LINE_SEPARATOR.
Proof.
  intros Hx Hin. pose proof separator_units as H.
  rewrite Forall_forall in H. apply H in Hin. congruence.
Qed.

Lemma sepUnit_hexdigit (d : N) : (d < 16)%N -> sepUnit (hexdigit d) = false.
Proof.
  intros H. destruct d as [|p]; [reflexivity|].
  do 5 (destruct p as [p|p|]; try reflexivity; try lia).
Qed.

Lemma sepUnit_unicode_escape (c : N) :
  Forall (fun u => sepUnit u = false) (unicode_escape c).
Proof.
  unfold unicode_escape.
  repeat constructor; apply sepUnit_hexdigit; apply N.mod_lt; discriminate.
Qed.

(** How [quote_chars] treats the first unit: it copies it, or escapes it,
    or copies a surrogate pair. *)
Lemma quote_chars_cases (c : N) (r : jsstr) :
  quote_chars (c :: r) = c :: quote_chars r
  \/ (exists esc, quote_chars (c :: r) = (92%N :: esc) ++ quote_chars r
                  /\ Forall (fun u => sepUnit u = false) (92%N :: esc))
  \/ (exists d r', r = d :: r' /\ sepUnit c = false /\ sepUnit d = false
                   /\ quote_chars (c :: r) = c :: d :: quote_chars r').
Proof.
  cbn [quote_chars].
  destruct (isLeadingSurrogate c) eqn:Hl.
  - destruct r as [|d r'].
    + right; left. exists (List.tl (unicode_escape c)). split.
      * now rewrite app_nil_r.
      * apply (sepUnit_unicode_escape c).
    + destruct (isTrailingSurrogate d) eqn:Ht.
      * right; right. exists d, r'.
        unfold isLeadingSurrogate in Hl. unfold isTrailingSurrogate in Ht.
        apply andb_true_iff in Hl as [Hl1 Hl2]. apply andb_true_iff in Ht as [Ht1 Ht2].
        apply N.leb_le in Hl1, Hl2, Ht1, Ht2.
        repeat split; unfold sepUnit;
          repeat match goal with
                 | |- context [N.leb ?a ?b] => destruct (N.leb_spec a b); try lia
                 | |- context [N.eqb ?a ?b] => destruct (N.eqb_spec a b); try lia
                 end; reflexivity.
      * right; left. exists (List.tl (unicode_escape c)). split; [reflexivity|].
        apply (sepUnit_unicode_escape c).
  - destruct (isTrailingSurrogate c).
    + right; left. exists (List.tl (unicode_escape c)). split; [reflexivity|].
      apply (sepUnit_unicode_escape c).
    + unfold escape_unit.
      repeat match goal with
             | |- context [N.eqb c ?k] =>
                 destruct (N.eqb_spec c k);
                 [right; left; eexists; split; [reflexivity|repeat constructor]|]
             end.
      destruct (N.ltb_spec c 32).
      * right; left. exists (List.tl (unicode_escape c)). split; [reflexivity|].
        apply (sepUnit_unicode_escape c).
      * left. reflexivity.
Qed.

Lemma startsWith_quote_chars (sep : jsstr) :
  Forall (fun u => sepUnit u = true) sep ->
  forall s, startsWith sep (quote_chars s) = true -> startsWith sep s = true.
Proof.
  induction 1 as [|a sep Ha _ IH]; intros s H; [reflexivity|].
  destruct s as [|c r]; [discriminate H|].
  destruct (quote_chars_cases c r) as [E|[(esc & E & Hesc)|(d & r' & -> & Hc & _ & E)]];
    rewrite E in H; cbn [startsWith app] in H |- *;
    apply andb_true_iff in H as [H1 H2]; apply N.eqb_eq in H1; subst a.
  - rewrite N.eqb_refl. cbn [andb]. now apply IH.
  - inversion Hesc; subst. congruence.
  - congruence.
Qed.

Lemma includes_quote_chars_aux (sep : jsstr) (k : nat) :
  sep <> [] -> Forall (fun u => sepUnit u = true) sep ->
  forall s, (List.length s <= k)%nat ->
  includes sep s = false -> includes sep (quote_chars s) = false.
Proof.
  intros Hne Hsep. 
  assert (Hnotin : forall u, sepUnit u = false -> ~ In u sep).
  { intros u Hu Hin. rewrite Forall_forall in Hsep. apply Hsep in Hin. congruence. }
  induction k as [|k IH]; intros s Hlen H.
  - destruct s; [|simpl in Hlen; lia]. destruct sep; [contradiction|reflexivity].
  - destruct s as [|c r]; [destruct sep; [contradiction|reflexivity]|].
    simpl in Hlen.
    cbn [includes] in H. apply orb_false_iff in H as [Hs Hr].
    destruct (quote_chars_cases c r) as [E|[(esc & E & Hesc)|(d & r' & -> & Hc & Hd & E)]].
    + assert (Hq : startsWith sep (quote_chars (c :: r)) = false).
      { destruct (startsWith sep (quote_chars (c :: r))) eqn:Hq; [|reflexivity].
        apply startsWith_quote_chars in Hq; [congruence|assumption]. }
      rewrite E in Hq |- *. cbn [includes]. rewrite Hq. cbn [orb].
      apply IH; [lia|assumption].
    + rewrite E. rewrite includes_app_skip; [apply IH; [lia|assumption]|assumption|].
      eapply Forall_impl; [|exact Hesc]. intros u Hu. now apply Hnotin.
    + rewrite E. rewrite !includes_cons_notin by auto.
      apply IH; [simpl in Hlen; lia|].
      cbn [includes] in Hr. now apply orb_false_iff in Hr as [_ Hr].
Qed.

Lemma includes_separator_stringify (streamData : StreamData) :
  includes JSON_LINE_SEPARATOR (data streamData) = false ->
  includes JSON_LINE_SEPARATOR (JSON_stringify streamData) = false.
Proof.
  intros H. rewrite JSON_stringify_unfold.
  change (jq "{'data':'") with (jq "{'data':" ++ [34%N]).
  change (jq "','finished':") with (34%N :: jq ",'finished':").
  rewrite <- !app_assoc. cbn [app].
  assert (Hne : JSON_LINE_SEPARATOR <> []) by discriminate.
  assert (Hq : ~ In 34%N JSON_LINE_SEPARATOR) by (now apply notin_separator).
  rewrite includes_app_notin by assumption.
  rewrite includes_app_notin by assumption.
  rewrite (includes_quote_chars_aux JSON_LINE_SEPARATOR (List.length (data streamData)) Hne separator_units
             (data streamData) (le_n _) H).
  destruct (finished streamData); reflexivity.
Qed.

Lemma split_go_skip (sep pre s cur : jsstr) :
  split_go sep (pre ++ s) (List.length pre) cur = split_go sep s 0 cur.
Proof.
  induction pre as [|c pre IH]; [reflexivity|]. cbn [app List.length split_go].
  exact IH.
Qed.

Lemma split_go_separator (sep rest cur : jsstr) :
  sep <> [] ->
  split_go sep (sep ++ rest) 0 cur = rev cur :: split_go sep rest 0 [].
Proof.
  intros Hne. destruct sep as [|x sep']; [contradiction|].
  cbn [app split_go].
  change (x :: sep' ++ rest) with ((x :: sep') ++ rest).
  rewrite startsWith_self_app.
  replace (List.length (x :: sep') - 1)%nat with (List.length sep')
    by (cbn [List.length]; lia).
  now rewrite split_go_skip.
Qed.

Lemma split_go_segment (sep j rest cur : jsstr) :
  sep <> [] -> noMatchIn sep j (sep ++ rest) = true ->
  split_go sep (j ++ sep ++ rest) 0 cur = (rev cur ++ j) :: split_go sep rest 0 [].
Proof.
  intros Hne. revert cur; induction j as [|c j IH]; intros cur H.
  - cbn [app]. rewrite app_nil_r. now apply split_go_separator.
  - cbn [noMatchIn] in H. apply andb_true_iff in H as [H1 H2].
    apply negb_true_iff in H1. cbn [app split_go] in *. rewrite H1.
    rewrite IH by assumption. cbn [rev]. now rewrite <- app_assoc.
Qed.

Lemma startsWith_app_cases (sep t u : jsstr) :
  startsWith sep (t ++ u) = true ->
  startsWith sep t = true \/ Forall (fun c => In c sep) t.
Proof.
  revert t; induction sep as [|a sep IH]; intros t H; [now left|].
  destruct t as [|c t]; [right; constructor|].
  cbn [app startsWith] in H |- *. apply andb_true_iff in H as [H1 H2].
  apply N.eqb_eq in H1; subst c. rewrite N.eqb_refl. cbn [andb].
  destruct (IH t H2) as [Hl|Hr]; [now left|right].
  constructor; [now left|].
  eapply Forall_impl; [|exact Hr]. intros c Hc. now right.
Qed.

Lemma noMatchIn_closed (sep body tail : jsstr) (x : N) :
  ~ In x sep -> includes sep (body ++ [x]) = false ->
  noMatchIn sep (body ++ [x]) tail = true.
Proof.
  intros Hx. induction body as [|c body IH]; intros H.
  - cbn [app noMatchIn]. rewrite andb_true_r. apply negb_true_iff.
    destruct sep as [|a sep]; [discriminate H|].
    cbn [startsWith]. destruct (N.eqb_spec a x); [|reflexivity].
    exfalso. apply Hx. now left.
  - cbn [app includes] in H. apply orb_false_iff in H as [H1 H2].
    cbn [app noMatchIn]. rewrite (IH H2), andb_true_r. apply negb_true_iff.
    destruct (startsWith sep (c :: (body ++ [x]) ++ tail)) eqn:E; [|reflexivity].
    change (c :: (body ++ [x]) ++ tail) with ((c :: body ++ [x]) ++ tail) in E.
    apply startsWith_app_cases in E as [E|E]; [congruence|].
    exfalso. apply Hx. rewrite Forall_forall in E. apply E.
    right. apply in_or_app. right. now left.
Qed.

Lemma split_go_encode (streamData : StreamData) (rest cur : jsstr) :
  includes JSON_LINE_SEPARATOR (data streamData) = false ->
  split_go JSON_LINE_SEPARATOR (encode streamData ++ rest) 0 cur =
  (rev cur ++ JSON_stringify streamData) :: split_go JSON_LINE_SEPARATOR rest 0 [].
Proof.
  intros H. unfold encode. rewrite <- app_assoc.
  apply split_go_segment; [discriminate|].
  pose proof (includes_separator_stringify streamData H) as Hj.
  rewrite JSON_stringify_unfold in Hj |- *.
  change (js "}") with ([125%N]) in *. rewrite !app_assoc in Hj |- *.
  apply noMatchIn_closed; [|exact Hj]. now apply notin_separator.
Qed.

Lemma JSON_stringify_nonEmpty (streamData : StreamData) :
  nonEmpty (JSON_stringify streamData) = true.
Proof. now rewrite JSON_stringify_unfold. Qed.

(** A chunk made of encoded records splits into their texts. *)
Lemma split_encoded (records : list StreamData) :
  Forall (fun r => includes JSON_LINE_SEPARATOR (data r) = false) records ->
  filter nonEmpty (split JSON_LINE_SEPARATOR (List.concat (List.map encode records))) =
  List.map JSON_stringify records.
Proof.
  unfold split. induction 1 as [|r records Hr _ IH]; [reflexivity|].
  cbn [List.map List.concat]. rewrite split_go_encode by assumption.
  cbn [rev app filter]. rewrite JSON_stringify_nonEmpty. now rewrite IH.
Qed.

(** ** The consumer *)

Lemma forJsonLines_consume (jsonLines : list jsstr) (rest : list (completion (jsstr * bool)))
  (failure : option jserror) (responseStr : jsstr) :
  match forJsonLines jsonLines responseStr with
  | Throw e => Throw e
  | Normal (Return r) => Normal r
  | Normal (Next r) => consume rest failure r
  end = consume (List.map readRecord jsonLines ++ rest) failure responseStr.
Proof.
  revert responseStr; induction jsonLines as [|json jsonLines IH]; intros responseStr.
  - reflexivity.
  - cbn [forJsonLines List.map app consume]. unfold readRecord.
    destruct (JSON_parse json) as [parsed|e]; [|reflexivity].
    destruct (RequireObjectCoercible (Some parsed)) as [obj|e]; [|reflexivity].
    destruct (ToStringV (Get obj K_data)) as [text|e]; [|reflexivity].
    destruct (ToBoolean (Get obj K_finished)); [reflexivity|apply IH].
Qed.

Lemma forChunks_consume (chunks : list Buffer) (failure : option jserror)
  (responseStr : jsstr) :
  forChunks chunks failure responseStr =
  consume (List.map readRecord (flat_map segments chunks)) failure responseStr.
Proof.
  revert responseStr; induction chunks as [|chunk rest IH]; intros responseStr.
  - reflexivity.
  - cbn [forChunks flat_map]. rewrite map_app, <- forJsonLines_consume.
    fold (segments chunk).
    destruct (forJsonLines (segments chunk) responseStr) as [[r|r]|e];
      [apply IH|reflexivity|reflexivity].
Qed.

Lemma streamChatResponse_consume (responseStream : ReadableStream) :
  streamChatResponse responseStream =
  consume (recordsRead responseStream) (failure responseStream) [].
Proof. apply forChunks_consume. Qed.

Lemma readRecord_stringify (streamData : StreamData) :
  readRecord (JSON_stringify streamData) =
  Normal (data streamData, finished streamData).
Proof.
  unfold readRecord. rewrite JSON_parse_stringify.
  destruct streamData as [d [|]]; reflexivity.
Qed.

Lemma consume_records (records : list StreamData) (responseStr : jsstr) :
  consume (List.map (fun r => Normal (data r, finished r)) records) None responseStr =
  Normal (responseStr ++ accumulate records).
Proof.
  revert responseStr; induction records as [|r records IH]; intros responseStr.
  - cbn. now rewrite app_nil_r.
  - cbn [List.map consume accumulate]. destruct (finished r).
    + now rewrite app_nil_r.
    + rewrite IH. now rewrite app_assoc.
Qed.

Lemma consume_unfinished (ds : list jsstr) (rest : list (completion (jsstr * bool)))
  (failure : option jserror) (responseStr : jsstr) :
  consume (List.map unfinished ds ++ rest) failure responseStr =
  consume rest failure (responseStr ++ List.concat ds).
Proof.
  revert responseStr; induction ds as [|d ds IH]; intros responseStr.
  - cbn [List.map app List.concat]. now rewrite app_nil_r.
  - cbn [List.map app consume unfinished List.concat]. rewrite IH. now rewrite app_assoc.
Qed.

(** The records read from chunks that each hold whole encoded records. *)
Lemma readRecords_encoded (groups : list (list StreamData)) :
  Forall (Forall (fun r => includes JSON_LINE_SEPARATOR (data r) = false)) groups ->
  List.map readRecord
    (flat_map segments (List.map (fun g => List.concat (List.map encode g)) groups)) =
  List.map (fun r => Normal (data r, finished r)) (List.concat groups).
Proof.
  induction 1 as [|g groups Hg _ IH]; [reflexivity|].
  cbn [List.map flat_map List.concat]. rewrite !map_app, IH. f_equal.
  unfold segments. rewrite split_encoded by assumption.
  rewrite map_map. apply map_ext. intros r. apply readRecord_stringify.
Qed.

Lemma concat_singletons {A : Type} (l : list A) :
  List.concat (List.map (fun x => [x]) l) = l.
Proof. induction l as [|x l IH]; [reflexivity|]. cbn. now rewrite IH. Qed.

(** The consumer is indifferent to how the encoded records are grouped in
    chunks: reading several outputs of the transform stage as one chunk
    changes nothing. *)
Lemma forChunks_encoded (groups : list (list StreamData)) :
  Forall (Forall (fun r => includes JSON_LINE_SEPARATOR (data r) = false)) groups ->
  forChunks (List.map (fun g => List.concat (List.map encode g)) groups) None [] =
  Normal (accumulate (List.concat groups)).
Proof.
  intros H. rewrite forChunks_consume, readRecords_encoded by assumption.
  apply consume_records.
Qed.

Lemma forChunks_encoded_one_by_one (records : list StreamData) :
  Forall (fun r => includes JSON_LINE_SEPARATOR (data r) = false) records ->
  forChunks (List.map encode records) None [] = Normal (accumulate records).
Proof.
  intros H.
  replace (List.map encode records)
    with (List.map (fun g => List.concat (List.map encode g))
                   (List.map (fun r => [r]) records))
    by (rewrite map_map; apply map_ext; intros r;
        cbn [List.map List.concat]; apply app_nil_r).
  rewrite forChunks_encoded.
  - now rewrite concat_singletons.
  - rewrite Forall_map. eapply Forall_impl; [|exact H]. intros r Hr. now constructor.
Qed.

(** ** The transform stage *)

Lemma pipe_modifyChunk (source : Readable) (dest : ModifyChunkStream)
  (console : list logEntry) :
  modifyFunction dest = modifyChunk ->
  pipe source dest console =
  ({| modifyFunction := modifyChunk;
      pushed := pushed dest ++ fst (fst (piped source));
      errored := match snd (fst (piped source)) with
                 | Some e => Some e
                 | None => errored dest
                 end |},
   console ++ snd (piped source)).
Proof.
  revert dest console; induction source as [|chunk rest IH]; intros dest console Hf.
  - cbn. rewrite !app_nil_r. destruct dest; cbn in *; now subst.
  - cbn [pipe piped]. unfold _transform, bind, ret.
    rewrite Hf, modifyChunk_spec.
    destruct (recordOf chunk) as [streamData|e].
    + rewrite IH by reflexivity. destruct (piped rest) as [[outputs failure] logs].
      cbn [fst snd pushed errored]. now rewrite <- !app_assoc.
    + cbn [fst snd]. now rewrite app_nil_r.
Qed.

(** When every chunk has a record, the outputs are the encoded records. *)
Lemma piped_records (source : Readable) (records : list StreamData) :
  List.map recordOf source = List.map Normal records ->
  fst (piped source) = (List.map encode records, None).
Proof.
  revert records; induction source as [|chunk rest IH]; intros records H.
  - destruct records; [reflexivity|discriminate].
  - destruct records as [|r records]; [discriminate|].
    cbn [List.map] in H. injection H as Hr Hrest.
    cbn [piped]. rewrite Hr. specialize (IH records Hrest).
    destruct (piped rest) as [[outputs failure] logs]. cbn [fst] in *.
    now injection IH as -> ->.
Qed.

(** ** The retry loop *)

Lemma invocations_app (a b : list event) :
  invocations (a ++ b) = invocations a ++ invocations b.
Proof. apply flat_map_app. Qed.

Lemma waits_app (a b : list event) : waits (a ++ b) = waits a ++ waits b.
Proof. apply flat_map_app. Qed.

Section WhileTrue.

Context {R T : Type}.
Variable fn : M R T.
Variables maxRetries initialRetryDelayMS maxJitterMS : Z.

Lemma waitBeforeRetry_events (retryCount : Z) (w : World R) :
  events (waitBeforeRetry initialRetryDelayMS maxJitterMS retryCount w) =
  events w ++
  [LogDebug (WaitingBeforeRetry
     (retryDelay initialRetryDelayMS (jitterOf (entropy w (drawn w)) maxJitterMS) retryCount));
   Wait (retryDelay initialRetryDelayMS (jitterOf (entropy w (drawn w)) maxJitterMS) retryCount)].
Proof.
  unfold waitBeforeRetry, Math_random, wait, logDebug, record, retryDelay, jitterOf.
  cbn [events]. now rewrite <- app_assoc.
Qed.

Lemma whileTrue_spec (fuel : nat) :
  forall (retryCount : Z) (w : World R),
  (Z.to_nat (maxRetries - retryCount) < fuel)%nat ->
  exists (r : completion T) (w' : World R) (errs : list jserror),
    whileTrue fn maxRetries initialRetryDelayMS maxJitterMS fuel retryCount w = Some (r, w')
    /\ invocations (events w') =
       invocations (events w) ++ List.map Some errs ++ [outcome r]
    /\ waits (events w') =
       waits (events w) ++
       List.map (fun i => retryDelay initialRetryDelayMS
                            (jitterOf (entropy w (drawn w + i)%nat) maxJitterMS)
                            (retryCount + Z.of_nat i))
                (seq 0 (List.length errs))
    /\ (List.length errs <= Z.to_nat (maxRetries - retryCount))%nat
    /\ (forall e, r = Throw e -> List.length errs = Z.to_nat (maxRetries - retryCount))
    /\ (exists s, fn s = (r, remote w'))
    /\ entropy w' = entropy w
    /\ drawn w' = (drawn w + List.length errs)%nat
    /\ console w' = console w.
Proof.
  induction fuel as [|fuel IH]; intros retryCount w Hfuel; [lia|].
  cbn [whileTrue]. unfold invoke, onRemote.
  destruct (fn (remote w)) as [[v|err] s] eqn:Hfn.
  - eexists (Normal v), _, []. split; [reflexivity|].
    cbn [events remote entropy drawn console record List.map List.length seq app outcome].
    rewrite invocations_app, waits_app. cbn. rewrite !app_nil_r, Nat.add_0_r.
    repeat split; try lia; try discriminate. now exists (remote w).
  - unfold shouldRetry. destruct (Z.ltb_spec retryCount maxRetries) as [Hlt|Hge]; cbn [negb].
    + set (w2 := logDebug (RequestFailed err) _).
      set (w3 := waitBeforeRetry initialRetryDelayMS maxJitterMS retryCount w2).
      destruct (IH (retryCount + 1)%Z w3 ltac:(lia))
        as (r & w' & errs & Hrun & Hinv & Hwaits & Hlen & Hthrow & Hfn' & Hent & Hdr & Hcon).
      exists r, w', (err :: errs). split; [exact Hrun|].
      assert (E3 : events w3 = events w ++
                [Invoked (Some err); LogDebug (RequestFailed err);
                 LogDebug (WaitingBeforeRetry
                   (retryDelay initialRetryDelayMS
                      (jitterOf (entropy w (drawn w)) maxJitterMS) retryCount));
                 Wait (retryDelay initialRetryDelayMS
                      (jitterOf (entropy w (drawn w)) maxJitterMS) retryCount)]).
      { subst w3. rewrite waitBeforeRetry_events. subst w2.
        unfold logDebug, record. cbn [events entropy drawn].
        now rewrite <- !app_assoc. }
      assert (Ee : entropy w3 = entropy w) by reflexivity.
      assert (Ed : drawn w3 = S (drawn w)) by reflexivity.
      assert (Ec : console w3 = console w) by reflexivity.
      rewrite Hinv, Hwaits, E3, invocations_app, waits_app, Hent, Hdr, Hcon, Ee, Ed, Ec.
      cbn [invocations waits flat_map app List.map List.length seq].
      rewrite <- !app_assoc. cbn [app].
      repeat split.
      * rewrite Nat.add_0_r, Z.add_0_r. do 2 f_equal.
        rewrite <- seq_shift, map_map. apply map_ext. intros i.
        f_equal; [f_equal; f_equal; lia|lia].
      * lia.
      * intros e He. specialize (Hthrow e He). lia.
      * exact Hfn'.
      * lia.
    + eexists (Throw err), _, []. split; [reflexivity|].
      unfold logDebug, record.
      cbn [events remote entropy drawn console List.map List.length seq app outcome].
      rewrite <- app_assoc, invocations_app, waits_app. cbn. rewrite !app_nil_r, Nat.add_0_r.
      repeat split; try lia. now exists (remote w).
Qed.

End WhileTrue.

(** ** Lines before and after the terminator *)


Lemma beforeTerminator_app (pre rest : list jsstr) :
  beforeTerminator (pre ++ rest) =
  if terminated pre then beforeTerminator pre else pre ++ beforeTerminator rest.
Proof.
  unfold terminated. induction pre as [|l pre IH]; [reflexivity|].
  cbn [beforeTerminator app existsb]. destruct (classify l); cbn [orb];
    try reflexivity; rewrite IH; now destruct (existsb _ pre).
Qed.

Lemma terminated_false (pre : list jsstr) :
  terminated pre = false <-> beforeTerminator pre = pre.
Proof.
  unfold terminated. induction pre as [|l pre IH]; [now split|].
  cbn [beforeTerminator existsb]. destruct (classify l); cbn [orb]; split; intro H;
    try discriminate.
  - f_equal. now apply IH.
  - apply IH. now injection H.
  - f_equal. now apply IH.
  - apply IH. now injection H.
Qed.

Lemma lineError_skipped (bad : jsstr) (e : jserror) :
  lineError bad = [LogError e] ->
  classify bad <> Terminator /\ lineFragment bad = [] /\ lineStops bad = false.
Proof.
  unfold lineError, lineFragment, lineStops.
  destruct (classify bad) as [| |payload]; try discriminate.
  destruct (decodeFrame payload); [discriminate|]. intros _. now repeat split.
Qed.

Lemma beforeTerminator_cons (line : jsstr) (rest : list jsstr) :
  classify line <> Terminator ->
  beforeTerminator (line :: rest) = line :: beforeTerminator rest.
Proof. cbn. now destruct (classify line). Qed.

Lemma fragments_skip (pre post : list jsstr) (bad : jsstr) (e : jserror) :
  lineError bad = [LogError e] ->
  fragments (pre ++ bad :: post) = fragments (pre ++ post)
  /\ stopSignaled (pre ++ bad :: post) = stopSignaled (pre ++ post).
Proof.
  intros H. apply lineError_skipped in H as (Hc & Hf & Hs).
  unfold fragments, stopSignaled.
  rewrite !beforeTerminator_app, beforeTerminator_cons by assumption.
  destruct (terminated pre); [now split|].
  rewrite !flat_map_app, !existsb_app. cbn [flat_map existsb].
  now rewrite Hf, Hs.
Qed.

Lemma recordOfLines_skip (pre post : list jsstr) (bad : jsstr) (e : jserror) :
  lineError bad = [LogError e] ->
  recordOfLines (pre ++ bad :: post) = recordOfLines (pre ++ post).
Proof.
  intros H. destruct (fragments_skip pre post bad e H) as [Hf Hs].
  unfold recordOfLines. now rewrite Hf, Hs.
Qed.

Lemma fragments_through_stop (pre post : list jsstr) (line : jsstr) :
  beforeTerminator pre = pre -> lineStops line = true ->
  fragments (pre ++ line :: post) = fragments pre ++ lineFragment line ++ fragments post.
Proof.
  intros Hpre Hs. unfold fragments.
  rewrite beforeTerminator_app. apply terminated_false in Hpre as Ht. rewrite Ht, Hpre.
  rewrite beforeTerminator_cons.
  - now rewrite flat_map_app.
  - unfold lineStops in Hs. now destruct (classify line).
Qed.

Lemma stopSignaled_iff (dataStrs : list jsstr) :
  stopSignaled dataStrs = true <->
  exists line, In line (beforeTerminator dataStrs) /\ lineStops line = true.
Proof. unfold stopSignaled. apply existsb_exists. Qed.

Lemma decodeFrame_empty_choices (payload : jsstr) (members : list (jsstr * json)) :
  JSON_parse payload = Normal (JObject members) ->
  lookup (js "choices") members = Some (JArray []) ->
  decodeFrame payload = Throw (Error (js "No choices returned from API")).
Proof.
  intros Hp Hc. unfold decodeFrame. rewrite Hp. cbn [RequireObjectCoercible Get].
  change (key_name K_choices) with (js "choices"). rewrite Hc. reflexivity.
Qed.

(** ** The fuel of the parser is enough *)

Lemma skip_ws_length (s : jsstr) : (List.length (skip_ws s) <= List.length s)%nat.
Proof.
  induction s as [|c s IH]; [apply le_n|].
  cbn [skip_ws]. destruct (isJSONWhiteSpace c); cbn [List.length]; lia.
Qed.

Lemma skip_ws_cons (s r : jsstr) (c : N) :
  skip_ws s = c :: r -> (List.length r < List.length s)%nat.
Proof.
  intros H. pose proof (skip_ws_length s) as L. rewrite H in L. cbn [List.length] in L. lia.
Qed.

Lemma cons_fst_Some (c : N) (x : option (jsstr * jsstr)) (str r : jsstr) :
  cons_fst c x = Some (str, r) -> exists str', x = Some (str', r).
Proof.
  destruct x as [[str' r']|]; [|discriminate]. cbn. intros H. injection H as _ <-.
  now exists str'.
Qed.

Lemma parse_chars_length_aux (k : nat) :
  forall s str r, (List.length s <= k)%nat ->
  parse_chars s = Some (str, r) -> (List.length r < List.length s)%nat.
Proof.
  induction k as [|k IH]; intros s str r Hk H.
  - destruct s; [discriminate|cbn in Hk; lia].
  - destruct s as [|c s1]; [discriminate|]. cbn [List.length] in *.
    cbn [parse_chars] in H.
    destruct (c =? 34)%N; [injection H as _ <-; lia|].
    destruct (c =? 92)%N.
    + destruct s1 as [|e s2]; [discriminate|]. cbn [List.length] in *.
      destruct (e =? 117)%N.
      * destruct s2 as [|h1 [|h2 [|h3 [|h4 s3]]]]; try discriminate.
        cbn [List.length] in *.
        destruct (of_hex4 h1 h2 h3 h4); [|discriminate].
        apply cons_fst_Some in H as [str' H]. apply IH in H; lia.
      * destruct (unescape e); [|discriminate].
        apply cons_fst_Some in H as [str' H]. apply IH in H; lia.
    + destruct (c <? 32)%N; [discriminate|].
      apply cons_fst_Some in H as [str' H]. apply IH in H; lia.
Qed.

Lemma parse_chars_length (s str r : jsstr) :
  parse_chars s = Some (str, r) -> (List.length r < List.length s)%nat.
Proof. apply (parse_chars_length_aux (List.length s)). apply le_n. Qed.

Lemma take_digits_length (s : jsstr) :
  (List.length (snd (take_digits s)) <= List.length s)%nat.
Proof.
  induction s as [|c s IH]; [apply le_n|].
  cbn [take_digits]. destruct (isDigit c); [|apply le_n].
  destruct (take_digits s) as [ds r]. cbn [snd List.length] in *. lia.
Qed.

Lemma take_digits_eq (s r : jsstr) (ds : list N) :
  take_digits s = (ds, r) -> (List.length r <= List.length s)%nat.
Proof. intros H. pose proof (take_digits_length s) as L. now rewrite H in L. Qed.

Lemma parse_sign_length (s r : jsstr) (neg : bool) :
  parse_sign s = (neg, r) -> (List.length r <= List.length s)%nat.
Proof.
  unfold parse_sign. destruct s as [|c s]; [intros H; injection H as _ <-; apply le_n|].
  destruct (c =? 45)%N; intros H; injection H as _ <-; cbn [List.length]; lia.
Qed.

Lemma parse_int_length (s r : jsstr) (ds : list N) :
  parse_int s = Some (ds, r) -> (List.length r < List.length s)%nat.
Proof.
  unfold parse_int. destruct s as [|c s]; [discriminate|].
  destruct (c =? 48)%N; [intros H; injection H as _ <-; cbn [List.length]; lia|].
  destruct (isDigit c) eqn:Hd; [|discriminate].
  cbn [take_digits]. rewrite Hd. destruct (take_digits s) as [ds' r'] eqn:E.
  intros H. injection H as _ <-. apply take_digits_eq in E. cbn [List.length]. lia.
Qed.

Lemma parse_frac_length (s r : jsstr) (ds : list N) :
  parse_frac s = Some (ds, r) -> (List.length r <= List.length s)%nat.
Proof.
  unfold parse_frac. destruct s as [|c s]; [intros H; injection H as _ <-; apply le_n|].
  destruct (c =? 46)%N; [|intros H; injection H as _ <-; apply le_n].
  destruct (take_digits s) as [[|d ds'] r'] eqn:E; [discriminate|].
  intros H. injection H as _ <-. apply take_digits_eq in E. cbn [List.length]. lia.
Qed.

Lemma parse_exp_sign_length (s r : jsstr) (neg : bool) :
  parse_exp_sign s = (neg, r) -> (List.length r <= List.length s)%nat.
Proof.
  unfold parse_exp_sign. destruct s as [|c s]; [intros H; injection H as _ <-; apply le_n|].
  destruct (c =? 45)%N; [intros H; injection H as _ <-; cbn [List.length]; lia|].
  destruct (c =? 43)%N; intros H; injection H as _ <-; cbn [List.length]; lia.
Qed.

Lemma parse_exp_length (s r : jsstr) (e : Z) :
  parse_exp s = Some (e, r) -> (List.length r <= List.length s)%nat.
Proof.
  unfold parse_exp. destruct s as [|c s]; [intros H; injection H as _ <-; apply le_n|].
  destruct ((c =? 101)%N || (c =? 69)%N); [|intros H; injection H as _ <-; apply le_n].
  destruct (parse_exp_sign s) as [eneg r1] eqn:E1.
  destruct (take_digits r1) as [[|d ds'] r'] eqn:E; [discriminate|].
  intros H. injection H as _ <-.
  apply take_digits_eq in E. apply parse_exp_sign_length in E1. cbn [List.length]. lia.
Qed.

Lemma parse_number_length (s r : jsstr) (x : JSNumber.double) :
  parse_number s = Some (x, r) -> (List.length r < List.length s)%nat.
Proof.
  unfold parse_number. destruct (parse_sign s) as [neg s1] eqn:E1.
  destruct (parse_int s1) as [[ids s2]|] eqn:E2; [|discriminate].
  destruct (parse_frac s2) as [[fds s3]|] eqn:E3; [|discriminate].
  destruct (parse_exp s3) as [[e s4]|] eqn:E4; [|discriminate].
  intros H. injection H as _ <-.
  apply parse_sign_length in E1. apply parse_int_length in E2.
  apply parse_frac_length in E3. apply parse_exp_length in E4. lia.
Qed.

Lemma parse_consumes (fuel : nat) :
  (forall s v r, parse_value fuel s = POk v r -> (List.length r < List.length s)%nat)
  /\ (forall s acc v r,
        parse_elements fuel s acc = POk v r -> (List.length r < List.length s)%nat)
  /\ (forall s acc v r,
        parse_members fuel s acc = POk v r -> (List.length r < List.length s)%nat).
Proof.
  induction fuel as [|f (IHv & IHe & IHm)]; [repeat split; intros; discriminate|].
  split; [|split].
  - intros s v r. cbn [parse_value].
    destruct (skip_ws s) as [|c r0] eqn:Es; [discriminate|].
    apply skip_ws_cons in Es.
    destruct (c =? 123)%N.
    { destruct (skip_ws r0) as [|c' r'] eqn:Er; [discriminate|].
      apply skip_ws_cons in Er.
      destruct (c' =? 125)%N.
      - intros H. injection H as _ <-. lia.
      - intros H. apply IHm in H. lia. }
    destruct (c =? 91)%N.
    { destruct (skip_ws r0) as [|c' r'] eqn:Er; [discriminate|].
      apply skip_ws_cons in Er.
      destruct (c' =? 93)%N.
      - intros H. injection H as _ <-. lia.
      - intros H. apply IHe in H. lia. }
    destruct (c =? 34)%N.
    { destruct (parse_chars r0) as [[str r']|] eqn:Ec; [|discriminate].
      apply parse_chars_length in Ec. intros H. injection H as _ <-. lia. }
    destruct (startsWith (js "true") (c :: r0)).
    { intros H. injection H as _ <-.
      destruct r0 as [|? [|? [|? ?]]]; cbn [List.length] in *; lia. }
    destruct (startsWith (js "false") (c :: r0)).
    { intros H. injection H as _ <-.
      destruct r0 as [|? [|? [|? [|? ?]]]]; cbn [List.length] in *; lia. }
    destruct (startsWith (js "null") (c :: r0)).
    { intros H. injection H as _ <-.
      destruct r0 as [|? [|? [|? ?]]]; cbn [List.length] in *; lia. }
    destruct (parse_number (c :: r0)) as [[x r']|] eqn:En; [|discriminate].
    apply parse_number_length in En. cbn [List.length] in En.
    intros H. injection H as _ <-. lia.
  - intros s acc v r. cbn [parse_elements].
    destruct (parse_value f s) as [v0 r0| |] eqn:Ev; try discriminate.
    apply IHv in Ev.
    destruct (skip_ws r0) as [|c r'] eqn:Er; [discriminate|].
    apply skip_ws_cons in Er.
    destruct (c =? 44)%N; [intros H; apply IHe in H; lia|].
    destruct (c =? 93)%N; [|discriminate].
    intros H. injection H as _ <-. lia.
  - intros s acc v r. cbn [parse_members].
    destruct (skip_ws s) as [|q r0] eqn:Es; [discriminate|].
    apply skip_ws_cons in Es.
    destruct (q =? 34)%N; [|discriminate].
    destruct (parse_chars r0) as [[key r1]|] eqn:Ec; [|discriminate].
    apply parse_chars_length in Ec.
    destruct (skip_ws r1) as [|colon r2] eqn:E1; [discriminate|].
    apply skip_ws_cons in E1.
    destruct (colon =? 58)%N; [|discriminate].
    destruct (parse_value f r2) as [v0 r3| |] eqn:Ev; try discriminate.
    apply IHv in Ev.
    destruct (skip_ws r3) as [|c r4] eqn:E3; [discriminate|].
    apply skip_ws_cons in E3.
    destruct (c =? 44)%N; [intros H; apply IHm in H; lia|].
    destruct (c =? 125)%N; [|discriminate].
    intros H. injection H as _ <-. lia.
Qed.

Lemma parse_fuel (fuel : nat) :
  (forall s, (2 * List.length s + 1 <= fuel)%nat -> parse_value fuel s <> POutOfFuel)
  /\ (forall s acc, (2 * List.length s + 2 <= fuel)%nat ->
        parse_elements fuel s acc <> POutOfFuel)
  /\ (forall s acc, (2 * List.length s + 2 <= fuel)%nat ->
        parse_members fuel s acc <> POutOfFuel).
Proof.
  induction fuel as [|f (IHv & IHe & IHm)]; [repeat split; intros; lia|].
  destruct (parse_consumes f) as (Cv & _ & _).
  split; [|split].
  - intros s Hf. cbn [parse_value].
    destruct (skip_ws s) as [|c r0] eqn:Es; [discriminate|].
    apply skip_ws_cons in Es.
    destruct (c =? 123)%N.
    { destruct (skip_ws r0) as [|c' r'] eqn:Er; [discriminate|].
      destruct (c' =? 125)%N; [discriminate|]. apply IHm. lia. }
    destruct (c =? 91)%N.
    { destruct (skip_ws r0) as [|c' r'] eqn:Er; [discriminate|].
      destruct (c' =? 93)%N; [discriminate|]. apply IHe. lia. }
    destruct (c =? 34)%N; [destruct (parse_chars r0) as [[? ?]|]; discriminate|].
    destruct (startsWith (js "true") (c :: r0)); [discriminate|].
    destruct (startsWith (js "false") (c :: r0)); [discriminate|].
    destruct (startsWith (js "null") (c :: r0)); [discriminate|].
    destruct (parse_number (c :: r0)) as [[? ?]|]; discriminate.
  - intros s acc Hf. cbn [parse_elements].
    destruct (parse_value f s) as [v0 r0| |] eqn:Ev; [|discriminate|].
    + apply Cv in Ev.
      destruct (skip_ws r0) as [|c r'] eqn:Er; [discriminate|].
      apply skip_ws_cons in Er.
      destruct (c =? 44)%N; [apply IHe; lia|].
      destruct (c =? 93)%N; discriminate.
    + exfalso. apply (IHv s); [lia|exact Ev].
  - intros s acc Hf. cbn [parse_members].
    destruct (skip_ws s) as [|q r0] eqn:Es; [discriminate|].
    apply skip_ws_cons in Es.
    destruct (q =? 34)%N; [|discriminate].
    destruct (parse_chars r0) as [[key r1]|] eqn:Ec; [|discriminate].
    apply parse_chars_length in Ec.
    destruct (skip_ws r1) as [|colon r2] eqn:E1; [discriminate|].
    apply skip_ws_cons in E1.
    destruct (colon =? 58)%N; [|discriminate].
    destruct (parse_value f r2) as [v0 r3| |] eqn:Ev; [|discriminate|].
    + apply Cv in Ev.
      destruct (skip_ws r3) as [|c r4] eqn:E3; [discriminate|].
      apply skip_ws_cons in E3.
      destruct (c =? 44)%N; [apply IHm; lia|].
      destruct (c =? 125)%N; discriminate.
    + exfalso. apply (IHv r2); [lia|exact Ev].
Qed.

(** [JSON_parse] never runs out of fuel: it throws only where the text is
    not JSON. *)
Lemma JSON_parse_fuel (text : jsstr) :
  parse_value (2 * List.length text + 2) text <> POutOfFuel.
Proof. apply parse_fuel. lia. Qed.

(** More fuel does not change a result. *)
Lemma parse_more_fuel (fuel : nat) :
  (forall s, parse_value fuel s <> POutOfFuel ->
             parse_value (S fuel) s = parse_value fuel s)
  /\ (forall s acc, parse_elements fuel s acc <> POutOfFuel ->
                    parse_elements (S fuel) s acc = parse_elements fuel s acc)
  /\ (forall s acc, parse_members fuel s acc <> POutOfFuel ->
                    parse_members (S fuel) s acc = parse_members fuel s acc).
Proof.
  induction fuel as [|f (IHv & IHe & IHm)]; [repeat split; intros; now contradiction|].
  split; [|split].
  - intros s. cbn [parse_value].
    destruct (skip_ws s) as [|c r0]; [reflexivity|].
    destruct (c =? 123)%N.
    { destruct (skip_ws r0) as [|c' r']; [reflexivity|].
      destruct (c' =? 125)%N; [reflexivity|]. intros H. now apply IHm. }
    destruct (c =? 91)%N.
    { destruct (skip_ws r0) as [|c' r']; [reflexivity|].
      destruct (c' =? 93)%N; [reflexivity|]. intros H. now apply IHe. }
    reflexivity.
  - intros s acc. cbn [parse_elements].
    destruct (parse_value f s) as [v0 r0| |] eqn:Ev.
    + rewrite IHv by (rewrite Ev; discriminate). rewrite Ev.
      destruct (skip_ws r0) as [|c r']; [reflexivity|].
      destruct (c =? 44)%N; [intros H; now apply IHe|reflexivity].
    + rewrite IHv by (rewrite Ev; discriminate). now rewrite Ev.
    + intros H. now contradiction H.
  - intros s acc. cbn [parse_members].
    destruct (skip_ws s) as [|q r0]; [reflexivity|].
    destruct (q =? 34)%N; [|reflexivity].
    destruct (parse_chars r0) as [[key r1]|]; [|reflexivity].
    destruct (skip_ws r1) as [|colon r2]; [reflexivity|].
    destruct (colon =? 58)%N; [|reflexivity].
    destruct (parse_value f r2) as [v0 r3| |] eqn:Ev.
    + rewrite IHv by (rewrite Ev; discriminate). rewrite Ev.
      destruct (skip_ws r3) as [|c r4]; [reflexivity|].
      destruct (c =? 44)%N; [intros H; now apply IHm|reflexivity].
    + rewrite IHv by (rewrite Ev; discriminate). now rewrite Ev.
    + intros H. now contradiction H.
Qed.

(** ** The trace of a run of the retry loop *)

Lemma world_eq {R : Type} (w w' : World R) :
  remote w = remote w' -> console w = console w' -> events w = events w' ->
  entropy w = entropy w' -> drawn w = drawn w' -> w = w'.
Proof. destruct w, w'; cbn; intros; now subst. Qed.

Section Runs.

Context {R T : Type}.
Variable fn : M R T.
Variables maxRetries initialRetryDelayMS maxJitterMS : Z.

(** The world after one failed attempt and the wait that follows it. *)
Lemma retry_step (retryCount : Z) (w : World R) (err : jserror) (s : R) :
  fn (remote w) = (Throw err, s) ->
  let w3 := waitBeforeRetry initialRetryDelayMS maxJitterMS retryCount
              (logDebug (RequestFailed err) (snd (invoke fn w))) in
  remote w3 = s /\ console w3 = console w /\ entropy w3 = entropy w
  /\ drawn w3 = S (drawn w)
  /\ events w3 =
     events w ++ retried err (retryDelay initialRetryDelayMS
                                (jitterOf (entropy w (drawn w)) maxJitterMS) retryCount).
Proof.
  intros Hfn w3. subst w3. unfold invoke, onRemote. rewrite Hfn. cbn [snd].
  rewrite waitBeforeRetry_events.
  unfold waitBeforeRetry, Math_random, wait, logDebug, record, retried.
  cbn [remote console entropy drawn events]. rewrite <- !app_assoc. now repeat split.
Qed.

Lemma whileTrue_trace (fuel : nat) :
  forall (retryCount : Z) (w : World R),
  (Z.to_nat (maxRetries - retryCount) < fuel)%nat ->
  exists (r : completion T) (w' : World R) (errs : list jserror),
    whileTrue fn maxRetries initialRetryDelayMS maxJitterMS fuel retryCount w = Some (r, w')
    /\ events w' =
       events w
       ++ retriedFrom initialRetryDelayMS maxJitterMS (entropy w) (drawn w) retryCount errs
       ++ lastAttempt r
    /\ (List.length errs <= Z.to_nat (maxRetries - retryCount))%nat
    /\ (forall e, r = Throw e -> List.length errs = Z.to_nat (maxRetries - retryCount))
    /\ entropy w' = entropy w
    /\ drawn w' = (drawn w + List.length errs)%nat
    /\ console w' = console w
    /\ exists s, failsFor fn (List.length errs) (remote w) = Some (errs, s)
                 /\ fn s = (r, remote w').
Proof.
  induction fuel as [|fuel IH]; intros retryCount w Hfuel; [lia|].
  cbn [whileTrue].
  destruct (fn (remote w)) as [[v|err] s] eqn:Hfn.
  - unfold invoke, onRemote. rewrite Hfn.
    eexists (Normal v), _, []. split; [reflexivity|].
    cbn [events remote entropy drawn console record retriedFrom lastAttempt List.length app
         failsFor].
    repeat split; try lia; try discriminate. now exists (remote w).
  - pose proof (retry_step retryCount w err s Hfn) as Hstep. cbn zeta in Hstep.
    unfold invoke, onRemote in *. rewrite Hfn in *. cbn [snd] in Hstep.
    unfold shouldRetry. destruct (Z.ltb_spec retryCount maxRetries) as [Hlt|Hge]; cbn [negb].
    + destruct Hstep as (Hrem & Hcon & Hent & Hdr & Hev).
      match goal with |- context [whileTrue _ _ _ _ fuel _ ?w3] => set (w3' := w3) in * end.
      destruct (IH (retryCount + 1)%Z w3' ltac:(lia))
        as (r & w' & errs & Hrun & Hev' & Hlen & Hthrow & Hent' & Hdr' & Hcon'
            & s' & Hfails & Hlast).
      exists r, w', (err :: errs). split; [exact Hrun|].
      rewrite Hev', Hev, Hent, Hdr, Hent', Hdr', Hcon', Hcon.
      cbn [retriedFrom List.length]. rewrite <- !app_assoc.
      repeat split; try lia.
      * intros e He. specialize (Hthrow e He). lia.
      * exists s'. cbn [failsFor]. rewrite Hfn. rewrite Hrem in Hfails.
        now rewrite Hfails.
    + eexists (Throw err), _, []. split; [reflexivity|].
      unfold logDebug, record.
      cbn [events remote entropy drawn console retriedFrom lastAttempt List.length app
           failsFor].
      rewrite <- app_assoc.
      repeat split; try lia. now exists (remote w).
Qed.

(** A run whose first [k] attempts fail, [k] being within the budget, goes
    on from the world these attempts leave. *)
Lemma whileTrue_failsFor (k : nat) :
  forall (fuel : nat) (retryCount : Z) (w : World R) (errs : list jserror) (s : R),
  failsFor fn k (remote w) = Some (errs, s) ->
  (retryCount + Z.of_nat k <= maxRetries)%Z ->
  whileTrue fn maxRetries initialRetryDelayMS maxJitterMS (k + fuel)%nat retryCount w =
  whileTrue fn maxRetries initialRetryDelayMS maxJitterMS fuel (retryCount + Z.of_nat k)%Z
    {| remote := s; console := console w;
       events := events w
                 ++ retriedFrom initialRetryDelayMS maxJitterMS (entropy w) (drawn w)
                      retryCount errs;
       entropy := entropy w; drawn := (drawn w + k)%nat |}.
Proof.
  induction k as [|k IH]; intros fuel retryCount w errs s Hf Hk.
  - cbn in Hf. injection Hf as <- <-. cbn [retriedFrom Nat.add].
    rewrite app_nil_r, Z.add_0_r, Nat.add_0_r. now destruct w.
  - cbn [failsFor] in Hf.
    destruct (fn (remote w)) as [[v|err] s1] eqn:Hfn; [discriminate|].
    destruct (failsFor fn k s1) as [[errs' s']|] eqn:Hrest; [|discriminate].
    injection Hf as <- <-.
    pose proof (retry_step retryCount w err s1 Hfn) as Hstep. cbn zeta in Hstep.
    cbn [Nat.add whileTrue].
    unfold invoke, onRemote in *. rewrite Hfn in *. cbn [snd] in Hstep.
    unfold shouldRetry. destruct (Z.ltb_spec retryCount maxRetries) as [Hlt|Hge]; [|lia].
    cbn [negb].
    destruct Hstep as (Hrem & Hcon & Hent & Hdr & Hev).
    match goal with |- context [whileTrue _ _ _ _ (k + fuel) _ ?w3] => set (w3' := w3) in * end.
    rewrite <- Hrem in Hrest.
    rewrite (IH fuel (retryCount + 1)%Z w3' errs' s' Hrest ltac:(lia)).
    f_equal; [lia|].
    apply world_eq; cbn [remote console events entropy drawn]; try assumption;
      try reflexivity.
    + rewrite Hev, Hent, Hdr. cbn [retriedFrom]. now rewrite <- !app_assoc.
    + lia.
Qed.

End Runs.

Lemma failsFor_length {R T : Type} (fn : M R T) (k : nat) :
  forall (s : R) (errs : list jserror) (s' : R),
  failsFor fn k s = Some (errs, s') -> List.length errs = k.
Proof.
  induction k as [|k IH]; intros s errs s' Hf; cbn [failsFor] in Hf.
  - now injection Hf as <- _.
  - destruct (fn s) as [[v|e] s1]; [discriminate|].
    destruct (failsFor fn k s1) as [[errs' s2]|] eqn:E; [|discriminate].
    injection Hf as <- _. cbn [List.length]. f_equal. now apply (IH s1 errs' s2).
Qed.

(** The delays waited in the events of the failed attempts. *)
Lemma waits_retriedFrom (initialRetryDelayMS maxJitterMS : Z) (entropy : nat -> JSNumber.double)
  (errs : list jserror) :
  forall (drawn : nat) (retryCount : Z),
  waits (retriedFrom initialRetryDelayMS maxJitterMS entropy drawn retryCount errs) =
  List.map (fun i => retryDelay initialRetryDelayMS
                       (jitterOf (entropy (drawn + i)%nat) maxJitterMS)
                       (retryCount + Z.of_nat i))
           (seq 0 (List.length errs)).
Proof.
  induction errs as [|err errs IH]; intros drawn retryCount; [reflexivity|].
  cbn [retriedFrom List.length seq List.map]. rewrite waits_app, IH.
  cbn [retried waits flat_map app]. rewrite Nat.add_0_r, Z.add_0_r. f_equal.
  rewrite <- seq_shift, map_map. apply map_ext. intros i.
  f_equal; [f_equal; f_equal; lia|lia].
Qed.

Lemma invocations_retriedFrom (initialRetryDelayMS maxJitterMS : Z) (entropy : nat -> JSNumber.double)
  (errs : list jserror) :
  forall (drawn : nat) (retryCount : Z),
  invocations (retriedFrom initialRetryDelayMS maxJitterMS entropy drawn retryCount errs) =
  List.map Some errs.
Proof.
  induction errs as [|err errs IH]; intros drawn retryCount; [reflexivity|].
  cbn [retriedFrom List.map]. rewrite invocations_app, IH. reflexivity.
Qed.

Lemma waits_lastAttempt {T : Type} (r : completion T) : waits (lastAttempt r) = [].
Proof. now destruct r. Qed.

Lemma invocations_lastAttempt {T : Type} (r : completion T) :
  invocations (lastAttempt r) = [outcome r].
Proof. now destruct r. Qed.

(** The parameters in force and the loop they start. *)
Lemma withExponentialBackoff_unfold {R T : Type} (fn : M R T)
  (params : option ExponentialBackoffParams.t) (w : World R) :
  withExponentialBackoff fn params w =
  whileTrue fn (maxRetriesOf params) (initialRetryDelayOf params) (maxJitterOf params)
    (S (Z.to_nat (maxRetriesOf params))) 0 w.
Proof. now destruct params. Qed.

Lemma withExponentialBackoff_trace {R T : Type} (fn : M R T)
  (params : option ExponentialBackoffParams.t) (w : World R) :
  exists (r : completion T) (w' : World R) (errs : list jserror),
    withExponentialBackoff fn params w = Some (r, w')
    /\ events w' =
       events w
       ++ retriedFrom (initialRetryDelayOf params) (maxJitterOf params)
            (entropy w) (drawn w) 0 errs
       ++ lastAttempt r
    /\ (Z.of_nat (List.length errs) <= Z.max 0 (maxRetriesOf params))%Z
    /\ (forall e, r = Throw e ->
        Z.of_nat (List.length errs) = Z.max 0 (maxRetriesOf params))
    /\ entropy w' = entropy w
    /\ drawn w' = (drawn w + List.length errs)%nat
    /\ console w' = console w
    /\ exists s, failsFor fn (List.length errs) (remote w) = Some (errs, s)
                 /\ fn s = (r, remote w').
Proof.
  rewrite withExponentialBackoff_unfold.
  destruct (whileTrue_trace fn (maxRetriesOf params) (initialRetryDelayOf params)
              (maxJitterOf params) (S (Z.to_nat (maxRetriesOf params))) 0 w ltac:(lia))
    as (r & w' & errs & Hrun & Hev & Hlen & Hthrow & Hent & Hdr & Hcon & Hst).
  exists r, w', errs. rewrite Z.sub_0_r in *.
  repeat split; try assumption; try lia.
  intros e He. specialize (Hthrow e He). lia.
Qed.


(** ** Trimming *)

Lemma trimStart_blank (ws s : jsstr) :
  blank ws = true -> trimStart (ws ++ s) = trimStart s.
Proof.
  unfold blank. induction ws as [|c ws IH]; intros H; [reflexivity|].
  cbn [forallb] in H. apply andb_true_iff in H as [Hc Hws].
  cbn [app trimStart]. rewrite Hc. now apply IH.
Qed.

Lemma blank_rev (ws : jsstr) : blank (rev ws) = blank ws.
Proof.
  unfold blank. induction ws as [|c ws IH]; [reflexivity|].
  cbn [rev forallb]. rewrite forallb_app, IH. cbn [forallb].
  now rewrite andb_true_r, andb_comm.
Qed.

Lemma blank_app (a b : jsstr) : blank (a ++ b) = blank a && blank b.
Proof. apply forallb_app. Qed.

Lemma trimEnd_blank (s ws : jsstr) :
  blank ws = true -> trimEnd (s ++ ws) = trimEnd s.
Proof.
  intros H. unfold trimEnd. rewrite rev_app_distr, trimStart_blank; [reflexivity|].
  now rewrite blank_rev.
Qed.

(** What [trimStart] removes is white space. *)
Lemma trimStart_split (s : jsstr) :
  exists ws, blank ws = true /\ s = ws ++ trimStart s.
Proof.
  induction s as [|c s (ws & Hws & E)].
  - now exists [].
  - cbn [trimStart]. destruct (isWhiteSpace c) eqn:Hc.
    + exists (c :: ws). unfold blank in *. cbn [forallb app]. rewrite Hc, Hws.
      split; [reflexivity|]. now rewrite <- E.
    + now exists [].
Qed.

Lemma trimEnd_split (s : jsstr) :
  exists ws, blank ws = true /\ s = trimEnd s ++ ws.
Proof.
  destruct (trimStart_split (rev s)) as (ws & Hws & E).
  exists (rev ws). rewrite blank_rev. split; [exact Hws|].
  unfold trimEnd. rewrite <- rev_app_distr, <- E. now rewrite rev_involutive.
Qed.

(** What [trimStart] leaves does not start with white space. *)
Lemma trimStart_head (s : jsstr) :
  trimStart s = [] \/ exists c r, trimStart s = c :: r /\ isWhiteSpace c = false.
Proof.
  induction s as [|c s IH]; [now left|].
  cbn [trimStart]. destruct (isWhiteSpace c) eqn:Hc; [exact IH|].
  right. now exists c, s.
Qed.

Lemma trimEnd_last (s : jsstr) :
  trimEnd s = [] \/ exists r c, trimEnd s = r ++ [c] /\ isWhiteSpace c = false.
Proof.
  unfold trimEnd. destruct (trimStart_head (rev s)) as [E|(c & r & E & Hc)].
  - left. now rewrite E.
  - right. exists (rev r), c. now rewrite E.
Qed.

Lemma trimEnd_fixed (r : jsstr) (c : N) :
  isWhiteSpace c = false -> trimEnd (r ++ [c]) = r ++ [c].
Proof.
  intros Hc. unfold trimEnd. rewrite rev_app_distr. cbn [rev app trimStart].
  rewrite Hc. cbn [rev]. now rewrite rev_involutive.
Qed.

Lemma trimStart_app (s t : jsstr) :
  trimStart (s ++ t) =
  match trimStart s with
  | [] => trimStart t
  | _ :: _ => trimStart s ++ t
  end.
Proof.
  induction s as [|c s IH]; [reflexivity|].
  cbn [app trimStart]. destruct (isWhiteSpace c); [exact IH|reflexivity].
Qed.

Lemma trimStart_of_blank (ws : jsstr) : blank ws = true -> trimStart ws = [].
Proof.
  intros H. rewrite <- (app_nil_r ws). now rewrite trimStart_blank.
Qed.

Lemma trim_blank_around (ws1 s ws2 : jsstr) :
  blank ws1 = true -> blank ws2 = true -> trim (ws1 ++ s ++ ws2) = trim s.
Proof.
  intros H1 H2. unfold trim. rewrite trimStart_blank by assumption.
  rewrite trimStart_app. destruct (trimStart s) as [|c r] eqn:E.
  - now rewrite trimStart_of_blank.
  - now apply trimEnd_blank.
Qed.

Lemma trim_blank_l (ws s : jsstr) : blank ws = true -> trim (ws ++ s) = trim s.
Proof.
  intros H. rewrite <- (app_nil_r s) at 1. now apply trim_blank_around.
Qed.

Lemma trim_blank_r (s ws : jsstr) : blank ws = true -> trim (s ++ ws) = trim s.
Proof. intros H. now apply (trim_blank_around [] s ws). Qed.

(** ** Splitting on the line feed *)

Lemma split_go_LF (c : N) (s cur : jsstr) :
  split_go [LF] (c :: s) 0 cur =
  if N.eqb LF c then rev cur :: split_go [LF] s 0 []
  else split_go [LF] s 0 (c :: cur).
Proof. cbn [split_go startsWith List.length Nat.sub]. now destruct (N.eqb LF c). Qed.

Lemma split_go_LF_app (a b cur : jsstr) :
  split_go [LF] (a ++ LF :: b) 0 cur = split_go [LF] a 0 cur ++ split [LF] b.
Proof.
  revert cur; induction a as [|c a IH]; intros cur.
  - cbn [app]. rewrite split_go_LF. reflexivity.
  - cbn [app]. rewrite !split_go_LF. destruct (N.eqb LF c).
    + cbn [app]. f_equal. apply IH.
    + apply IH.
Qed.

Lemma split_LF_app (a b : jsstr) :
  split [LF] (a ++ LF :: b) = split [LF] a ++ split [LF] b.
Proof. apply split_go_LF_app. Qed.

(** What was read of the current line is the start of the first line. *)
Lemma split_go_LF_cur (s cur : jsstr) :
  exists first others,
    split [LF] s = first :: others
    /\ split_go [LF] s 0 cur = (rev cur ++ first) :: others.
Proof.
  unfold split. revert cur; induction s as [|c s IH]; intros cur.
  - exists [], []. cbn. now rewrite app_nil_r.
  - rewrite !split_go_LF. destruct (N.eqb LF c).
    + eexists _, _. split; [reflexivity|]. cbn [rev]. now rewrite app_nil_r.
    + destruct (IH [c]) as (f1 & o1 & E1 & E1').
      destruct (IH (c :: cur)) as (f2 & o2 & E2 & E2').
      rewrite E1 in E2. injection E2 as <- <-.
      exists (rev [c] ++ f1), o1. split; [exact E1'|].
      rewrite E2'. cbn [rev app]. now rewrite <- app_assoc.
Qed.

Lemma split_LF_cons (c : N) (s : jsstr) :
  N.eqb LF c = false ->
  exists first others,
    split [LF] s = first :: others /\ split [LF] (c :: s) = (c :: first) :: others.
Proof.
  intros Hc. destruct (split_go_LF_cur s [c]) as (first & others & E & E').
  exists first, others. split; [exact E|].
  unfold split. now rewrite split_go_LF, Hc.
Qed.

(** A unit that is not a line feed, added at the end, goes to the last
    line. *)
Lemma split_go_LF_snoc (s : jsstr) (c : N) :
  N.eqb LF c = false ->
  forall cur, exists lines last,
    split_go [LF] s 0 cur = lines ++ [last]
    /\ split_go [LF] (s ++ [c]) 0 cur = lines ++ [last ++ [c]].
Proof.
  intros Hc. induction s as [|d s IH]; intros cur.
  - exists [], (rev cur). cbn [app]. rewrite split_go_LF, Hc. now cbn.
  - cbn [app]. rewrite !split_go_LF. destruct (N.eqb LF d).
    + destruct (IH []) as (lines & last & E & E').
      exists (rev cur :: lines), last. now rewrite E, E'.
    + apply IH.
Qed.

(** ** The lines of a chunk, blank lines apart *)

Lemma trim_nil : trim [] = [].
Proof. reflexivity. Qed.

Lemma blank_LF (c : N) : N.eqb LF c = true -> isWhiteSpace c = true.
Proof. intros H. apply N.eqb_eq in H. now subst c. Qed.

Lemma linesOf_blank_l (ws s : jsstr) : blank ws = true -> linesOf (ws ++ s) = linesOf s.
Proof.
  unfold blank. induction ws as [|c ws IH]; intros H; [reflexivity|].
  cbn [forallb] in H. apply andb_true_iff in H as [Hc Hws].
  specialize (IH Hws). unfold linesOf in *. cbn [app].
  destruct (N.eqb LF c) eqn:E.
  - unfold split. rewrite split_go_LF, E. cbn [List.map rev filter].
    rewrite trim_nil. cbn [nonEmpty]. exact IH.
  - destruct (split_LF_cons c (ws ++ s) E) as (first & others & E1 & E2).
    rewrite E2. rewrite E1 in IH. cbn [List.map] in *.
    change (c :: first) with ([c] ++ first).
    now rewrite (trim_blank_l [c] first) by (unfold blank; cbn; now rewrite Hc).
Qed.

Lemma linesOf_snoc_blank (s : jsstr) (c : N) :
  isWhiteSpace c = true -> linesOf (s ++ [c]) = linesOf s.
Proof.
  intros Hc. unfold linesOf. destruct (N.eqb LF c) eqn:E.
  - apply N.eqb_eq in E. subst c. rewrite split_LF_app, map_app, filter_app.
    cbn. now rewrite app_nil_r.
  - destruct (split_go_LF_snoc s c E []) as (lines & last & E1 & E2).
    unfold split. rewrite E1, E2, !map_app. cbn [List.map].
    now rewrite (trim_blank_r last [c]) by (unfold blank; cbn; now rewrite Hc).
Qed.

Lemma linesOf_blank_r (s ws : jsstr) : blank ws = true -> linesOf (s ++ ws) = linesOf s.
Proof.
  unfold blank. revert s; induction ws as [|c ws IH]; intros s H.
  - now rewrite app_nil_r.
  - cbn [forallb] in H. apply andb_true_iff in H as [Hc Hws].
    change (s ++ c :: ws) with (s ++ [c] ++ ws). rewrite app_assoc.
    rewrite (IH (s ++ [c]) Hws). now apply linesOf_snoc_blank.
Qed.

Lemma linesOf_trim (s : jsstr) : linesOf (trim s) = linesOf s.
Proof.
  destruct (trimStart_split s) as (ws1 & H1 & E1).
  destruct (trimEnd_split (trimStart s)) as (ws2 & H2 & E2).
  fold (trim s) in E2. rewrite E1 at 2. rewrite E2.
  now rewrite linesOf_blank_l, linesOf_blank_r.
Qed.

(** The lines [modifyChunk] reads, the empty ones apart. *)
Lemma dataStrsOf_linesOf (chunk : Buffer) :
  filter nonEmpty (dataStrsOf chunk) = linesOf chunk.
Proof. unfold dataStrsOf. apply linesOf_trim. Qed.

Lemma linesOf_app (a b : jsstr) : linesOf (a ++ LF :: b) = linesOf a ++ linesOf b.
Proof. unfold linesOf. now rewrite split_LF_app, map_app, filter_app. Qed.

Lemma dataStrsOf_app (a b : Buffer) :
  filter nonEmpty (dataStrsOf (a ++ LF :: b)) =
  filter nonEmpty (dataStrsOf a) ++ filter nonEmpty (dataStrsOf b).
Proof. rewrite !dataStrsOf_linesOf. apply linesOf_app. Qed.

(** White space around a chunk changes nothing to its lines. *)
Lemma dataStrsOf_blank_around (ws1 chunk ws2 : jsstr) :
  blank ws1 = true -> blank ws2 = true ->
  dataStrsOf (ws1 ++ chunk ++ ws2) = dataStrsOf chunk.
Proof. intros H1 H2. unfold dataStrsOf. now rewrite trim_blank_around. Qed.

(** ** The length of an array that is not empty is not zero *)

Section ArrayLength.

Import JSNumber.
Local Open Scope Z_scope.

Lemma round_half_even_ge (num den : Z) : num / den <= round_half_even num den.
Proof.
  unfold round_half_even.
  destruct (2 * (num mod den) <? den); [lia|].
  destruct (den <? 2 * (num mod den)); [lia|].
  destruct (Z.even (num / den)); lia.
Qed.

Lemma round_integer_nonzero (neg : bool) (n : positive) :
  isZero (round_ratio neg n 1) = false.
Proof.
  unfold round_ratio.
  assert (Ht : log2_ratio n 1 = Z.log2 (Zpos n)).
  { unfold log2_ratio. change (Z.log2 1) with 0. rewrite Z.sub_0_r.
    pose proof (Z.log2_nonneg (Zpos n)) as H0.
    destruct (Z.leb_spec 0 (Z.log2 (Zpos n))); [|lia].
    pose proof (Z.log2_spec (Zpos n) ltac:(lia)) as [Hlo _].
    destruct (Z.leb_spec (1 * 2 ^ Z.log2 (Zpos n)) (Zpos n)); [reflexivity|lia]. }
  rewrite Ht. set (t := Z.log2 (Zpos n)).
  pose proof (Z.log2_nonneg (Zpos n)) as H0. fold t in H0.
  pose proof (Z.log2_spec (Zpos n) ltac:(lia)) as [Hlo _]. fold t in Hlo.
  rewrite Z.max_l by lia.
  set (q := if 0 <=? t - 52 then _ else _).
  assert (Hq : 0 < q).
  { subst q. destruct (Z.leb_spec 0 (t - 52)).
    - eapply Z.lt_le_trans; [|apply round_half_even_ge].
      apply Z.div_str_pos. split; [lia|].
      rewrite Z.mul_1_l. etransitivity; [|exact Hlo].
      apply Z.pow_le_mono_r; lia.
    - eapply Z.lt_le_trans; [|apply round_half_even_ge].
      rewrite Z.div_1_r. assert (0 < 2 ^ (- (t - 52))) by (apply Z.pow_pos_nonneg; lia). lia. }
  destruct (q =? 2 ^ 53).
  - cbv beta iota zeta. change (2 ^ 52) with 4503599627370496.
    now destruct (971 <? t - 52 + 1).
  - destruct q as [|m|m]; try lia. now destruct (971 <? t - 52).
Qed.

Lemma of_N_nonzero (n : N) : n <> 0%N -> isZero (of_N n) = false.
Proof.
  intros Hn. destruct n as [|p]; [contradiction|].
  unfold of_N, of_decimal. cbn [Z.leb Z.compare Z.pow Z.to_pos].
  change (Z.to_pos (10 ^ 0)) with 1%positive.
  rewrite Pos.mul_1_r. apply round_integer_nonzero.
Qed.

End ArrayLength.

(** ** The loop of [modifyChunk] and the lines it skips *)

Lemma forDataStrs_nonEmpty (dataStrs : list jsstr) (f : Frame.t) :
  forDataStrs (filter nonEmpty dataStrs) f = forDataStrs dataStrs f.
Proof.
  revert f; induction dataStrs as [|l rest IH]; intros f; [reflexivity|].
  destruct l as [|c l].
  - cbn [filter nonEmpty]. rewrite IH. reflexivity.
  - cbn [filter nonEmpty forDataStrs].
    destruct (negb (startsWith DATA_CHUNK_HEADER (c :: l))); [apply IH|].
    destruct (str_eqb _ DATA_CHUNK_TERMINATOR); [reflexivity|].
    unfold bind. destruct (tryCatch _ _ f) as [[u|e] f']; [apply IH|reflexivity].
Qed.

(** [modifyChunk] reads the lines of the chunk, the empty ones apart. *)
Lemma modifyChunk_linesOf (a b : Buffer) (console : list logEntry) :
  linesOf a = linesOf b -> modifyChunk a console = modifyChunk b console.
Proof.
  intros H. unfold modifyChunk.
  rewrite <- (forDataStrs_nonEmpty (dataStrsOf a)), <- (forDataStrs_nonEmpty (dataStrsOf b)).
  now rewrite !dataStrsOf_linesOf, H.
Qed.

(** Lines that do not start with the header, wherever they are. *)
Lemma forDataStrs_ignored (pre junk post : list jsstr) (f : Frame.t) :
  Forall (fun l => startsWith DATA_CHUNK_HEADER l = false) junk ->
  forDataStrs (pre ++ junk ++ post) f = forDataStrs (pre ++ post) f.
Proof.
  intros Hj. revert f; induction pre as [|l pre IH]; intros f.
  - cbn [app]. induction Hj as [|l junk Hl _ IHj]; [reflexivity|].
    cbn [app forDataStrs]. rewrite Hl. exact IHj.
  - cbn [app forDataStrs].
    destruct (negb (startsWith DATA_CHUNK_HEADER l)); [apply IH|].
    destruct (str_eqb _ DATA_CHUNK_TERMINATOR); [reflexivity|].
    unfold bind. destruct (tryCatch _ _ f) as [[u|e] f']; [apply IH|reflexivity].
Qed.

Lemma Forall_filter {A : Type} (P : A -> Prop) (keep : A -> bool) (l : list A) :
  Forall P l -> Forall P (filter keep l).
Proof.
  induction 1 as [|x l Hx _ IH]; [constructor|].
  cbn [filter]. destruct (keep x); [now constructor|exact IH].
Qed.

(** ** The lines of a text with carriage returns *)

Lemma split_go_crlf (s : jsstr) :
  forall cur,
  List.map trim (split_go [LF] (crlf s) 0 cur) = List.map trim (split_go [LF] s 0 cur).
Proof.
  induction s as [|c s IH]; intros cur; [reflexivity|].
  unfold crlf in *. cbn [flat_map]. destruct (N.eqb_spec c LF) as [->|Hc].
  - cbn [app]. rewrite !split_go_LF.
    change (N.eqb LF CR) with false. change (N.eqb LF LF) with true.
    cbn [List.map rev]. rewrite IH. f_equal.
    apply trim_blank_r. reflexivity.
  - cbn [app]. rewrite !split_go_LF.
    destruct (N.eqb_spec LF c) as [E|_]; [now subst c|]. apply IH.
Qed.

Lemma linesOf_crlf (s : jsstr) : linesOf (crlf s) = linesOf s.
Proof. unfold linesOf, split. now rewrite split_go_crlf. Qed.

(** ** Records and their encoding *)

Lemma JSON_stringify_inj (a b : StreamData) :
  JSON_stringify a = JSON_stringify b -> a = b.
Proof.
  intros H. pose proof (JSON_parse_stringify a) as Ha. rewrite H in Ha.
  rewrite JSON_parse_stringify in Ha. destruct a, b. unfold jsonOfRecord in Ha.
  cbn [data finished] in Ha. now injection Ha as -> ->.
Qed.

Lemma encode_inj (a b : StreamData) : encode a = encode b -> a = b.
Proof. unfold encode. intros H. apply app_inv_tail in H. now apply JSON_stringify_inj. Qed.

(** What [modifyChunk] returns tells the record of the chunk. *)
Lemma modifyChunk_recordOf (chunk : Buffer) (console console' : list logEntry)
  (streamData : StreamData) :
  modifyChunk chunk console =
    (Normal (JSON_stringify streamData ++ JSON_LINE_SEPARATOR), console') ->
  recordOf chunk = Normal streamData
  /\ console' = console ++ errorsLogged (dataStrsOf chunk).
Proof.
  rewrite modifyChunk_spec. fold (encode streamData). intros H.
  apply pair_equal_spec in H as [H1 H2]. split; [|now symmetry].
  destruct (recordOf chunk) as [sd|e]; [|discriminate].
  f_equal. apply encode_inj. congruence.
Qed.

Lemma joinedText_app (a b : list json) (x y : jsstr) :
  joinedText a = Normal x -> joinedText b = Normal y ->
  joinedText (a ++ b) = Normal (x ++ y).
Proof.
  revert x; induction a as [|c a IH]; intros x Ha Hb.
  - cbn in Ha. injection Ha as <-. exact Hb.
  - cbn [app joinedText] in *. destruct (fragmentText c) as [t|e]; [|discriminate].
    destruct (joinedText a) as [x'|e]; [|discriminate]. injection Ha as <-.
    rewrite (IH x' eq_refl Hb). now rewrite app_assoc.
Qed.

(** The contributions of the lines depend on the lines that are not
    empty. *)
Lemma classify_nil : classify [] = Ignored.
Proof. reflexivity. Qed.

Lemma beforeTerminator_nonEmpty (dataStrs : list jsstr) :
  beforeTerminator (filter nonEmpty dataStrs) = filter nonEmpty (beforeTerminator dataStrs).
Proof.
  induction dataStrs as [|l rest IH]; [reflexivity|].
  destruct l as [|c l].
  - cbn [filter nonEmpty beforeTerminator]. rewrite classify_nil.
    cbn [filter nonEmpty]. exact IH.
  - cbn [filter nonEmpty beforeTerminator].
    destruct (classify (c :: l)); cbn [filter nonEmpty]; now rewrite ?IH.
Qed.

Lemma contributions_nonEmpty (dataStrs : list jsstr) :
  fragments (filter nonEmpty dataStrs) = fragments dataStrs
  /\ stopSignaled (filter nonEmpty dataStrs) = stopSignaled dataStrs
  /\ errorsLogged (filter nonEmpty dataStrs) = errorsLogged dataStrs.
Proof.
  unfold fragments, stopSignaled, errorsLogged. rewrite beforeTerminator_nonEmpty.
  induction (beforeTerminator dataStrs) as [|l rest (IH1 & IH2 & IH3)]; [now repeat split|].
  destruct l as [|c l]; cbn [filter nonEmpty flat_map existsb].
  - now repeat split.
  - rewrite IH1, IH2, IH3. now repeat split.
Qed.

Lemma terminated_nonEmpty (dataStrs : list jsstr) :
  terminated (filter nonEmpty dataStrs) = terminated dataStrs.
Proof.
  unfold terminated. induction dataStrs as [|l rest IH]; [reflexivity|].
  destruct l as [|c l]; cbn [filter nonEmpty existsb]; now rewrite IH.
Qed.

Lemma startsWith_split (p s : jsstr) :
  startsWith p s = true -> s = p ++ skipn (List.length p) s.
Proof.
  revert s; induction p as [|x p IH]; intros s H; [reflexivity|].
  destruct s as [|y s]; [discriminate|]. cbn [startsWith] in H.
  apply andb_true_iff in H as [Hx Hp]. apply N.eqb_eq in Hx. subst y.
  cbn [app List.length skipn]. f_equal. now apply IH.
Qed.

(** The terminator line is the header followed by the terminator. *)
Lemma classify_Terminator (dataStr : jsstr) :
  classify dataStr = Terminator <-> dataStr = DATA_CHUNK_HEADER ++ DATA_CHUNK_TERMINATOR.
Proof.
  unfold classify. split.
  - destruct (startsWith DATA_CHUNK_HEADER dataStr) eqn:Hh; [|discriminate].
    destruct (str_eqb (slice 6 dataStr) DATA_CHUNK_TERMINATOR) eqn:Ht; [|discriminate].
    intros _. apply str_eqb_eq in Ht. apply startsWith_split in Hh.
    change (List.length DATA_CHUNK_HEADER) with 6%nat in Hh. unfold slice in Ht.
    now rewrite Ht in Hh.
  - intros ->. reflexivity.
Qed.

Lemma terminated_In (dataStrs : list jsstr) :
  terminated dataStrs = true <->
  In (DATA_CHUNK_HEADER ++ DATA_CHUNK_TERMINATOR) dataStrs.
Proof.
  unfold terminated. rewrite existsb_exists. split.
  - intros (l & Hin & Hl). destruct (classify l) eqn:E; try discriminate.
    apply classify_Terminator in E. now subst.
  - intros H. exists (DATA_CHUNK_HEADER ++ DATA_CHUNK_TERMINATOR). now split.
Qed.

Lemma modifyChunk_lines_eq (a b : Buffer) (console : list logEntry) :
  (forall f, forDataStrs (linesOf a) f = forDataStrs (linesOf b) f) ->
  modifyChunk a console = modifyChunk b console.
Proof.
  intros H. unfold modifyChunk.
  rewrite <- (forDataStrs_nonEmpty (dataStrsOf a)), <- (forDataStrs_nonEmpty (dataStrsOf b)).
  now rewrite !dataStrsOf_linesOf, H.
Qed.

Lemma contributions_app (x y : list jsstr) :
  terminated x = false ->
  fragments (x ++ y) = fragments x ++ fragments y
  /\ stopSignaled (x ++ y) = stopSignaled x || stopSignaled y
  /\ errorsLogged (x ++ y) = errorsLogged x ++ errorsLogged y.
Proof.
  intros H. unfold fragments, stopSignaled, errorsLogged.
  rewrite beforeTerminator_app, H. apply terminated_false in H. rewrite H.
  now rewrite !flat_map_app, existsb_app.
Qed.

(** A line that carries a payload which is JSON. *)
Lemma forDataStrs_payload (payload : jsstr) (parsed : json) (rest : list jsstr)
  (f : Frame.t) :
  JSON_parse payload = Normal parsed ->
  forDataStrs ((DATA_CHUNK_HEADER ++ payload) :: rest) f =
  bind (tryCatch (tryBlock payload) (fun err => modify (Frame.consoleError err)))
       (fun _ => forDataStrs rest) f.
Proof.
  intros Hp. cbn [forDataStrs].
  change (startsWith DATA_CHUNK_HEADER (DATA_CHUNK_HEADER ++ payload)) with true.
  change (slice (List.length DATA_CHUNK_HEADER) (DATA_CHUNK_HEADER ++ payload)) with payload.
  cbn [negb]. destruct (str_eqb payload DATA_CHUNK_TERMINATOR) eqn:Ht; [|reflexivity].
  apply str_eqb_eq in Ht. subst payload. discriminate Hp.
Qed.

Lemma forDataStrs_prefix (pre rest rest' : list jsstr) :
  (forall f, forDataStrs rest f = forDataStrs rest' f) ->
  forall f, forDataStrs (pre ++ rest) f = forDataStrs (pre ++ rest') f.
Proof.
  intros H. induction pre as [|l pre IH]; intros f; [apply H|].
  cbn [app forDataStrs].
  destruct (negb (startsWith DATA_CHUNK_HEADER l)); [apply IH|].
  destruct (str_eqb _ DATA_CHUNK_TERMINATOR); [reflexivity|].
  unfold bind. destruct (tryCatch _ _ f) as [[u|e] f']; [apply IH|reflexivity].
Qed.

(** Only the first element of [choices] is read. *)
Lemma decodeFrame_first (payload : jsstr) (members : list (jsstr * json))
  (first : json) (others : list json) :
  JSON_parse payload = Normal (JObject members) ->
  lookup (js "choices") members = Some (JArray (first :: others)) ->
  decodeFrame payload =
  match RequireObjectCoercible (Some first) with
  | Throw e => Throw e
  | Normal first =>
      match RequireObjectCoercible (Get first K_delta) with
      | Throw e => Throw e
      | Normal delta => Normal (Get delta K_content, Get first K_finish_reason)
      end
  end.
Proof.
  intros Hp Hc. unfold decodeFrame. rewrite Hp. cbn [RequireObjectCoercible Get].
  change (key_name K_choices) with (js "choices"). rewrite Hc.
  cbn [RequireObjectCoercible Get nth_error strictEqualsZero List.length].
  now rewrite of_N_nonzero by lia.
Qed.

(** The record and the log of two chunks joined by a line feed. *)
Lemma joined_chunks (ca cb : Buffer) (ra rb : StreamData) :
  recordOf ca = Normal ra -> recordOf cb = Normal rb ->
  ~ In (DATA_CHUNK_HEADER ++ DATA_CHUNK_TERMINATOR) (dataStrsOf ca) ->
  recordOf (ca ++ LF :: cb) =
    Normal {| data := data ra ++ data rb; finished := finished ra || finished rb |}
  /\ errorsLogged (dataStrsOf (ca ++ LF :: cb)) =
     errorsLogged (dataStrsOf ca) ++ errorsLogged (dataStrsOf cb).
Proof.
  intros Ha Hb Hterm.
  assert (Ht : terminated (filter nonEmpty (dataStrsOf ca)) = false).
  { rewrite terminated_nonEmpty. destruct (terminated (dataStrsOf ca)) eqn:E; [|reflexivity].
    apply terminated_In in E. contradiction. }
  destruct (contributions_nonEmpty (dataStrsOf (ca ++ LF :: cb))) as (F1 & F2 & F3).
  rewrite dataStrsOf_app in F1, F2, F3.
  destruct (contributions_app _ (filter nonEmpty (dataStrsOf cb)) Ht) as (G1 & G2 & G3).
  destruct (contributions_nonEmpty (dataStrsOf ca)) as (A1 & A2 & A3).
  destruct (contributions_nonEmpty (dataStrsOf cb)) as (B1 & B2 & B3).
  unfold recordOf, recordOfLines in *.
  rewrite <- F1, <- F2, <- F3, G1, G2, G3, A1, A2, A3, B1, B2, B3.
  destruct (joinedText (fragments (dataStrsOf ca))) as [x|e] eqn:Ex; [|discriminate].
  destruct (joinedText (fragments (dataStrsOf cb))) as [y|e] eqn:Ey; [|discriminate].
  injection Ha as <-. injection Hb as <-. cbn [data finished].
  now rewrite (joinedText_app _ _ x y Ex Ey).
Qed.

Lemma accumulate_app (x y : list StreamData) :
  accumulate (x ++ y) =
  accumulate x ++ (if existsb finished x then [] else accumulate y).
Proof.
  induction x as [|r x IH]; [reflexivity|].
  cbn [app accumulate existsb]. destruct (finished r); cbn [orb].
  - now rewrite !app_nil_r.
  - now rewrite IH, app_assoc.
Qed.

(** What the consumer makes of what the transform stage makes of chunks
    that have records free of the separator. *)
Lemma transformed_then_consumed (source : Readable) (records : list StreamData)
  (console : list logEntry) :
  List.map recordOf source = List.map Normal records ->
  Forall (fun r => includes JSON_LINE_SEPARATOR (data r) = false) records ->
  streamChatResponse
    (readableOf (fst (pipe source (new_ModifyChunkStream modifyChunk) console))) =
  Normal (accumulate records).
Proof.
  intros Hrec Hsep. rewrite pipe_modifyChunk by reflexivity.
  unfold streamChatResponse, readableOf.
  cbn [fst chunks failure pushed errored new_ModifyChunkStream app].
  rewrite (piped_records source records Hrec). cbn [fst snd].
  now apply forChunks_encoded_one_by_one.
Qed.

(** ** Arithmetic on doubles: what is exact, and how far rounding goes *)

Section Rounding.

Import JSNumber.
Local Open Scope Z_scope.

Lemma round_half_even_scale (c n d : Z) :
  0 < c -> 0 < d -> round_half_even (c * n) (c * d) = round_half_even n d.
Proof.
  intros Hc Hd. unfold round_half_even.
  rewrite Z.div_mul_cancel_l, Zmult_mod_distr_l by lia.
  replace (2 * (c * (n mod d))) with (c * (2 * (n mod d))) by lia.
  replace (c * (2 * (n mod d)) <? c * d) with (2 * (n mod d) <? d)
    by (destruct (Z.ltb_spec (2 * (n mod d)) d), (Z.ltb_spec (c * (2 * (n mod d))) (c * d));
        try reflexivity; nia).
  replace (c * d <? c * (2 * (n mod d))) with (d <? 2 * (n mod d))
    by (destruct (Z.ltb_spec d (2 * (n mod d))), (Z.ltb_spec (c * d) (c * (2 * (n mod d))));
        try reflexivity; nia).
  reflexivity.
Qed.

Lemma round_half_even_1 (n : Z) : round_half_even n 1 = n.
Proof.
  unfold round_half_even. rewrite Z.mod_1_r, Z.div_1_r. reflexivity.
Qed.

(** The result is within half a unit of the quotient. *)
Lemma round_half_even_near (n d : Z) :
  0 < d -> - d <= 2 * (round_half_even n d * d - n) <= d.
Proof.
  intros Hd. unfold round_half_even.
  pose proof (Z.div_mod n d ltac:(lia)) as E.
  pose proof (Z.mod_pos_bound n d Hd) as B.
  destruct (Z.ltb_spec (2 * (n mod d)) d); [nia|].
  destruct (Z.ltb_spec d (2 * (n mod d))); [nia|].
  destruct (Z.even (n / d)); nia.
Qed.

Lemma round_half_even_above (n d k : Z) :
  0 < d -> k * d <= n -> k <= round_half_even n d.
Proof.
  intros Hd H. unfold round_half_even.
  assert (k <= n / d) by (apply Z.div_le_lower_bound; lia).
  destruct (2 * (n mod d) <? d); [lia|].
  destruct (d <? 2 * (n mod d)); [lia|].
  destruct (Z.even (n / d)); lia.
Qed.

Lemma round_half_even_below (n d k : Z) :
  0 < d -> n <= k * d -> round_half_even n d <= k.
Proof.
  intros Hd H. unfold round_half_even.
  pose proof (Z.div_mod n d ltac:(lia)) as E.
  pose proof (Z.mod_pos_bound n d Hd) as B.
  assert (n / d <= k) by (apply Z.div_le_upper_bound; lia).
  destruct (Z.ltb_spec (2 * (n mod d)) d); [lia|].
  destruct (Z.ltb_spec d (2 * (n mod d))); [nia|].
  destruct (Z.even (n / d)); nia.
Qed.

(** Below the midpoint under [k], the result is below [k]. *)
Lemma round_half_even_lt (n d k : Z) :
  0 < d -> 2 * n < (2 * k - 1) * d -> round_half_even n d < k.
Proof.
  intros Hd H. pose proof (round_half_even_near n d Hd). nia.
Qed.

Lemma pow2_pos (k : Z) : 0 <= k -> 0 < 2 ^ k.
Proof. intros. apply Z.pow_pos_nonneg; lia. Qed.

Lemma round_dyadic_scale (neg : bool) (m e s : Z) :
  0 < m -> 0 <= s -> round_dyadic neg (m * 2 ^ s) (e - s) = round_dyadic neg m e.
Proof.
  intros Hm Hs. unfold round_dyadic.
  rewrite Z.log2_mul_pow2 by lia.
  replace (s + Z.log2 m + (e - s)) with (Z.log2 m + e) by lia.
  set (p := Z.max (Z.log2 m + e - 52) (-1074)).
  replace (round_half_even (m * 2 ^ s * 2 ^ Z.max 0 (e - s - p)) (2 ^ Z.max 0 (p - (e - s))))
    with (round_half_even (m * 2 ^ Z.max 0 (e - p)) (2 ^ Z.max 0 (p - e))); [reflexivity|].
  destruct (Z.le_gt_cases p (e - s)) as [H|H].
  - replace (Z.max 0 (e - p)) with (e - p) by lia.
    replace (Z.max 0 (p - e)) with 0 by lia.
    replace (Z.max 0 (e - s - p)) with (e - s - p) by lia.
    replace (Z.max 0 (p - (e - s))) with 0 by lia.
    f_equal. rewrite <- Z.mul_assoc, <- Z.pow_add_r by lia. do 2 f_equal. lia.
  - destruct (Z.le_gt_cases p e) as [H'|H'].
    + replace (Z.max 0 (e - p)) with (e - p) by lia.
      replace (Z.max 0 (p - e)) with 0 by lia.
      replace (Z.max 0 (e - s - p)) with 0 by lia.
      replace (Z.max 0 (p - (e - s))) with (p - (e - s)) by lia.
      rewrite !Z.pow_0_r, Z.mul_1_r.
      replace (m * 2 ^ s) with (2 ^ (p - (e - s)) * (m * 2 ^ (e - p))).
      * pattern (2 ^ (p - (e - s))) at 2. rewrite <- (Z.mul_1_r (2 ^ (p - (e - s)))).
        rewrite round_half_even_scale; [reflexivity|apply pow2_pos; lia|lia].
      * rewrite Z.mul_comm, <- Z.mul_assoc, <- Z.pow_add_r by lia. do 2 f_equal. lia.
    + replace (Z.max 0 (e - p)) with 0 by lia.
      replace (Z.max 0 (p - e)) with (p - e) by lia.
      replace (Z.max 0 (e - s - p)) with 0 by lia.
      replace (Z.max 0 (p - (e - s))) with (p - (e - s)) by lia.
      rewrite !Z.pow_0_r, !Z.mul_1_r.
      replace (2 ^ (p - (e - s))) with (2 ^ s * 2 ^ (p - e))
        by (rewrite <- Z.pow_add_r by lia; f_equal; lia).
      rewrite (Z.mul_comm m). symmetry. apply round_half_even_scale; apply pow2_pos; lia.
Qed.

Lemma round_dyadic_normal (neg : bool) (m e : Z) :
  2 ^ 52 <= m < 2 ^ 53 -> -1074 <= e <= 971 ->
  round_dyadic neg m e = DFinite neg (Z.to_pos m) e.
Proof.
  intros Hm He. unfold round_dyadic.
  assert (Z.log2 m = 52) as -> by (apply Z.log2_unique; lia).
  replace (Z.max (52 + e - 52) (-1074)) with e by lia.
  rewrite Z.sub_diag. cbn [Z.max Z.compare]. rewrite Z.pow_0_r, Z.mul_1_r, round_half_even_1.
  destruct (Z.eqb_spec m (2 ^ 53)) as [E|_]; [lia|].
  destruct m as [|k|k]; try lia. cbn [Z.to_pos].
  destruct (Z.ltb_spec 971 e); [lia|reflexivity].
Qed.

Lemma round_dyadic_subnormal (neg : bool) (m : Z) :
  0 < m < 2 ^ 52 ->
  round_dyadic neg m (-1074) = DFinite neg (Z.to_pos m) (-1074).
Proof.
  intros Hm. unfold round_dyadic.
  assert (Z.log2 m < 52) by (apply Z.log2_lt_pow2; lia).
  replace (Z.max (Z.log2 m + -1074 - 52) (-1074)) with (-1074) by lia.
  rewrite Z.sub_diag. cbn [Z.max Z.compare]. rewrite Z.pow_0_r, Z.mul_1_r, round_half_even_1.
  destruct (Z.eqb_spec m (2 ^ 53)) as [E|_]; [lia|].
  destruct m as [|k|k]; try lia. reflexivity.
Qed.


Lemma round_dyadic_small (neg : bool) (a k : Z) :
  0 < a < 2 ^ 53 -> -1022 <= k <= 971 ->
  round_dyadic neg a k =
  DFinite neg (Z.to_pos (a * 2 ^ (52 - Z.log2 a))) (k - (52 - Z.log2 a)).
Proof.
  intros Ha Hk.
  pose proof (Z.log2_spec a ltac:(lia)) as [L1 L2].
  assert (0 <= Z.log2 a < 53) as L.
  { split; [apply Z.log2_nonneg|]. apply Z.log2_lt_pow2; lia. }
  rewrite <- (round_dyadic_scale neg a k (52 - Z.log2 a)) by lia.
  apply round_dyadic_normal; [|lia].
  replace (2 ^ 52) with (2 ^ Z.log2 a * 2 ^ (52 - Z.log2 a))
    by (rewrite <- Z.pow_add_r by lia; f_equal; lia).
  replace (2 ^ 53) with (2 ^ Z.succ (Z.log2 a) * 2 ^ (52 - Z.log2 a))
    by (rewrite <- Z.pow_add_r by lia; f_equal; lia).
  pose proof (pow2_pos (52 - Z.log2 a) ltac:(lia)). nia.
Qed.

Lemma ofInteger_pos (z : Z) : 0 < z -> ofInteger z = round_dyadic false z 0.
Proof. intros Hz. destruct z; try lia. reflexivity. Qed.

Lemma to_pos_scaled (a s : Z) : 0 < a -> 0 <= s -> Z.pos (Z.to_pos (a * 2 ^ s)) = a * 2 ^ s.
Proof. intros Ha Hs. apply Z2Pos.id. pose proof (pow2_pos s Hs). nia. Qed.

(** The sum of two integers below [2^53] is the double of their sum. *)
Lemma Number_add_integers (a b : Z) :
  0 <= a < 2 ^ 53 -> 0 <= b < 2 ^ 53 ->
  Number_add (Num (ofInteger a)) (Num (ofInteger b)) = Num (ofInteger (a + b)).
Proof.
  intros Ha Hb.
  destruct (Z.eq_dec a 0) as [->|Ha0]; [|destruct (Z.eq_dec b 0) as [->|Hb0]].
  - destruct (Z.eq_dec b 0) as [->|Hb0]; [reflexivity|].
    rewrite Z.add_0_l, (ofInteger_pos b), round_dyadic_small by lia. reflexivity.
  - rewrite Z.add_0_r, (ofInteger_pos a), round_dyadic_small by lia. reflexivity.
  - rewrite (ofInteger_pos a), (ofInteger_pos b), (ofInteger_pos (a + b)) by lia.
    rewrite !round_dyadic_small by lia.
    assert (0 <= Z.log2 a < 53) as La.
    { split; [apply Z.log2_nonneg|]. apply Z.log2_lt_pow2; lia. }
    assert (0 <= Z.log2 b < 53) as Lb.
    { split; [apply Z.log2_nonneg|]. apply Z.log2_lt_pow2; lia. }
    cbn [Number_add signed]. rewrite !to_pos_scaled by lia.
    set (e0 := Z.min (0 - (52 - Z.log2 a)) (0 - (52 - Z.log2 b))).
    replace (a * 2 ^ (52 - Z.log2 a) * 2 ^ (0 - (52 - Z.log2 a) - e0)
             + b * 2 ^ (52 - Z.log2 b) * 2 ^ (0 - (52 - Z.log2 b) - e0))
      with ((a + b) * 2 ^ (- e0)).
    + pose proof (pow2_pos (- e0) ltac:(lia)).
      unfold round_signed. destruct ((a + b) * 2 ^ (- e0)) eqn:E; try nia.
      rewrite <- E. replace e0 with (0 - - e0) at 2 by lia.
      apply f_equal, round_dyadic_scale; lia.
    + rewrite <- !Z.mul_assoc, <- !Z.pow_add_r by lia.
      replace (52 - Z.log2 a + (0 - (52 - Z.log2 a) - e0)) with (- e0) by lia.
      replace (52 - Z.log2 b + (0 - (52 - Z.log2 b) - e0)) with (- e0) by lia. lia.
Qed.

Lemma Math_pow2_normal (k : Z) :
  -1022 <= k <= 1023 -> Math_pow2 k = DFinite false (Z.to_pos (2 ^ 52)) (k - 52).
Proof.
  intros Hk. unfold Math_pow2.
  rewrite <- (round_dyadic_scale false 1 k 52) by lia.
  rewrite Z.mul_1_l. apply round_dyadic_normal; lia.
Qed.

(** The product of an integer below [2^53] and a power of two. *)
Lemma Number_multiply_pow2 (a k : Z) :
  0 <= a < 2 ^ 53 -> 0 <= k <= 1023 ->
  Number_multiply (Num (ofInteger a)) (Num (Math_pow2 k)) = Num (ofInteger (a * 2 ^ k)).
Proof.
  intros Ha Hk. rewrite Math_pow2_normal by lia.
  destruct (Z.eq_dec a 0) as [->|Ha0]; [reflexivity|].
  pose proof (pow2_pos k ltac:(lia)).
  rewrite (ofInteger_pos a), (ofInteger_pos (a * 2 ^ k)) by nia.
  rewrite round_dyadic_small by lia.
  assert (0 <= Z.log2 a < 53) as La.
  { split; [apply Z.log2_nonneg|]. apply Z.log2_lt_pow2; lia. }
  cbn [Number_multiply negative xorb]. rewrite to_pos_scaled by lia.
  rewrite Z2Pos.id by lia. f_equal.
  rewrite <- Z.mul_assoc, <- Z.pow_add_r by lia.
  replace (0 - (52 - Z.log2 a) + (k - 52)) with (k - (52 - Z.log2 a + 52)) by lia.
  rewrite round_dyadic_scale by lia.
  rewrite <- (round_dyadic_scale false a k k) by lia.
  now rewrite Z.sub_diag.
Qed.

(** The double of [a * 2^k], for [a] below [2^53], is that integer. *)
Lemma integerOf_ofInteger (a k : Z) :
  0 <= a < 2 ^ 53 -> 0 <= k <= 971 ->
  integerOf (Num (ofInteger (a * 2 ^ k))) = Some (a * 2 ^ k).
Proof.
  intros Ha Hk.
  destruct (Z.eq_dec a 0) as [->|Ha0]; [reflexivity|].
  pose proof (pow2_pos k ltac:(lia)).
  rewrite ofInteger_pos by nia.
  rewrite <- (Z.sub_diag k), round_dyadic_scale, round_dyadic_small by lia.
  assert (0 <= Z.log2 a < 53) as La.
  { split; [apply Z.log2_nonneg|]. apply Z.log2_lt_pow2; lia. }
  set (s := 52 - Z.log2 a). cbn [integerOf signed].
  rewrite to_pos_scaled by lia.
  destruct (Z.leb_spec 0 (k - s)) as [L|L].
  - f_equal. rewrite <- Z.mul_assoc, <- Z.pow_add_r by lia. do 2 f_equal. lia.
  - replace (a * 2 ^ s) with (a * 2 ^ k * 2 ^ (- (k - s)))
      by (rewrite <- Z.mul_assoc, <- Z.pow_add_r by lia; do 2 f_equal; lia).
    pose proof (pow2_pos (- (k - s)) ltac:(lia)).
    rewrite Z.mod_mul, Z.div_mul by lia. reflexivity.
Qed.

Lemma integerOf_ofInteger_small (a : Z) :
  0 <= a < 2 ^ 53 -> integerOf (Num (ofInteger a)) = Some a.
Proof.
  intros Ha. pose proof (integerOf_ofInteger a 0 Ha ltac:(lia)) as H.
  now rewrite Z.pow_0_r, Z.mul_1_r in H.
Qed.


Lemma Math_floor_finite (q p : Z) :
  0 < q -> p <= 0 -> (p = 0 -> 2 ^ 52 <= q < 2 ^ 53) ->
  Math_floor (Num (DFinite false (Z.to_pos q) p)) = Num (ofInteger (q / 2 ^ (- p))).
Proof.
  intros Hq Hp H0. cbn [Math_floor signed]. rewrite Z2Pos.id by lia.
  destruct (Z.leb_spec 0 p) as [L|L].
  - assert (p = 0) as -> by lia. cbn [Z.opp]. rewrite Z.pow_0_r, Z.div_1_r.
    rewrite ofInteger_pos by lia. now rewrite round_dyadic_normal by lia.
  - destruct (q / 2 ^ (- p)); reflexivity.
Qed.

(** The integer part of a rounded dyadic [n * 2^e] known to lie under an
    integer [M]: it is an integer of [0, M), at least the integer part of
    the exact value and above it by at most one part in [2^53]. *)
Lemma Math_floor_round_dyadic (n e M : Z) :
  0 < n -> -1074 <= e < 0 -> 0 < M < 2 ^ 53 ->
  n + M <= M * 2 ^ (- e) -> n < 2 ^ 53 * M ->
  exists j : Z,
    Math_floor (Num (round_dyadic false n e)) = Num (ofInteger j)
    /\ n / 2 ^ (- e) <= j < M
    /\ 2 ^ 53 * (j * 2 ^ (- e)) <= (2 ^ 53 + 1) * n.
Proof.
  intros Hn He HM Hlow Hmant.
  pose proof (Z.log2_spec n Hn) as [L1 L2].
  pose proof (Z.log2_nonneg n) as L0.
  pose proof (pow2_pos (- e) ltac:(lia)) as Hd.
  assert (Z.log2 n + e <= 52) as Ht.
  { assert (Z.log2 n < 53 - e); [|lia].
    apply Z.log2_lt_pow2; [lia|].
    replace (53 - e) with (53 + - e) by lia. rewrite Z.pow_add_r by lia. nia. }
  unfold round_dyadic.
  set (p := Z.max (Z.log2 n + e - 52) (-1074)).
  assert (p <= 0) as Hp by lia.
  destruct (Z.le_gt_cases p e) as [Hpe|Hpe].
  - replace (Z.max 0 (e - p)) with (e - p) by lia.
    replace (Z.max 0 (p - e)) with 0 by lia.
    rewrite Z.pow_0_r, round_half_even_1.
    pose proof (pow2_pos (e - p) ltac:(lia)) as Hc.
    assert (n * 2 ^ (e - p) < 2 ^ 53) as Hq.
    { apply Z.log2_lt_pow2; [nia|]. rewrite Z.log2_mul_pow2 by lia. lia. }
    destruct (Z.eqb_spec (n * 2 ^ (e - p)) (2 ^ 53)) as [E|_]; [lia|].
    destruct (n * 2 ^ (e - p)) as [|k|k] eqn:E; try nia.
    destruct (Z.ltb_spec 971 p); [lia|].
    change k with (Z.to_pos (Z.pos k)). rewrite Math_floor_finite by lia.
    rewrite <- E.
    replace (2 ^ (- p)) with (2 ^ (- e) * 2 ^ (e - p))
      by (rewrite <- Z.pow_add_r by lia; f_equal; lia).
    rewrite Z.div_mul_cancel_r by lia.
    exists (n / 2 ^ (- e)). split; [reflexivity|]. split; [split; [lia|]|].
    + apply Z.div_lt_upper_bound; lia.
    + pose proof (Z.mul_div_le n (2 ^ (- e)) Hd). nia.
  - assert (p = Z.log2 n + e - 52) as Ep by lia.
    replace (Z.max 0 (e - p)) with 0 by lia.
    replace (Z.max 0 (p - e)) with (p - e) by lia.
    rewrite Z.pow_0_r, Z.mul_1_r.
    set (D := p - e). assert (0 < D) as HD by lia.
    pose proof (pow2_pos D ltac:(lia)) as HpD.
    pose proof (pow2_pos (- p) ltac:(lia)) as HP.
    assert (2 ^ 52 * 2 ^ D = 2 ^ Z.log2 n) as E52
      by (rewrite <- Z.pow_add_r by lia; f_equal; lia).
    assert (2 ^ 53 * 2 ^ D = 2 ^ Z.succ (Z.log2 n)) as E53
      by (rewrite <- Z.pow_add_r by lia; f_equal; lia).
    assert (2 ^ (- p) * 2 ^ D = 2 ^ (- e)) as Ed
      by (rewrite <- Z.pow_add_r by lia; f_equal; lia).
    set (q := round_half_even n (2 ^ D)).
    assert (2 ^ 52 <= q) as Q1 by (apply round_half_even_above; lia).
    assert (q <= 2 ^ 53) as Q2 by (apply round_half_even_below; lia).
    pose proof (round_half_even_near n (2 ^ D) HpD) as Qn. fold q in Qn.
    assert (q < M * 2 ^ (- p)) as Q3.
    { apply round_half_even_lt; [lia|]. nia. }
    assert (n / 2 ^ (- e) * 2 ^ (- p) <= q) as Q4.
    { apply round_half_even_above; [lia|].
      pose proof (Z.mul_div_le n (2 ^ (- e)) Hd). nia. }
    assert (exists j, j = q / 2 ^ (- p)
            /\ Math_floor
                 (Num (let '(q0, p0) := if q =? 2 ^ 53 then (2 ^ 52, p + 1) else (q, p) in
                       match q0 with
                       | Z.pos k => if 971 <? p0 then DInfinity false else DFinite false k p0
                       | _ => DZero false
                       end)) = Num (ofInteger j)) as (j & Ej & ->).
    { exists (q / 2 ^ (- p)). split; [reflexivity|].
      destruct (Z.eqb_spec q (2 ^ 53)) as [E|E].
      - assert (p < 0) as Hp'.
        { destruct (Z.eq_dec p 0) as [E0|]; [|lia].
          replace (- p) with 0 in Q3 by lia. rewrite Z.pow_0_r in Q3. lia. }
        change (2 ^ 52) with (Z.pos (Z.to_pos (2 ^ 52))).
        destruct (Z.ltb_spec 971 (p + 1)); [lia|].
        rewrite Math_floor_finite by lia.
        rewrite E. do 2 f_equal.
        replace (2 ^ (- p)) with (2 ^ (- (p + 1)) * 2)
          by (replace (- p) with (- (p + 1) + 1) by lia; now rewrite Z.pow_add_r by lia).
        change (2 ^ 53) with (2 ^ 52 * 2).
        rewrite Z.div_mul_cancel_r; [reflexivity| |lia].
        pose proof (pow2_pos (- (p + 1)) ltac:(lia)). lia.
      - destruct q as [|k|k] eqn:Eq; try lia.
        destruct (Z.ltb_spec 971 p); [lia|].
        change k with (Z.to_pos (Z.pos k)). rewrite Math_floor_finite by lia.
        reflexivity. }
    exists j. split; [reflexivity|]. subst j.
    pose proof (Z.mul_div_le q (2 ^ (- p)) HP) as Qd.
    split; [split|].
    + apply Z.div_le_lower_bound; lia.
    + apply Z.div_lt_upper_bound; lia.
    + nia.
Qed.

End Rounding.

Section Jitter.

Import JSNumber.
Local Open Scope Z_scope.

Lemma Qpower2_neg (e : Z) : e < 0 -> (2 ^ e == 1 # Z.to_pos (2 ^ (- e)))%Q.
Proof.
  intros He. pose proof (pow2_pos (- e) ltac:(lia)) as Hd.
  replace e with (- - e) at 1 by lia. rewrite Qpower_opp.
  change (2%Q) with (inject_Z 2). rewrite <- Zpower_Qpower by lia.
  destruct (2 ^ (- e)) as [|P|P]; try lia. reflexivity.
Qed.

Lemma valueOf_scaled (m : positive) (e : Z) :
  e < 0 -> (valueOf (DFinite false m e) == Z.pos m # Z.to_pos (2 ^ (- e)))%Q.
Proof.
  intros He. unfold valueOf. rewrite Qpower2_neg by exact He.
  cbn [signed]. unfold Qeq, Qmult, inject_Z. cbn [Qnum Qden]. lia.
Qed.

(** The jitter of a draw of [0, 1), for a bound below [2^53]: an integer of
    [0, maxJitterMS), which is the integer part of the exact product
    unless the product rounds up to the next integer. *)
Lemma jitterOf_unitDraw (u : double) (maxJitterMS : Z) :
  unitDraw u = true -> 0 < maxJitterMS < 2 ^ 53 ->
  exists j : Z,
    jitterOf u maxJitterMS = Num (ofInteger j)
    /\ 0 <= j < maxJitterMS
    /\ Qfloor (valueOf u * inject_Z maxJitterMS) <= j
    /\ (inject_Z j <= valueOf u * inject_Z maxJitterMS * (1 + 2 ^ (-53)))%Q.
Proof.
  intros Hu HM. unfold jitterOf.
  rewrite (ofInteger_pos maxJitterMS), round_dyadic_small by lia.
  assert (0 <= Z.log2 maxJitterMS < 53) as LM.
  { split; [apply Z.log2_nonneg|]. apply Z.log2_lt_pow2; lia. }
  destruct u as [neg|neg m e|neg]; cbn [unitDraw] in Hu; [| |discriminate].
  - destruct neg; [discriminate|]. exists 0. split; [reflexivity|].
    split; [lia|]. cbn [valueOf]. rewrite Qmult_0_l. split; [reflexivity|].
    rewrite Qmult_0_l. apply Qle_refl.
  - destruct neg; [discriminate|]. cbn [negb andb] in Hu.
    apply andb_prop in Hu as [Hu H5]. apply andb_prop in Hu as [Hu H4].
    apply andb_prop in Hu as [Hu H3]. apply andb_prop in Hu as [H1 H2].
    apply Z.ltb_lt in H1, H3, H5. apply Z.leb_le in H2.
    pose proof (pow2_pos (- e) ltac:(lia)) as Hd.
    cbn [Number_multiply negative xorb].
    rewrite to_pos_scaled by lia.
    rewrite Z.mul_assoc.
    replace (e + (0 - (52 - Z.log2 maxJitterMS)))
      with (e - (52 - Z.log2 maxJitterMS)) by lia.
    rewrite round_dyadic_scale by lia.
    destruct (Math_floor_round_dyadic (Z.pos m * maxJitterMS) e maxJitterMS)
      as (j & Ej & Hj & Hnear); try lia; try nia.
    exists j. split; [exact Ej|]. 
    assert (0 <= Z.pos m * maxJitterMS / 2 ^ (- e)) by (apply Z.div_pos; lia).
    split; [lia|].
    assert (valueOf (DFinite false m e) * inject_Z maxJitterMS
            == Z.pos m * maxJitterMS # Z.to_pos (2 ^ (- e)))%Q as EQ.
    { rewrite valueOf_scaled by lia. unfold Qeq, Qmult, inject_Z. cbn [Qnum Qden]. lia. }
    rewrite EQ. split.
    + cbn [Qfloor]. rewrite Z2Pos.id by lia. lia.
    + change (1 + 2 ^ (-53))%Q with (9007199254740993 # 9007199254740992)%Q.
      unfold Qle, Qmult, inject_Z. cbn [Qnum Qden].
      rewrite Pos2Z.inj_mul, Z2Pos.id by lia.
      change (2 ^ 53) with 9007199254740992 in Hnear. cbn [Z.add Pos.add] in Hnear.
      lia.
Qed.

Lemma jitterOf_zero (u : double) :
  unitDraw u = true -> jitterOf u 0 = Num (ofInteger 0).
Proof.
  destruct u as [neg|neg m e|neg]; cbn [unitDraw]; try discriminate.
  - now destruct neg.
  - now destruct neg.
Qed.

End Jitter.

Section Delays.

Local Open Scope Z_scope.

Variables initialRetryDelayMS maxJitterMS : Z.
Hypothesis initial_nonneg : 0 <= initialRetryDelayMS.
Hypothesis jitter_nonneg : 0 <= maxJitterMS.
Hypothesis safe : initialRetryDelayMS + maxJitterMS < 2 ^ 53.

(** With parameters in the safe range, the delay is the integer the
    formula gives: no sum and no product is rounded. *)
Lemma retryDelay_exact (u : JSNumber.double) (retryCount : Z) :
  unitDraw u = true -> 0 <= retryCount <= 971 ->
  exists j : Z,
    jitterOf u maxJitterMS = Num (ofInteger j)
    /\ 0 <= j <= maxJitterMS /\ (0 < maxJitterMS -> j < maxJitterMS)
    /\ retryDelay initialRetryDelayMS (jitterOf u maxJitterMS) retryCount =
       Num (ofInteger ((initialRetryDelayMS + j) * 2 ^ retryCount))
    /\ integerOf (retryDelay initialRetryDelayMS (jitterOf u maxJitterMS) retryCount) =
       Some ((initialRetryDelayMS + j) * 2 ^ retryCount).
Proof.
  intros Hu Hk.
  assert (exists j, jitterOf u maxJitterMS = Num (ofInteger j)
                    /\ 0 <= j <= maxJitterMS /\ (0 < maxJitterMS -> j < maxJitterMS))
    as (j & Ej & Hj & Hj').
  { destruct (Z.eq_dec maxJitterMS 0) as [E|E].
    - exists 0. rewrite E. split; [now apply jitterOf_zero|lia].
    - destruct (jitterOf_unitDraw u maxJitterMS Hu ltac:(lia)) as (j & Ej & Hj & _).
      exists j. split; [exact Ej|lia]. }
  exists j. split; [exact Ej|]. split; [exact Hj|]. split; [exact Hj'|].
  assert (retryDelay initialRetryDelayMS (jitterOf u maxJitterMS) retryCount =
          Num (ofInteger ((initialRetryDelayMS + j) * 2 ^ retryCount))) as E.
  { unfold retryDelay. rewrite Ej, Number_add_integers by lia.
    apply Number_multiply_pow2; lia. }
  split; [exact E|]. rewrite E. apply integerOf_ofInteger; lia.
Qed.

(** The delays of the failed attempts of a run, as integers. *)
Lemma retriedFrom_delays (entropy : nat -> JSNumber.double) (errs : list jserror) :
  unitInterval entropy ->
  forall (drawn : nat) (retryCount : Z),
  0 <= retryCount -> retryCount + Z.of_nat (List.length errs) <= 972 ->
  exists delays : list Z,
    List.map integerOf
      (waits (retriedFrom initialRetryDelayMS maxJitterMS entropy drawn retryCount errs)) =
    List.map Some delays
    /\ List.length delays = List.length errs
    /\ forall (k : nat) (d : Z), nth_error delays k = Some d ->
         initialRetryDelayMS * 2 ^ (retryCount + Z.of_nat k) <= d
         /\ d <= (initialRetryDelayMS + maxJitterMS) * 2 ^ (retryCount + Z.of_nat k)
         /\ (0 < maxJitterMS ->
             d < (initialRetryDelayMS + maxJitterMS) * 2 ^ (retryCount + Z.of_nat k)).
Proof.
  intros Hent. induction errs as [|err errs IH]; intros drawn retryCount H0 Hlen.
  - exists []. split; [reflexivity|]. split; [reflexivity|].
    intros [|k] d Hd; discriminate.
  - cbn [List.length] in Hlen.
    destruct (IH (S drawn) (retryCount + 1) ltac:(lia) ltac:(lia))
      as (delays & Hw & Hl & Hb).
    destruct (retryDelay_exact (entropy drawn) retryCount (Hent drawn) ltac:(lia))
      as (j & _ & Hj & Hj' & _ & Ed).
    exists ((initialRetryDelayMS + j) * 2 ^ retryCount :: delays).
    cbn [retriedFrom]. rewrite waits_app. cbn [retried waits flat_map app List.map].
    fold (waits (retriedFrom initialRetryDelayMS maxJitterMS entropy (S drawn)
                   (retryCount + 1) errs)).
    rewrite Ed, Hw. split; [reflexivity|]. split; [cbn [List.length]; now rewrite Hl|].
    intros [|k] d Hd.
    + cbn in Hd. injection Hd as <-. rewrite Z.add_0_r.
      pose proof (Z.pow_pos_nonneg 2 retryCount ltac:(lia) H0). nia.
    + cbn [nth_error] in Hd. specialize (Hb k d Hd).
      replace (retryCount + Z.of_nat (S k)) with (retryCount + 1 + Z.of_nat k) by lia.
      exact Hb.
Qed.

End Delays.

(** ** The claims on the chunk transformer *)

(** C2, amended.  For every input chunk whose content fragments convert to
    strings (as they do when they are strings, which is what the type
    [MessageDelta] declares) the transform stage pushes exactly one output:
    the JSON text of one record followed by the separator.  When the chunk
    holds no content fragment and no stop reason the record is
    [{ data: "", finished: false }]; so it is for the chunk made of the
    terminator line only. *)
Theorem transform_pushes_one_record (chunk : Buffer) (streamData : StreamData)
  (already : list Buffer) (failed : option jserror) (console : list logEntry) :
  recordOf chunk = Normal streamData ->
  (exists console',
     _transform {| modifyFunction := modifyChunk; pushed := already; errored := failed |}
                chunk console =
     (Normal {| modifyFunction := modifyChunk;
                pushed := already ++ [JSON_stringify streamData ++ JSON_LINE_SEPARATOR];
                errored := failed |},
      console'))
  /\ (fragments (dataStrsOf chunk) = [] -> stopSignaled (dataStrsOf chunk) = false ->
      streamData = {| data := []; finished := false |})
  /\ modifyChunk (js "data: [DONE]") [] =
     (Normal (jq "{'data':'','finished':false}___BASILISK_JSON_LINE_SEPARATOR___"), []).
Proof.
  intros Hrec. split; [|split].
  - eexists. unfold _transform, bind, ret. cbn [modifyFunction pushed errored].
    rewrite modifyChunk_spec, Hrec. reflexivity.
  - intros Hf Hs. unfold recordOf, recordOfLines in Hrec. rewrite Hf, Hs in Hrec.
    cbn in Hrec. now injection Hrec.
  - vm_compute. reflexivity.
Qed.

Lemma transform_pushes_one_record_witness :
  recordOf Examples.chunkDone = Normal {| data := []; finished := false |}
  /\ fragments (dataStrsOf Examples.chunkDone) = []
  /\ stopSignaled (dataStrsOf Examples.chunkDone) = false
  /\ exists console',
       _transform {| modifyFunction := modifyChunk; pushed := []; errored := None |}
                  Examples.chunkDone [] =
       (Normal {| modifyFunction := modifyChunk;
                  pushed := [] ++ [JSON_stringify {| data := []; finished := false |}
                                   ++ JSON_LINE_SEPARATOR];
                  errored := None |},
        console').
Proof.
  split; [vm_compute; reflexivity|]. split; [vm_compute; reflexivity|].
  split; [vm_compute; reflexivity|].
  apply (transform_pushes_one_record Examples.chunkDone {| data := []; finished := false |}
           [] None []).
  vm_compute; reflexivity.
Defined.

(** C2 as stated fails: for a chunk whose content is an object with a
    property named [toString], [tokens.join] throws a TypeError outside the
    [try] block; [_transform] throws and nothing is pushed. *)
Lemma transform_pushes_one_record_counterexample :
  _transform (new_ModifyChunkStream modifyChunk) Examples.chunkObject [] =
    (Throw TypeError, [])
  /\ pushed (fst (pipe [Examples.chunkObject] (new_ModifyChunkStream modifyChunk) [])) = []
  /\ errored (fst (pipe [Examples.chunkObject] (new_ModifyChunkStream modifyChunk) []))
     = Some TypeError.
Proof. vm_compute. repeat split; reflexivity. Qed.



(** The output of the witness, in full: the fragments "lo" and "Hel" of the
    two lines before the terminator, and the stop flag of the first. *)
Example terminator_ends_chunk_output :
  modifyChunk Examples.chunkStopThenMore [] =
  (Normal (jq "{'data':'loHel','finished':true}___BASILISK_JSON_LINE_SEPARATOR___"), []).
Proof. vm_compute. reflexivity. Qed.

(** C6.  The record emitted for a chunk has for data the concatenation, in
    line order, of the content fragments of its lines (of the fragments
    themselves when they are strings), and is finished exactly when one of
    its lines signals the stop reason; the lines in question are those
    before the terminator line, if there is one.  A line that signals the
    stop reason does not end the scan: the fragments of the lines after it
    are still collected; a terminator line does end it. *)
Theorem record_of_chunk (chunk : Buffer) (console : list logEntry) :
  modifyChunk chunk console =
    (match joinedText (fragments (dataStrsOf chunk)) with
     | Normal joined =>
         Normal (JSON_stringify {| data := joined;
                                   finished := stopSignaled (dataStrsOf chunk) |}
                 ++ JSON_LINE_SEPARATOR)
     | Throw e => Throw e
     end,
     console ++ errorsLogged (dataStrsOf chunk))
  /\ (forallb isString (fragments (dataStrsOf chunk)) = true ->
      joinedText (fragments (dataStrsOf chunk)) =
      Normal (List.concat (List.map stringOf (fragments (dataStrsOf chunk)))))
  /\ (stopSignaled (dataStrsOf chunk) = true <->
      exists line, In line (beforeTerminator (dataStrsOf chunk)) /\ lineStops line = true)
  /\ (forall pre line post,
        dataStrsOf chunk = pre ++ line :: post ->
        beforeTerminator pre = pre -> lineStops line = true ->
        fragments (dataStrsOf chunk) = fragments pre ++ lineFragment line ++ fragments post)
  /\ (forall pre line post,
        dataStrsOf chunk = pre ++ line :: post ->
        classify line = Terminator ->
        fragments (dataStrsOf chunk) = fragments pre
        /\ stopSignaled (dataStrsOf chunk) = stopSignaled pre).
Proof.
  split; [|split; [|split; [|split]]].
  - rewrite modifyChunk_spec. unfold recordOf, recordOfLines, encode.
    now destruct (joinedText (fragments (dataStrsOf chunk))).
  - apply joinedText_strings.
  - apply stopSignaled_iff.
  - intros pre line post -> Hpre Hs. now apply fragments_through_stop.
  - intros pre line post E Ht. rewrite E.
    unfold fragments, stopSignaled.
    rewrite beforeTerminator_app. cbn [beforeTerminator]. rewrite Ht.
    destruct (terminated pre) eqn:Hp; [now split|].
    apply terminated_false in Hp. now rewrite app_nil_r, Hp.
Qed.

Lemma record_of_chunk_witness :
  joinedText (fragments (dataStrsOf Examples.chunkStopThenMore)) =
    Normal (List.concat (List.map stringOf (fragments (dataStrsOf Examples.chunkStopThenMore))))
  /\ fragments (dataStrsOf Examples.chunkStopThenMore) =
     fragments [] ++ lineFragment Examples.chunkLo
     ++ fragments [Examples.chunkHel; Examples.chunkDone; Examples.chunkHel]
  /\ fragments (dataStrsOf Examples.chunkStopThenMore) =
     fragments [Examples.chunkLo; Examples.chunkHel]
  /\ stopSignaled (dataStrsOf Examples.chunkStopThenMore) =
     stopSignaled [Examples.chunkLo; Examples.chunkHel].
Proof.
  destruct (record_of_chunk Examples.chunkStopThenMore []) as (_ & H2 & _ & H4 & H5).
  split; [apply H2; vm_compute; reflexivity|]. split.
  - apply (H4 [] Examples.chunkLo [Examples.chunkHel; Examples.chunkDone; Examples.chunkHel]);
      vm_compute; reflexivity.
  - apply (H5 [Examples.chunkLo; Examples.chunkHel] Examples.chunkDone [Examples.chunkHel]);
      vm_compute; reflexivity.
Defined.

(** C7, amended.  For every input chunk whose content fragments convert to
    strings (as they do when they are strings) the chunk transformer does
    not raise, and a stream of such chunks goes through the transform stage
    without an error, one output for each chunk.  A line whose payload is
    not JSON or cannot be read as a frame (a payload whose [choices] is an
    empty array is such a line) is logged and contributes nothing, the other
    lines of the chunk being processed as usual.  In particular a chunk of
    three lines, the second invalid and the others carrying the strings [a]
    and [b], gives the data [a ++ b]. *)
Theorem transformer_never_raises (chunk : Buffer) (streamData : StreamData)
  (console : list logEntry) :
  recordOf chunk = Normal streamData ->
  (exists console', modifyChunk chunk console = (Normal (encode streamData), console'))
  /\ (forall source records,
        List.map recordOf source = List.map Normal records ->
        exists piped console',
          pipe source (new_ModifyChunkStream modifyChunk) console = (piped, console')
          /\ pushed piped = List.map encode records /\ errored piped = None)
  /\ (forall pre bad post e,
        dataStrsOf chunk = pre ++ bad :: post -> lineError bad = [LogError e] ->
        recordOfLines (pre ++ post) = Normal streamData)
  /\ (forall payload members,
        JSON_parse payload = Normal (JObject members) ->
        lookup (js "choices") members = Some (JArray []) ->
        lineError (DATA_CHUNK_HEADER ++ payload) =
        [LogError (Error (js "No choices returned from API"))])
  /\ (forall l1 bad l2 a b e,
        dataStrsOf chunk = [l1; bad; l2] ->
        lineFragment l1 = [JString a] -> lineFragment l2 = [JString b] ->
        lineError bad = [LogError e] ->
        data streamData = a ++ b).
Proof.
  intros Hrec. split; [|split; [|split; [|split]]].
  - eexists. now rewrite modifyChunk_spec, Hrec.
  - intros source records H. eexists _, _.
    rewrite pipe_modifyChunk by reflexivity. split; [reflexivity|].
    cbn [pushed errored new_ModifyChunkStream app].
    rewrite (piped_records source records H). now split.
  - intros pre bad post e E Hbad. unfold recordOf in Hrec. rewrite E in Hrec.
    now rewrite (recordOfLines_skip pre post bad e Hbad) in Hrec.
  - intros payload members Hp Hc. unfold lineError, classify.
    change (startsWith DATA_CHUNK_HEADER (DATA_CHUNK_HEADER ++ payload)) with true.
    change (slice 6 (DATA_CHUNK_HEADER ++ payload)) with payload.
    destruct (str_eqb payload DATA_CHUNK_TERMINATOR) eqn:Ht.
    + apply str_eqb_eq in Ht. subst payload. discriminate Hp.
    + now rewrite (decodeFrame_empty_choices _ _ Hp Hc).
  - intros l1 bad l2 a b e E H1 H2 Hbad. unfold recordOf in Hrec. rewrite E in Hrec.
    change [l1; bad; l2] with ([l1] ++ bad :: [l2]) in Hrec.
    rewrite (recordOfLines_skip [l1] [l2] _ _ Hbad) in Hrec.
    assert (C1 : classify l1 <> Terminator)
      by (unfold lineFragment in H1; destruct (classify l1); discriminate).
    assert (C2 : classify l2 <> Terminator)
      by (unfold lineFragment in H2; destruct (classify l2); discriminate).
    unfold recordOfLines, fragments in Hrec. cbn [app] in Hrec.
    rewrite !beforeTerminator_cons in Hrec by assumption.
    cbn [beforeTerminator flat_map] in Hrec. rewrite H1, H2 in Hrec.
    cbn in Hrec. injection Hrec as <-. cbn [data]. now rewrite app_nil_r.
Qed.

Lemma transformer_never_raises_witness :
  recordOf Examples.chunkBroken = Normal {| data := js "Hello"; finished := false |}
  /\ (exists console',
        modifyChunk Examples.chunkBroken [] =
        (Normal (encode {| data := js "Hello"; finished := false |}), console'))
  /\ (exists piped console',
        pipe [Examples.chunkHel; Examples.chunkLo] (new_ModifyChunkStream modifyChunk) [] =
        (piped, console')
        /\ pushed piped = List.map encode [ {| data := js "Hel"; finished := false |};
                                            {| data := js "lo"; finished := true |} ]
        /\ errored piped = None)
  /\ lineError (DATA_CHUNK_HEADER ++ jq "{'choices':[]}") =
     [LogError (Error (js "No choices returned from API"))]
  /\ data {| data := js "Hello"; finished := false |} = js "Hel" ++ js "lo".
Proof.
  destruct (transformer_never_raises Examples.chunkBroken
              {| data := js "Hello"; finished := false |} [])
    as (H1 & H2 & _ & H4 & H5); [vm_compute; reflexivity|].
  split; [vm_compute; reflexivity|]. split; [exact H1|]. split; [|split].
  - apply H2. vm_compute; reflexivity.
  - apply (H4 (jq "{'choices':[]}") [(js "choices", JArray [])]); vm_compute; reflexivity.
  - apply (H5 Examples.chunkHel (jq "data: {'choices':[{'delta':")
              (jq "data: {'choices':[{'delta':{'content':'lo'},'finish_reason':null}]}")
              (js "Hel") (js "lo") SyntaxError); vm_compute; reflexivity.
Defined.

(** C7 as stated fails: for a chunk whose content is an object with a
    property named [toString] the line is read without an error, the value
    is pushed, and [tokens.join] then throws a TypeError that nothing
    catches. *)
Lemma transformer_never_raises_counterexample :
  lineError Examples.chunkObject = []
  /\ modifyChunk Examples.chunkObject [] = (Throw TypeError, []).
Proof. vm_compute. split; reflexivity. Qed.

Lemma decodeChunk_encode (streamData : StreamData) :
  includes JSON_LINE_SEPARATOR (data streamData) = false ->
  decodeChunk (encode streamData) = [Normal (jsonOfRecord streamData)].
Proof.
  intros H. unfold decodeChunk.
  pose proof (split_encoded [streamData] (Forall_cons _ H (Forall_nil _))) as E.
  cbn [List.map List.concat] in E. rewrite app_nil_r in E. rewrite E.
  cbn [List.map]. now rewrite JSON_parse_stringify.
Qed.

(** C10, amended.  For every input chunk that has a record whose data (the
    concatenation of its content fragments) does not contain the separator,
    the decoding of the consumer (split the output on the separator, drop
    the empty segments, parse each of the others) gives exactly one record,
    the one the transformer computed for the chunk. *)
Theorem decode_inverts_encode (chunk : Buffer) (streamData : StreamData)
  (console : list logEntry) :
  recordOf chunk = Normal streamData ->
  includes JSON_LINE_SEPARATOR (data streamData) = false ->
  exists out console',
    modifyChunk chunk console = (Normal out, console')
    /\ out = JSON_stringify streamData ++ JSON_LINE_SEPARATOR
    /\ decodeChunk out =
       [Normal (JObject [(js "data", JString (data streamData));
                         (js "finished", JBool (finished streamData))])].
Proof.
  intros Hrec H. eexists _, _. rewrite modifyChunk_spec, Hrec. split; [reflexivity|].
  split; [reflexivity|]. now apply decodeChunk_encode.
Qed.

Lemma decode_inverts_encode_witness :
  exists out console',
    modifyChunk Examples.chunkLo [] = (Normal out, console')
    /\ out = JSON_stringify {| data := js "lo"; finished := true |} ++ JSON_LINE_SEPARATOR
    /\ decodeChunk out =
       [Normal (JObject [(js "data", JString (js "lo")); (js "finished", JBool true)])].
Proof.
  apply (decode_inverts_encode Examples.chunkLo {| data := js "lo"; finished := true |} []);
    vm_compute; reflexivity.
Defined.

(** C10 as stated fails: no fragment of the chunk contains the separator,
    yet the two fragments together do, and the consumer reads two segments
    that are not JSON instead of one record. *)
Lemma decode_inverts_encode_counterexample :
  fragments (dataStrsOf Examples.chunkSeparatorInTwo) =
    [JString (js "___BASILISK_JSON_LINE"); JString (js "_SEPARATOR___")]
  /\ includes JSON_LINE_SEPARATOR (js "___BASILISK_JSON_LINE") = false
  /\ includes JSON_LINE_SEPARATOR (js "_SEPARATOR___") = false
  /\ exists out streamData,
       recordOf Examples.chunkSeparatorInTwo = Normal streamData
       /\ modifyChunk Examples.chunkSeparatorInTwo [] = (Normal out, [])
       /\ decodeChunk out = [Throw SyntaxError; Throw SyntaxError]
       /\ decodeChunk out <> [Normal (jsonOfRecord streamData)].
Proof.
  split; [vm_compute; reflexivity|]. split; [vm_compute; reflexivity|].
  split; [vm_compute; reflexivity|].
  exists (encode {| data := JSON_LINE_SEPARATOR; finished := false |}),
         {| data := JSON_LINE_SEPARATOR; finished := false |}.
  split; [vm_compute; reflexivity|]. split; [vm_compute; reflexivity|].
  split; [vm_compute; reflexivity|]. vm_compute. discriminate.
Qed.

(** ** The retry wrapper *)

Lemma withExponentialBackoff_spec {R T : Type} (fn : M R T)
  (params : option ExponentialBackoffParams.t) (w : World R) :
  exists (r : completion T) (w' : World R) (errs : list jserror),
    withExponentialBackoff fn params w = Some (r, w')
    /\ invocations (events w') =
       invocations (events w) ++ List.map Some errs ++ [outcome r]
    /\ waits (events w') =
       waits (events w) ++
       List.map (fun i => retryDelay (initialRetryDelayOf params)
                            (jitterOf (entropy w (drawn w + i)%nat) (maxJitterOf params))
                            (Z.of_nat i))
                (seq 0 (List.length errs))
    /\ (Z.of_nat (List.length errs) <= Z.max 0 (maxRetriesOf params))%Z
    /\ (forall e, r = Throw e ->
        Z.of_nat (List.length errs) = Z.max 0 (maxRetriesOf params))
    /\ (exists s, fn s = (r, remote w'))
    /\ console w' = console w.
Proof.
  assert (H : exists m i j,
             m = maxRetriesOf params /\ i = initialRetryDelayOf params
             /\ j = maxJitterOf params
             /\ withExponentialBackoff fn params w =
                whileTrue fn m i j (S (Z.to_nat m)) 0 w).
  { destruct params as [p|]; eexists _, _, _; repeat split. }
  destruct H as (m & i & j & Hm & Hi & Hj & ->).
  destruct (whileTrue_spec fn m i j (S (Z.to_nat m)) 0 w ltac:(lia))
    as (r & w' & errs & Hrun & Hinv & Hwaits & Hlen & Hthrow & Hfn & _ & _ & Hcon).
  exists r, w', errs. subst m i j. rewrite Z.sub_0_r in *.
  repeat split; try assumption.
  - lia.
  - intros e He. specialize (Hthrow e He). lia.
Qed.

(** C3, amended.  Whatever the operation and the configured [maxRetries]
    [m], the wrapper returns, having invoked the operation at most
    [max 0 m + 1] times: [m + 1] when [0 <= m], once when [m < 0].  All the
    invocations but the last have failed, and the result is the result of
    the last one: a value, returned with no further attempt, or, after
    exactly [max 0 m + 1] invocations, its error, propagated unchanged.  So
    an operation that fails at every attempt is invoked exactly
    [max 0 m + 1] times, 3 times for [m = 2]. *)
Theorem retry_budget {R T : Type} (fn : M R T)
  (params : option ExponentialBackoffParams.t) (w : World R) :
  exists (r : completion T) (w' : World R) (errs : list jserror),
    withExponentialBackoff fn params w = Some (r, w')
    /\ invocations (events w') =
       invocations (events w) ++ List.map Some errs ++ [outcome r]
    /\ (Z.of_nat (List.length (List.map Some errs ++ [outcome r]))
        <= Z.max 0 (maxRetriesOf params) + 1)%Z
    /\ (forall e, r = Throw e ->
        Z.of_nat (List.length (List.map Some errs ++ [outcome r]))
        = Z.max 0 (maxRetriesOf params) + 1)%Z
    /\ (exists s, fn s = (r, remote w'))
    /\ ((forall s, exists e s', fn s = (Throw e, s')) ->
        exists e, r = Throw e
                  /\ (Z.of_nat (List.length (List.map Some errs ++ [outcome r]))
                      = Z.max 0 (maxRetriesOf params) + 1)%Z).
Proof.
  destruct (withExponentialBackoff_spec fn params w)
    as (r & w' & errs & Hrun & Hinv & _ & Hlen & Hthrow & Hfn & _).
  exists r, w', errs.
  assert (L : Z.of_nat (List.length (List.map Some errs ++ [outcome r]))
              = (Z.of_nat (List.length errs) + 1)%Z).
  { rewrite length_app, length_map. cbn [List.length]. lia. }
  rewrite L. repeat split; try assumption; try lia.
  - intros e He. specialize (Hthrow e He). lia.
  - intros Hfail. destruct Hfn as (s & Hs). destruct (Hfail s) as (e & s' & He).
    rewrite Hs in He. injection He as -> _. exists e. split; [reflexivity|].
    specialize (Hthrow e eq_refl). lia.
Qed.

Lemma retry_budget_witness :
  exists (r : completion unit) (w' : World unit) (errs : list jserror),
    withExponentialBackoff Examples.alwaysFails (Examples.retries 2) Examples.world0
    = Some (r, w')
    /\ exists e, r = Throw e
                 /\ Z.of_nat (List.length (List.map Some errs ++ [outcome r])) = 3%Z.
Proof.
  destruct (retry_budget Examples.alwaysFails (Examples.retries 2) Examples.world0)
    as (r & w' & errs & Hrun & _ & _ & _ & _ & Hfail).
  exists r, w', errs. split; [exact Hrun|].
  apply Hfail. intros s. exists Examples.boom, s. reflexivity.
Defined.

(** C3 as stated fails for a negative [maxRetries]: with [maxRetries = -1]
    the operation is invoked once, which is more than [m + 1 = 0] times. *)
Lemma retry_budget_counterexample :
  match withExponentialBackoff Examples.alwaysFails (Examples.retries (-1)) Examples.world0 with
  | Some (r, w') =>
      r = Throw Examples.boom
      /\ invocations (events w') = [Some Examples.boom]
      /\ ~ (Z.of_nat (List.length (invocations (events w'))) <= -1 + 1)%Z
  | None => False
  end.
Proof.
  vm_compute. split; [reflexivity|split; [reflexivity|]].
  intro H. apply H. reflexivity.
Qed.

(** The run of the specification: [maxRetries = 2] and an operation that
    always fails give three invocations and the error of the operation. *)
Example retry_budget_three_attempts :
  match withExponentialBackoff Examples.alwaysFails (Examples.retries 2) Examples.world0 with
  | Some (r, w') =>
      r = Throw Examples.boom
      /\ invocations (events w') =
         [Some Examples.boom; Some Examples.boom; Some Examples.boom]
  | None => False
  end.
Proof. vm_compute. split; reflexivity. Qed.

(** An attempt that succeeds ends the run: the operation fails twice, then
    gives its value at the third invocation, and is not invoked again. *)
Example retry_until_success :
  match withExponentialBackoff Examples.failsTwice None (Examples.worldAt 0) with
  | Some (r, w') =>
      r = Normal (js "ok") /\ remote w' = 3%nat
      /\ invocations (events w') = [Some Examples.boom; Some Examples.boom; None]
      /\ List.map integerOf (waits (events w')) = [Some 1000; Some 2000]%Z
  | None => False
  end.
Proof. vm_compute. repeat split; reflexivity. Qed.

(** ** The delay before a retry *)

(** With no jitter and an initial delay in the safe range, the delay is the
    initial delay times the power of two. *)
Lemma retryDelay_no_jitter (initialRetryDelayMS k : Z) :
  (0 <= initialRetryDelayMS < 2 ^ 53)%Z -> (0 <= k <= 971)%Z ->
  integerOf (retryDelay initialRetryDelayMS (Num (ofInteger 0)) k) =
  Some (initialRetryDelayMS * 2 ^ k)%Z.
Proof.
  intros Hi Hk. unfold retryDelay.
  rewrite Number_add_integers, Z.add_0_r, Number_multiply_pow2 by lia.
  apply integerOf_ofInteger; lia.
Qed.

(** The product of a draw and the bound is rounded before its integer part
    is taken: for the double nearest to 0.009, which is below 0.009, and the
    bound 1000 the exact product is below 9 and the jitter is 9. *)
Example jitter_rounds_up :
  jitterOf Samples.small 1000 = Num (ofInteger 9)
  /\ Qfloor (valueOf Samples.small * inject_Z 1000) = 8%Z.
Proof. split; vm_compute; reflexivity. Qed.

(** With the default parameters and this draw the first wait is of 1009
    milliseconds. *)
Example first_wait_rounded :
  List.map integerOf
    (waits (events (waitBeforeRetry DEFAULT_INITIAL_RETRY_DELAY_MS DEFAULT_MAX_JITTER_MS 0
                      {| remote := tt; console := []; events := [];
                         entropy := fun _ => Samples.small; drawn := 0 |}))) =
  [Some 1009%Z].
Proof. vm_compute. reflexivity. Qed.

(** C8, amended.  The delay waited before the retry numbered [retryCount]
    is [(initialRetryDelayMS + jitterMS) * Math.pow (2, retryCount)] in the
    arithmetic of doubles, where [jitterMS] is
    [Math.floor (Math.random () * maxJitterMS)]; the successive waits of a
    run use the retry counts 0, 1, 2, ... in order.  For a draw [u] of
    [0, 1) and [0 < maxJitterMS < 2^53] the jitter is an integer [j] of
    [0, maxJitterMS) with [floor (u * maxJitterMS) <= j <= u * maxJitterMS *
    (1 + 2^-53)], so that every draw [u] with [k <= u * maxJitterMS] and
    [u * maxJitterMS * (1 + 2^-53) < k + 1] gives the jitter [k]: the jitter
    is spread over the integers of [0, maxJitterMS) as evenly as the draws
    are over [0, 1), up to the rounding of the product; it is [0] when
    [maxJitterMS = 0].  When the parameters are not negative,
    [initialRetryDelayMS + maxJitterMS < 2^53] and [retryCount] is of
    0..971, nothing is rounded and the delay is the integer
    [(initialRetryDelayMS + j) * 2 ^ retryCount].  With the jitter at 0,
    each delay is twice the one before, and, when [0 < initialRetryDelayMS],
    the delays for the retry counts 0, 1, 2 strictly increase. *)
Theorem retry_delay {R T : Type} (fn : M R T)
  (params : option ExponentialBackoffParams.t) (w : World R) (retryCount : Z) :
  waits (events (waitBeforeRetry (initialRetryDelayOf params) (maxJitterOf params)
                   retryCount w)) =
    waits (events w) ++
    [retryDelay (initialRetryDelayOf params)
                (jitterOf (entropy w (drawn w)) (maxJitterOf params)) retryCount]
  /\ (exists (r : completion T) (w' : World R) (errs : list jserror),
        withExponentialBackoff fn params w = Some (r, w')
        /\ waits (events w') =
           waits (events w) ++
           List.map (fun i => retryDelay (initialRetryDelayOf params)
                                (jitterOf (entropy w (drawn w + i)%nat) (maxJitterOf params))
                                (Z.of_nat i))
                    (seq 0 (List.length errs)))
  /\ (forall u : JSNumber.double,
      unitDraw u = true -> (0 < maxJitterOf params < 2 ^ 53)%Z ->
      exists j : Z,
        jitterOf u (maxJitterOf params) = Num (ofInteger j)
        /\ integerOf (jitterOf u (maxJitterOf params)) = Some j
        /\ (0 <= j < maxJitterOf params)%Z
        /\ (Qfloor (valueOf u * inject_Z (maxJitterOf params)) <= j)%Z
        /\ (inject_Z j <= valueOf u * inject_Z (maxJitterOf params) * (1 + 2 ^ (-53)))%Q
        /\ (forall k : Z,
            (inject_Z k <= valueOf u * inject_Z (maxJitterOf params))%Q ->
            (valueOf u * inject_Z (maxJitterOf params) * (1 + 2 ^ (-53))
             < inject_Z (k + 1))%Q ->
            j = k))
  /\ (forall u : JSNumber.double,
      unitDraw u = true -> maxJitterOf params = 0%Z ->
      jitterOf u (maxJitterOf params) = Num (ofInteger 0))
  /\ (forall u : JSNumber.double,
      unitDraw u = true ->
      (0 <= initialRetryDelayOf params)%Z -> (0 <= maxJitterOf params)%Z ->
      (initialRetryDelayOf params + maxJitterOf params < 2 ^ 53)%Z ->
      (0 <= retryCount <= 971)%Z ->
      exists j : Z,
        integerOf (jitterOf u (maxJitterOf params)) = Some j
        /\ integerOf (retryDelay (initialRetryDelayOf params)
                        (jitterOf u (maxJitterOf params)) retryCount) =
           Some ((initialRetryDelayOf params + j) * 2 ^ retryCount)%Z)
  /\ (forall k : Z,
      (0 <= initialRetryDelayOf params < 2 ^ 53)%Z -> (0 <= k <= 970)%Z ->
      exists d : Z,
        integerOf (retryDelay (initialRetryDelayOf params) (Num (ofInteger 0)) k) = Some d
        /\ integerOf (retryDelay (initialRetryDelayOf params) (Num (ofInteger 0)) (k + 1)) =
           Some (2 * d)%Z)
  /\ ((0 < initialRetryDelayOf params < 2 ^ 53)%Z ->
      exists d0 d1 d2 : Z,
        integerOf (retryDelay (initialRetryDelayOf params) (Num (ofInteger 0)) 0) = Some d0
        /\ integerOf (retryDelay (initialRetryDelayOf params) (Num (ofInteger 0)) 1) = Some d1
        /\ integerOf (retryDelay (initialRetryDelayOf params) (Num (ofInteger 0)) 2) = Some d2
        /\ (d0 < d1 < d2)%Z /\ d1 = (2 * d0)%Z /\ d2 = (2 * d1)%Z).
Proof.
  split; [|split; [|split; [|split; [|split; [|split]]]]].
  - rewrite waitBeforeRetry_events, waits_app. reflexivity.
  - destruct (withExponentialBackoff_spec fn params w)
      as (r & w' & errs & Hrun & _ & Hwaits & _).
    now exists r, w', errs.
  - intros u Hu Hm.
    destruct (jitterOf_unitDraw u (maxJitterOf params) Hu Hm) as (j & Ej & Hj & Hlo & Hhi).
    exists j. split; [exact Ej|]. split.
    { rewrite Ej. apply integerOf_ofInteger_small. lia. }
    repeat (split; [assumption|]).
    intros k Hk1 Hk2.
    apply Qfloor_resp_le in Hk1. rewrite Qfloor_Z in Hk1.
    pose proof (Qle_lt_trans _ _ _ Hhi Hk2) as Hlt. rewrite <- Zlt_Qlt in Hlt. lia.
  - intros u Hu ->. now apply jitterOf_zero.
  - intros u Hu Hi Hm Hsafe Hk.
    destruct (retryDelay_exact (initialRetryDelayOf params) (maxJitterOf params)
                Hi Hm Hsafe u retryCount Hu Hk) as (j & Ej & Hj & _ & _ & Ed).
    exists j. split; [|exact Ed].
    rewrite Ej. apply integerOf_ofInteger_small. lia.
  - intros k Hi Hk. exists (initialRetryDelayOf params * 2 ^ k)%Z.
    rewrite !retryDelay_no_jitter by lia. split; [reflexivity|].
    rewrite Z.pow_add_r by lia. f_equal. lia.
  - intros Hi.
    exists (initialRetryDelayOf params * 2 ^ 0)%Z, (initialRetryDelayOf params * 2 ^ 1)%Z,
      (initialRetryDelayOf params * 2 ^ 2)%Z.
    rewrite !retryDelay_no_jitter by lia.
    repeat split; lia.
Qed.

Lemma retry_delay_witness :
  (exists j : Z,
     integerOf (jitterOf Samples.small (maxJitterOf None)) = Some j
     /\ (0 <= j < maxJitterOf None)%Z)
  /\ jitterOf Samples.half (maxJitterOf Examples.noDelay) = Num (ofInteger 0)
  /\ (exists j : Z,
        integerOf (retryDelay (initialRetryDelayOf None)
                     (jitterOf Samples.small (maxJitterOf None)) 3) =
        Some ((initialRetryDelayOf None + j) * 2 ^ 3)%Z)
  /\ (exists d0 d1 d2 : Z,
        integerOf (retryDelay (initialRetryDelayOf None) (Num (ofInteger 0)) 0) = Some d0
        /\ integerOf (retryDelay (initialRetryDelayOf None) (Num (ofInteger 0)) 1) = Some d1
        /\ integerOf (retryDelay (initialRetryDelayOf None) (Num (ofInteger 0)) 2) = Some d2
        /\ (d0 < d1 < d2)%Z).
Proof.
  destruct (retry_delay Examples.alwaysFails None Examples.world0 3)
    as (_ & _ & H3 & _ & H5 & _ & H7).
  destruct (retry_delay Examples.alwaysFails Examples.noDelay Examples.world0 0)
    as (_ & _ & _ & H4 & _).
  split; [|split; [|split]].
  - destruct (H3 Samples.small) as (j & _ & Ej & Hj & _);
      [reflexivity|split; reflexivity|].
    exists j. now split.
  - apply H4; reflexivity.
  - destruct (H5 Samples.small) as (j & _ & Ed);
      [reflexivity|discriminate|discriminate|reflexivity|split; discriminate|].
    now exists j.
  - destruct H7 as (d0 & d1 & d2 & E0 & E1 & E2 & Hlt & _); [split; reflexivity|].
    now exists d0, d1, d2.
Defined.

(** C8 as stated fails in two ways.  When [initialRetryDelayMS] is 0, with
    no jitter the delays for the retry counts 0, 1, 2 are 0, 0, 0 and do not
    increase.  And the delay is the rounded value of the formula: with
    [initialRetryDelayMS] at [2^53], [maxJitterMS] at 2 and the draw 0.5 the
    jitter is 1 and the delay waited is [2^53], not [2^53 + 1]. *)
Lemma retry_delay_counterexample :
  List.map integerOf (waits (events (waitBeforeRetry 0 0 0 Examples.world0))) = [Some 0%Z]
  /\ List.map integerOf (waits (events (waitBeforeRetry 0 0 1 Examples.world0))) = [Some 0%Z]
  /\ List.map integerOf (waits (events (waitBeforeRetry 0 0 2 Examples.world0))) = [Some 0%Z]
  /\ integerOf (jitterOf (entropy Samples.world1 (drawn Samples.world1)) 2) = Some 1%Z
  /\ List.map integerOf
       (waits (events (waitBeforeRetry (2 ^ 53) 2 0 Samples.world1))) =
     [Some (2 ^ 53)%Z]
  /\ ((2 ^ 53 + 1) * 2 ^ 0 <> 2 ^ 53)%Z.
Proof.
  split; [reflexivity|split; [reflexivity|split; [reflexivity|]]].
  split; [vm_compute; reflexivity|split; [vm_compute; reflexivity|discriminate]].
Qed.

(** ** The requests *)

Lemma getAPIStream_spec {R : Type} (api : OpenAIApi R)
  (messages : list ChatCompletionRequestMessage) (w : World R)
  (r : completion Readable) (w1 : World R) :
  withExponentialBackoff (chatRequest api messages) None w = Some (r, w1) ->
  getAPIStream api DEFAULT_MODEL messages w =
  Some (match r with
        | Normal apiResponse => (Some apiResponse, w1)
        | Throw err => (None, console_error (diagnostic err) w1)
        end).
Proof.
  intros H. unfold getAPIStream. fold (chatRequest api messages). rewrite H.
  destruct r as [apiResponse|err]; [reflexivity|].
  unfold diagnostic. now destruct (isAxiosError err).
Qed.

Lemma getResponseStream_spec {R : Type} (api : OpenAIApi R)
  (messages : list ChatCompletionRequestMessage) (w : World R)
  (r : completion Readable) (w1 : World R) :
  withExponentialBackoff (chatRequest api messages) None w = Some (r, w1) ->
  getResponseStream api messages w =
  Some (match r with
        | Normal apiResponse =>
            (Normal {| chunks := fst (fst (piped apiResponse));
                       failure := snd (fst (piped apiResponse)) |},
             console_errors (snd (piped apiResponse)) w1)
        | Throw err =>
            (Throw (Error (js "Error getting response from OpenAI")),
             console_error (diagnostic err) w1)
        end).
Proof.
  intros H. unfold getResponseStream. rewrite (getAPIStream_spec api messages w r w1 H).
  destruct r as [apiResponse|err]; [|reflexivity].
  rewrite pipe_modifyChunk by reflexivity.
  unfold readableOf, console_errors. cbn [pushed errored new_ModifyChunkStream app].
  now destruct (snd (fst (piped apiResponse))).
Qed.

Lemma getAPIStream_inv {R : Type} (api : OpenAIApi R)
  (messages : list ChatCompletionRequestMessage) (w w1 : World R) (source : Readable) :
  getAPIStream api DEFAULT_MODEL messages w = Some (Some source, w1) ->
  withExponentialBackoff (chatRequest api messages) None w = Some (Normal source, w1).
Proof.
  intros H.
  destruct (withExponentialBackoff_spec (chatRequest api messages) None w)
    as (r & w' & errs & Hrun & _).
  rewrite (getAPIStream_spec api messages w r w' Hrun) in H.
  destruct r; injection H as H1 H2; now subst.
Qed.

(** C4, amended.  [getResponseStream] always returns or throws.  It throws
    exactly when the request has failed at each of its 4 attempts, and the
    error thrown is then the fixed [Error] "Error getting response from
    OpenAI": no empty stream is returned.  The upstream error is not part of
    what is thrown; it is printed on the console, as the message of the API
    error when the rejection is an Axios error that carries one.  When a
    stream is obtained [getResponseStream] throws nothing: it returns the
    stream of the transform stage, in which the lines that cannot be parsed
    are logged and skipped. *)
Theorem response_stream_failure {R : Type} (api : OpenAIApi R)
  (messages : list ChatCompletionRequestMessage) (w : World R) :
  exists (r : completion Readable) (w1 : World R) (errs : list jserror),
    withExponentialBackoff (chatRequest api messages) None w = Some (r, w1)
    /\ invocations (events w1) =
       invocations (events w) ++ List.map Some errs ++ [outcome r]
    /\ match r with
       | Throw err =>
           List.length errs = 3%nat
           /\ getResponseStream api messages w =
              Some (Throw (Error (js "Error getting response from OpenAI")),
                    console_error (diagnostic err) w1)
       | Normal apiResponse =>
           getResponseStream api messages w =
           Some (Normal {| chunks := fst (fst (piped apiResponse));
                           failure := snd (fst (piped apiResponse)) |},
                 console_errors (snd (piped apiResponse)) w1)
       end
    /\ (forall message apiMessage,
          diagnostic (AxiosError message (Some apiMessage)) =
          LogText (js "Error generating response: " ++ apiMessage)).
Proof.
  destruct (withExponentialBackoff_spec (chatRequest api messages) None w)
    as (r & w1 & errs & Hrun & Hinv & _ & _ & Hthrow & _).
  exists r, w1, errs. split; [exact Hrun|]. split; [exact Hinv|]. split.
  - rewrite (getResponseStream_spec api messages w r w1 Hrun).
    destruct r as [apiResponse|err]; [reflexivity|]. split; [|reflexivity].
    specialize (Hthrow err eq_refl). change (maxRetriesOf None) with 3%Z in Hthrow. lia.
  - reflexivity.
Qed.

(** C4 as stated fails: when every attempt is rejected with an Axios error
    whose API message is "Rate limit reached", the error thrown is the fixed
    one; neither the API message nor the message of the Axios error occurs
    in it.  They are on the console only. *)
Lemma response_stream_failure_counterexample :
  match getResponseStream Examples.down [] Examples.world0 with
  | Some (Throw e, w') =>
      e = Error (js "Error getting response from OpenAI")
      /\ includes (js "Rate limit reached") (messageOf e) = false
      /\ includes (js "Request failed with status code 429") (messageOf e) = false
      /\ console w' = [LogText (js "Error generating response: Rate limit reached")]
  | _ => False
  end.
Proof. vm_compute. repeat split; reflexivity. Qed.

(** ** The whole pipeline *)

(** C1, amended.  For every sequence of transport chunks each of which has
    a record (its content fragments convert to strings) whose data does not
    contain the separator, [streamSingleResponse] returns the concatenation,
    in arrival order, of the data of the records, up to and including the
    first finished one, or of all of them when none is finished; the result
    is the same however the outputs of the transform stage are grouped in
    the chunks the consumer reads.  For the two chunks carrying "Hel" (no
    finish reason) and "lo" (finish reason "stop") the result is "Hello". *)
Theorem single_response {R : Type} (api : OpenAIApi R)
  (messages : list ChatCompletionRequestMessage) (w w1 : World R)
  (source : Readable) (records : list StreamData) :
  getAPIStream api DEFAULT_MODEL messages w = Some (Some source, w1) ->
  List.map recordOf source = List.map Normal records ->
  Forall (fun r => includes JSON_LINE_SEPARATOR (data r) = false) records ->
  exists w2,
    streamSingleResponse api messages w = Some (Normal (accumulate records), w2)
    /\ (forall groups : list (list StreamData),
          List.concat groups = records ->
          streamChatResponse
            {| chunks := List.map (fun g => List.concat (List.map encode g)) groups;
               failure := None |} = Normal (accumulate records))
    /\ (source = [Examples.chunkHel; Examples.chunkLo] ->
        streamSingleResponse api messages w = Some (Normal (js "Hello"), w2)).
Proof.
  intros Hget Hrec Hsep. apply getAPIStream_inv in Hget.
  eexists. unfold streamSingleResponse.
  rewrite (getResponseStream_spec api messages w _ w1 Hget).
  unfold streamChatResponse. cbn [chunks failure].
  rewrite (piped_records source records Hrec). cbn [fst snd].
  rewrite forChunks_encoded_one_by_one by assumption.
  split; [reflexivity|]. split.
  - intros groups Hg. subst records. apply forChunks_encoded.
    clear -Hsep. induction groups as [|g groups IH]; [constructor|].
    cbn [List.concat] in Hsep. apply Forall_app in Hsep as [Hg Hrest].
    constructor; [exact Hg|now apply IH].
  - intros ->.
    destruct records as [|r1 [|r2 [|r3 records]]]; try discriminate Hrec.
    injection Hrec as <- <-. reflexivity.
Qed.

Lemma single_response_witness :
  exists w2,
    streamSingleResponse (Examples.serving [Examples.chunkHel; Examples.chunkLo]) []
      Examples.world0 = Some (Normal (js "Hello"), w2).
Proof.
  destruct (single_response (Examples.serving [Examples.chunkHel; Examples.chunkLo]) []
              Examples.world0 (record (Invoked None) Examples.world0)
              [Examples.chunkHel; Examples.chunkLo]
              [ {| data := js "Hel"; finished := false |};
                {| data := js "lo"; finished := true |} ]) as (w2 & _ & _ & H).
  - vm_compute. reflexivity.
  - vm_compute. reflexivity.
  - repeat constructor.
  - exists w2. apply H. reflexivity.
Defined.

(** C1 as stated fails: for the chunk whose content is the separator itself
    the consumer finds two segments that are not JSON, and
    [streamSingleResponse] throws a SyntaxError instead of returning the
    data of the record. *)
Lemma single_response_counterexample :
  recordOf Examples.chunkSeparator =
    Normal {| data := JSON_LINE_SEPARATOR; finished := false |}
  /\ match streamSingleResponse (Examples.serving [Examples.chunkSeparator]) []
             Examples.world0 with
     | Some (r, _) => r = Throw SyntaxError
     | None => False
     end.
Proof. vm_compute. split; reflexivity. Qed.

(** C9.  When the stream ends and every record read had [finished] false,
    [streamSingleResponse] does not fail: it returns the text accumulated,
    the concatenation of the data read.  A stream that stops on a finished
    record after the same data gives the same value, so the caller cannot
    tell the two ends apart. *)
Theorem stream_exhaustion {R : Type} (api : OpenAIApi R)
  (messages : list ChatCompletionRequestMessage) (w w' : World R)
  (responseStream : ReadableStream) (ds : list jsstr) :
  getResponseStream api messages w = Some (Normal responseStream, w') ->
  failure responseStream = None ->
  recordsRead responseStream = List.map unfinished ds ->
  streamSingleResponse api messages w = Some (Normal (List.concat ds), w')
  /\ (forall (stopped : ReadableStream) (ds' : list jsstr) (d : jsstr)
             (rest : list (completion (jsstr * bool))),
        ds = ds' ++ [d] ->
        recordsRead stopped = List.map unfinished ds' ++ Normal (d, true) :: rest ->
        streamChatResponse stopped = Normal (List.concat ds)).
Proof.
  intros Hget Hend Hread. split.
  - unfold streamSingleResponse. rewrite Hget, streamChatResponse_consume, Hread, Hend.
    rewrite <- (app_nil_r (List.map unfinished ds)), consume_unfinished. reflexivity.
  - intros stopped ds' d rest -> Hstopped.
    rewrite streamChatResponse_consume, Hstopped, consume_unfinished.
    cbn [consume app]. rewrite concat_app. cbn [List.concat]. now rewrite app_nil_r.
Qed.

Lemma stream_exhaustion_witness :
  streamSingleResponse (Examples.serving [Examples.chunkHel]) [] Examples.world0 =
  Some (Normal (List.concat [js "Hel"]), record (Invoked None) Examples.world0)
  /\ streamChatResponse
       {| chunks := [encode {| data := js "Hel"; finished := true |}]; failure := None |} =
     Normal (List.concat [js "Hel"]).
Proof.
  destruct (stream_exhaustion (Examples.serving [Examples.chunkHel]) []
              Examples.world0 (record (Invoked None) Examples.world0)
              {| chunks := [encode {| data := js "Hel"; finished := false |}];
                 failure := None |}
              [js "Hel"]) as (H1 & H2).
  - vm_compute. reflexivity.
  - reflexivity.
  - vm_compute. reflexivity.
  - split; [exact H1|].
    apply (H2 {| chunks := [encode {| data := js "Hel"; finished := true |}];
                 failure := None |} [] (js "Hel") []).
    + reflexivity.
    + vm_compute. reflexivity.
Defined.

(** ** Bounds on the delays *)

Lemma totalMS_app (a b : list Z) : totalMS (a ++ b) = (totalMS a + totalMS b)%Z.
Proof.
  unfold totalMS. induction a as [|x a IH]; [reflexivity|].
  cbn [app fold_right]. rewrite IH. lia.
Qed.

(** The sum of delays that double from [lo] at least and from [hi] at
    most. *)
Lemma totalMS_pow2 (lo hi : Z) (delays : list Z) :
  (forall k d, nth_error delays k = Some d ->
     (lo * 2 ^ Z.of_nat k <= d <= hi * 2 ^ Z.of_nat k)%Z) ->
  (lo * (2 ^ Z.of_nat (List.length delays) - 1) <= totalMS delays
   <= hi * (2 ^ Z.of_nat (List.length delays) - 1))%Z.
Proof.
  induction delays as [|x delays IH] using rev_ind; intros H; [cbn; lia|].
  rewrite totalMS_app, length_app. cbn [List.length totalMS fold_right].
  assert (Hx : nth_error (delays ++ [x]) (List.length delays) = Some x)
    by (rewrite nth_error_app2, Nat.sub_diag by lia; reflexivity).
  specialize (H (List.length delays) x Hx) as Hb.
  assert (IH' : (lo * (2 ^ Z.of_nat (List.length delays) - 1) <= totalMS delays
                 <= hi * (2 ^ Z.of_nat (List.length delays) - 1))%Z).
  { apply IH. intros k d Hk. apply H. rewrite nth_error_app1; [exact Hk|].
    apply nth_error_Some. now rewrite Hk. }
  replace (Z.of_nat (List.length delays + 1))
    with (Z.succ (Z.of_nat (List.length delays))) by lia.
  rewrite Z.pow_succ_r by lia. unfold totalMS in *. lia.
Qed.

(** The events of an immediate end of the loop. *)
Lemma whileTrue_last {R T : Type} (fn : M R T)
  (maxRetries initialRetryDelayMS maxJitterMS : Z) (fuel : nat) (retryCount : Z)
  (w : World R) (r : completion T) (s' : R) :
  fn (remote w) = (r, s') ->
  (forall e, r = Throw e -> (maxRetries <= retryCount)%Z) ->
  whileTrue fn maxRetries initialRetryDelayMS maxJitterMS (S fuel) retryCount w =
  Some (r, {| remote := s'; console := console w;
              events := events w ++ lastAttempt r;
              entropy := entropy w; drawn := drawn w |}).
Proof.
  intros Hfn Hr. cbn [whileTrue]. unfold invoke, onRemote. rewrite Hfn.
  destruct r as [v|e]; [reflexivity|].
  unfold shouldRetry. specialize (Hr e eq_refl).
  destruct (Z.ltb_spec retryCount maxRetries); [lia|]. cbn [negb].
  unfold logDebug, record. cbn [remote console events entropy drawn lastAttempt].
  now rewrite <- app_assoc.
Qed.

(** The waits of a run with parameters in the safe range, as integers:
    the delay before the retry numbered [k] is between
    [initialRetryDelayMS * 2^k] and [(initialRetryDelayMS + maxJitterMS) *
    2^k], which it does not reach when [0 < maxJitterMS]. *)
Lemma withExponentialBackoff_delays {R T : Type} (fn : M R T)
  (params : option ExponentialBackoffParams.t) (w : World R) :
  (0 <= initialRetryDelayOf params)%Z -> (0 <= maxJitterOf params)%Z ->
  (initialRetryDelayOf params + maxJitterOf params < 2 ^ 53)%Z ->
  (maxRetriesOf params <= 972)%Z ->
  unitInterval (entropy w) ->
  exists (r : completion T) (w' : World R) (errs : list jserror)
         (waited : list number) (delays : list Z),
    withExponentialBackoff fn params w = Some (r, w')
    /\ events w' =
       events w
       ++ retriedFrom (initialRetryDelayOf params) (maxJitterOf params)
            (entropy w) (drawn w) 0 errs
       ++ lastAttempt r
    /\ waits (events w') = waits (events w) ++ waited
    /\ List.map integerOf waited = List.map Some delays
    /\ List.length delays = List.length errs
    /\ (Z.of_nat (List.length errs) <= Z.max 0 (maxRetriesOf params))%Z
    /\ (forall e, r = Throw e ->
        Z.of_nat (List.length errs) = Z.max 0 (maxRetriesOf params))
    /\ console w' = console w
    /\ (exists s, failsFor fn (List.length errs) (remote w) = Some (errs, s)
                  /\ fn s = (r, remote w'))
    /\ (forall (k : nat) (d : Z), nth_error delays k = Some d ->
        (initialRetryDelayOf params * 2 ^ Z.of_nat k <= d)%Z
        /\ (d <= (initialRetryDelayOf params + maxJitterOf params) * 2 ^ Z.of_nat k)%Z
        /\ ((0 < maxJitterOf params)%Z ->
            (d < (initialRetryDelayOf params + maxJitterOf params) * 2 ^ Z.of_nat k)%Z)).
Proof.
  intros Hi Hj Hsafe Hmax Hent.
  destruct (withExponentialBackoff_trace fn params w)
    as (r & w' & errs & Hrun & Hev & Hlen & Hthrow & _ & _ & Hcon & Hst).
  destruct (retriedFrom_delays (initialRetryDelayOf params) (maxJitterOf params)
              Hi Hj Hsafe (entropy w) errs Hent (drawn w) 0 ltac:(lia) ltac:(lia))
    as (delays & Hw & Hl & Hb).
  exists r, w', errs,
    (waits (retriedFrom (initialRetryDelayOf params) (maxJitterOf params)
              (entropy w) (drawn w) 0 errs)), delays.
  split; [exact Hrun|]. split; [exact Hev|]. split.
  { now rewrite Hev, !waits_app, waits_lastAttempt, app_nil_r. }
  repeat (split; [assumption|]).
  intros k d Hd. specialize (Hb k d Hd). now rewrite Z.add_0_l in Hb.
Qed.

(** ** The consumer with its handlers *)

Section HandlersLemmas.

Context {H : Type}.
Variable hs : Handlers.StreamHandlers H.

(** Without handlers the consumer is [streamChatResponse] as embedded
    first. *)
Lemma forJsonLines_none (jsonLines : list jsstr) (responseStr : jsstr) (h : H) :
  Handlers.forJsonLines Handlers.none jsonLines responseStr h =
  (forJsonLines jsonLines responseStr, h).
Proof.
  revert responseStr; induction jsonLines as [|json rest IH]; intros responseStr.
  - reflexivity.
  - cbn [Handlers.forJsonLines forJsonLines]. unfold bind, lift.
    destruct (JSON_parse json) as [parsed|e]; [|reflexivity].
    destruct (RequireObjectCoercible (Some parsed)) as [obj|e]; [|reflexivity].
    cbn [Handlers.callOnData Handlers.callOnEnd Handlers.none Handlers.onData
         Handlers.onEnd ret].
    destruct (ToStringV (Get obj K_data)) as [text|e]; [|reflexivity].
    destruct (ToBoolean (Get obj K_finished)); [reflexivity|apply IH].
Qed.

Lemma forChunks_none (chunks : list Buffer) (failure : option jserror)
  (responseStr : jsstr) (h : H) :
  Handlers.forChunks Handlers.none chunks failure responseStr h =
  (forChunks chunks failure responseStr, h).
Proof.
  revert responseStr; induction chunks as [|chunk rest IH]; intros responseStr.
  - cbn. now destruct failure.
  - cbn [Handlers.forChunks forChunks]. unfold bind. rewrite forJsonLines_none.
    destruct (forJsonLines _ responseStr) as [[r|r]|e]; [apply IH|reflexivity|reflexivity].
Qed.

(** Handlers that return do not change what is read. *)
Hypothesis onData_returns :
  forall f d, Handlers.onData hs = Some f -> Handlers.returns (f d).
Hypothesis onEnd_returns :
  forall g, Handlers.onEnd hs = Some g -> Handlers.returns g.

Lemma callOnData_returns (d : option json) : Handlers.returns (Handlers.callOnData hs d).
Proof.
  unfold Handlers.callOnData. destruct (Handlers.onData hs) as [f|] eqn:E.
  - now apply onData_returns.
  - intros h. now exists h.
Qed.

Lemma callOnEnd_returns : Handlers.returns (Handlers.callOnEnd hs).
Proof.
  unfold Handlers.callOnEnd. destruct (Handlers.onEnd hs) as [g|] eqn:E.
  - now apply onEnd_returns.
  - intros h. now exists h.
Qed.

Lemma forJsonLines_returns (jsonLines : list jsstr) :
  forall (responseStr : jsstr) (h : H),
  exists h', Handlers.forJsonLines hs jsonLines responseStr h =
             (forJsonLines jsonLines responseStr, h').
Proof.
  induction jsonLines as [|json rest IH]; intros responseStr h.
  - now exists h.
  - cbn [Handlers.forJsonLines forJsonLines]. unfold bind, lift.
    destruct (JSON_parse json) as [parsed|e]; [|now exists h].
    destruct (RequireObjectCoercible (Some parsed)) as [obj|e]; [|now exists h].
    destruct (callOnData_returns (Get obj K_data) h) as (h1 & ->).
    destruct (ToStringV (Get obj K_data)) as [text|e]; [|now exists h1].
    destruct (ToBoolean (Get obj K_finished)); [|apply IH].
    destruct (callOnEnd_returns h1) as (h2 & ->). now exists h2.
Qed.

Lemma forChunks_returns (chunks : list Buffer) (failure : option jserror) :
  forall (responseStr : jsstr) (h : H),
  exists h', Handlers.forChunks hs chunks failure responseStr h =
             (forChunks chunks failure responseStr, h').
Proof.
  induction chunks as [|chunk rest IH]; intros responseStr h.
  - exists h. cbn. now destruct failure.
  - cbn [Handlers.forChunks forChunks]. unfold bind.
    destruct (forJsonLines_returns (filter nonEmpty (split JSON_LINE_SEPARATOR chunk))
                responseStr h) as (h1 & ->).
    destruct (forJsonLines _ responseStr) as [[r|r]|e];
      [apply IH|now exists h1|now exists h1].
Qed.

End HandlersLemmas.

Section HandlersCalls.

Context {H : Type}.
Variable hs : Handlers.StreamHandlers H.

(** The calls made for a chunk of encoded records. *)
Lemma forJsonLines_notify (g : list StreamData) :
  forall (rest : list StreamData) (K : jsstr -> M H jsstr) (responseStr : jsstr) (h : H),
  (forall r h, K r h = Handlers.notify hs rest r h) ->
  bind (Handlers.forJsonLines hs (List.map JSON_stringify g) responseStr)
       (fun c => match c with Return r => ret r | Next r => K r end) h =
  Handlers.notify hs (g ++ rest) responseStr h.
Proof.
  induction g as [|x g IH]; intros rest K responseStr h HK.
  - cbn. apply HK.
  - cbn [List.map Handlers.forJsonLines app Handlers.notify].
    rewrite JSON_parse_stringify. unfold bind, lift, ret in *.
    change (RequireObjectCoercible (Some (jsonOfRecord x))) with (Normal (jsonOfRecord x)).
    cbv iota.
    change (Get (jsonOfRecord x) K_data) with (Some (JString (data x))).
    change (Get (jsonOfRecord x) K_finished) with (Some (JBool (finished x))).
    cbn [ToStringV ToString ToBoolean].
    destruct (Handlers.callOnData hs (Some (JString (data x))) h) as [[u|e] h1];
      [|reflexivity].
    destruct (finished x).
    + now destruct (Handlers.callOnEnd hs h1) as [[u'|e] h2].
    + apply IH, HK.
Qed.

Lemma forChunks_notify (groups : list (list StreamData)) :
  Forall (Forall (fun r => includes JSON_LINE_SEPARATOR (data r) = false)) groups ->
  forall (responseStr : jsstr) (h : H),
  Handlers.forChunks hs (List.map (fun g => List.concat (List.map encode g)) groups)
    None responseStr h =
  Handlers.notify hs (List.concat groups) responseStr h.
Proof.
  induction 1 as [|g groups Hg _ IH]; intros responseStr h; [reflexivity|].
  cbn [List.map Handlers.forChunks List.concat].
  rewrite split_encoded by assumption.
  apply forJsonLines_notify. intros r h'. apply IH.
Qed.

(** Until a finished record is read, [onEnd] plays no part. *)
Lemma forJsonLines_unfinished (jsonLines : list jsstr) :
  forallb notFinished (List.map readRecord jsonLines) = true ->
  forall (responseStr : jsstr) (h : H),
  Handlers.forJsonLines hs jsonLines responseStr h =
  Handlers.forJsonLines
    {| Handlers.onData := Handlers.onData hs; Handlers.onEnd := None;
       Handlers.onError := Handlers.onError hs |} jsonLines responseStr h.
Proof.
  induction jsonLines as [|json rest IH]; intros Hu responseStr h; [reflexivity|].
  cbn [List.map forallb] in Hu. apply andb_true_iff in Hu as [Hj Hrest].
  cbn [Handlers.forJsonLines]. unfold bind, lift. unfold readRecord, notFinished in Hj.
  destruct (JSON_parse json) as [parsed|e]; [|reflexivity].
  destruct (RequireObjectCoercible (Some parsed)) as [obj|e]; [|reflexivity].
  change (Handlers.callOnData {| Handlers.onData := Handlers.onData hs;
                                 Handlers.onEnd := None;
                                 Handlers.onError := Handlers.onError hs |})
    with (Handlers.callOnData hs).
  destruct (Handlers.callOnData hs (Get obj K_data) h) as [[u|e] h1]; [|reflexivity].
  destruct (ToStringV (Get obj K_data)) as [text|e]; [|reflexivity].
  destruct (ToBoolean (Get obj K_finished)); [discriminate Hj|].
  now apply IH.
Qed.

Lemma forChunks_unfinished (chunks : list Buffer) (failure : option jserror) :
  forallb notFinished (List.map readRecord (flat_map segments chunks)) = true ->
  forall (responseStr : jsstr) (h : H),
  Handlers.forChunks hs chunks failure responseStr h =
  Handlers.forChunks
    {| Handlers.onData := Handlers.onData hs; Handlers.onEnd := None;
       Handlers.onError := Handlers.onError hs |} chunks failure responseStr h.
Proof.
  induction chunks as [|chunk rest IH]; intros Hu responseStr h; [reflexivity|].
  cbn [flat_map] in Hu. rewrite map_app, forallb_app in Hu.
  apply andb_true_iff in Hu as [Hc Hrest].
  cbn [Handlers.forChunks]. unfold bind. fold (segments chunk).
  rewrite (forJsonLines_unfinished (segments chunk) Hc).
  destruct (Handlers.forJsonLines _ (segments chunk) responseStr h) as [[[r|r]|e] h1];
    [now apply IH|reflexivity|reflexivity].
Qed.

(** What the recording handlers write down. *)
Lemma notify_recording (records : list StreamData) :
  forall (responseStr : jsstr) (calls : list Handlers.call),
  Handlers.notify Handlers.recording records responseStr calls =
  (Normal (responseStr ++ accumulate records), calls ++ Handlers.callsOf records).
Proof.
  induction records as [|r records IH]; intros responseStr calls.
  - cbn. now rewrite !app_nil_r.
  - cbn [Handlers.notify accumulate Handlers.callsOf]. unfold bind.
    cbn [Handlers.callOnData Handlers.callOnEnd Handlers.recording Handlers.onData
         Handlers.onEnd modify ret].
    destruct (finished r).
    + rewrite app_nil_r, <- app_assoc. reflexivity.
    + rewrite IH, <- !app_assoc. reflexivity.
Qed.

End HandlersCalls.

(** ** The text read so far *)

Lemma consume_acc (reads : list (completion (jsstr * bool))) (ending : option jserror) :
  forall responseStr : jsstr,
  consume reads ending responseStr =
  match consume reads ending [] with
  | Normal text => Normal (responseStr ++ text)
  | Throw e => Throw e
  end.
Proof.
  induction reads as [|[[d fin]|e] reads IH]; intros responseStr.
  - cbn. destruct ending; [reflexivity|]. now rewrite app_nil_r.
  - cbn [consume app]. destruct fin; [reflexivity|].
    rewrite IH, (IH d). destruct (consume reads ending []); [|reflexivity].
    now rewrite app_assoc.
  - reflexivity.
Qed.

Lemma forChunks_acc (chunks : list Buffer) (ending : option jserror) (responseStr : jsstr) :
  forChunks chunks ending responseStr =
  match forChunks chunks ending [] with
  | Normal text => Normal (responseStr ++ text)
  | Throw e => Throw e
  end.
Proof. rewrite !forChunks_consume. apply consume_acc. Qed.

(** ** The conversions to a string throw TypeErrors only *)

Lemma json_induction (P : json -> Prop) :
  P JNull -> (forall b, P (JBool b)) -> (forall x, P (JNumber x)) ->
  (forall s, P (JString s)) ->
  (forall elements, Forall P elements -> P (JArray elements)) ->
  (forall members, P (JObject members)) ->
  forall v, P v.
Proof.
  intros Hnull Hbool Hnum Hstr Harr Hobj. fix IH 1. intros v.
  destruct v as [| b | x | s | elements | members].
  - exact Hnull.
  - apply Hbool.
  - apply Hnum.
  - apply Hstr.
  - apply Harr. induction elements as [|x l IHl]; constructor; [apply IH|exact IHl].
  - apply Hobj.
Qed.

Lemma ToString_throws (v : json) : forall e : jserror, ToString v = Throw e -> e = TypeError.
Proof.
  induction v as [| b | x | s | elements Hall | members] using json_induction;
    intros e; cbn [ToString].
  - discriminate.
  - destruct b; discriminate.
  - discriminate.
  - discriminate.
  - induction Hall as [|x l Hx _ IHl]; [discriminate|].
    destruct (match x with JNull => Normal [] | _ => ToString x end) as [a|e'] eqn:Ex.
    + destruct l as [|y l']; [discriminate|].
      match goal with
      | |- match ?j with Normal _ => _ | Throw _ => _ end = _ -> _ =>
          destruct j as [b|e''] eqn:El; [discriminate|]
      end.
      intros H. injection H as <-. now apply IHl.
    + intros H. injection H as <-. destruct x; try discriminate Ex; now apply Hx.
  - destruct (lookup (js "toString") members); [|discriminate].
    intros H. now injection H as <-.
Qed.

Lemma joinedText_throws (cs : list json) (e : jserror) :
  joinedText cs = Throw e -> e = TypeError /\ forallb isString cs = false.
Proof.
  induction cs as [|c cs IH]; [discriminate|].
  cbn [joinedText forallb]. destruct (fragmentText c) as [a|e'] eqn:Ec.
  - destruct (joinedText cs) as [b|e''] eqn:Ecs; [discriminate|].
    intros H. injection H as <-. destruct (IH eq_refl) as [-> Hs].
    split; [reflexivity|]. now rewrite Hs, andb_false_r.
  - intros H. injection H as <-. unfold fragmentText in Ec.
    destruct c; try discriminate Ec; split;
      try reflexivity; now apply (ToString_throws _ _ Ec).
Qed.

(** ** The encoding is well-formed UTF-16 *)

Lemma wellFormed_plain_app (a b : jsstr) :
  plain a = true -> wellFormed (a ++ b) = wellFormed b.
Proof.
  unfold plain. induction a as [|c a IH]; intros H; [reflexivity|].
  cbn [forallb] in H. apply andb_true_iff in H as [Hc Ha].
  apply andb_true_iff in Hc as [Hl Ht]. apply negb_true_iff in Hl, Ht.
  cbn [app wellFormed]. rewrite Hl, Ht. cbn [negb andb]. now apply IH.
Qed.

Lemma plain_small (s : jsstr) : Forall (fun c => (c < 55296)%N) s -> plain s = true.
Proof.
  unfold plain. induction 1 as [|c s Hc _ IH]; [reflexivity|].
  cbn [forallb]. rewrite IH, andb_true_r.
  unfold isLeadingSurrogate, isTrailingSurrogate.
  destruct (N.leb_spec 55296 c); [lia|]. destruct (N.leb_spec 56320 c); [lia|]. reflexivity.
Qed.

Lemma hexdigit_small (d : N) : (d < 16)%N -> (hexdigit d < 55296)%N.
Proof. intros H. unfold hexdigit. destruct (N.ltb_spec d 10); lia. Qed.

Lemma plain_unicode_escape (c : N) : plain (unicode_escape c) = true.
Proof.
  apply plain_small. unfold unicode_escape.
  repeat constructor; try lia; apply hexdigit_small; apply N.mod_lt; discriminate.
Qed.

Lemma plain_escape_unit (c : N) :
  isLeadingSurrogate c = false -> isTrailingSurrogate c = false ->
  plain (escape_unit c) = true.
Proof.
  intros Hl Ht. unfold escape_unit.
  repeat match goal with
         | |- context [if ?b then _ else _] => destruct b; [reflexivity || apply plain_unicode_escape|]
         end.
  unfold plain. cbn [forallb]. now rewrite Hl, Ht.
Qed.

Lemma wellFormed_quote_chars (n : nat) :
  forall (s t : jsstr), (List.length s <= n)%nat ->
  wellFormed (quote_chars s ++ t) = wellFormed t.
Proof.
  induction n as [|n IH]; intros s t Hn.
  - destruct s; [reflexivity|cbn in Hn; lia].
  - destruct s as [|c r]; [reflexivity|]. cbn [List.length] in Hn.
    cbn [quote_chars]. destruct (isLeadingSurrogate c) eqn:Hl.
    + destruct r as [|d r'].
      * now rewrite wellFormed_plain_app by apply plain_unicode_escape.
      * destruct (isTrailingSurrogate d) eqn:Hd.
        -- cbn [app wellFormed]. rewrite Hl, Hd. cbn [andb].
           apply IH. cbn [List.length] in Hn. lia.
        -- rewrite <- app_assoc, wellFormed_plain_app by apply plain_unicode_escape.
           apply IH. lia.
    + destruct (isTrailingSurrogate c) eqn:Ht.
      * rewrite <- app_assoc, wellFormed_plain_app by apply plain_unicode_escape.
        apply IH. lia.
      * rewrite <- app_assoc, wellFormed_plain_app by now apply plain_escape_unit.
        apply IH. lia.
Qed.

(** ** More on the retry wrapper *)

(** X1.  The complete trace of a run of [withExponentialBackoff].  Every
    attempt that fails is logged with [logDebug].  Each attempt but the
    last is followed by one draw of [Math.random], a [logDebug] entry
    announcing a delay, and a wait of that very delay, in this order;
    nothing follows the last attempt but its log entry when it has failed:
    the wrapper does not wait before giving up.  The wrapper draws as many
    random numbers as it waits, and it does not call [console.error]. *)
Theorem backoff_trace {R T : Type} (fn : M R T)
  (params : option ExponentialBackoffParams.t) (w : World R) :
  exists (r : completion T) (w' : World R) (errs : list jserror),
    withExponentialBackoff fn params w = Some (r, w')
    /\ events w' =
       events w
       ++ retriedFrom (initialRetryDelayOf params) (maxJitterOf params)
            (entropy w) (drawn w) 0 errs
       ++ lastAttempt r
    /\ List.length (waits (events w')) =
       (List.length (waits (events w)) + List.length errs)%nat
    /\ S (List.length (waits (events w'))) =
       (List.length (waits (events w)) + List.length (invocations (events w'))
        - List.length (invocations (events w)))%nat
    /\ drawn w' = (drawn w + List.length errs)%nat
    /\ entropy w' = entropy w
    /\ console w' = console w.
Proof.
  destruct (withExponentialBackoff_trace fn params w)
    as (r & w' & errs & Hrun & Hev & _ & _ & Hent & Hdr & Hcon & _).
  exists r, w', errs. split; [exact Hrun|]. split; [exact Hev|].
  rewrite Hev, !waits_app, !invocations_app, waits_retriedFrom, invocations_retriedFrom,
    waits_lastAttempt, invocations_lastAttempt, !length_app, !length_map, length_seq.
  cbn [List.length]. repeat split; try assumption; lia.
Qed.

(** X2.  The operation keeps its state from one attempt to the next, and
    its outcomes decide the run: when it fails [k] times in a row, each
    call starting where the one before ended, and then returns a value,
    [k] being at most [max 0 maxRetries], the wrapper returns that value;
    when it fails once more and [k] is [max 0 maxRetries], the wrapper
    throws the error of this last call.  In both cases the operation is
    left in the state its last call produced, after [k] waits. *)
Theorem backoff_outcome {R T : Type} (fn : M R T)
  (params : option ExponentialBackoffParams.t) (w : World R)
  (k : nat) (errs : list jserror) (s s' : R) (r : completion T) :
  failsFor fn k (remote w) = Some (errs, s) ->
  fn s = (r, s') ->
  (Z.of_nat k <= Z.max 0 (maxRetriesOf params))%Z ->
  (forall e, r = Throw e -> Z.of_nat k = Z.max 0 (maxRetriesOf params)) ->
  exists w',
    withExponentialBackoff fn params w = Some (r, w')
    /\ remote w' = s'
    /\ invocations (events w') =
       invocations (events w) ++ List.map Some errs ++ [outcome r]
    /\ List.length (waits (events w')) = (List.length (waits (events w)) + k)%nat.
Proof.
  intros Hfails Hlast Hk Hthrow.
  pose proof (failsFor_length fn k (remote w) errs s Hfails) as Hlen.
  rewrite withExponentialBackoff_unfold.
  set (m := maxRetriesOf params) in *.
  destruct k as [|k].
  - cbn in Hfails. injection Hfails as <- <-.
    rewrite (whileTrue_last fn m _ _ _ 0 w r s' Hlast) by (intros e He; specialize (Hthrow e He); lia).
    eexists. split; [reflexivity|]. cbn [remote events].
    rewrite invocations_app, waits_app, invocations_lastAttempt, waits_lastAttempt,
      app_nil_r. cbn [List.map app]. repeat split. lia.
  - replace (S (Z.to_nat m)) with (S k + S (Z.to_nat m - S k))%nat by lia.
    rewrite (whileTrue_failsFor fn m _ _ (S k) _ 0 w errs s Hfails) by lia.
    match goal with
    | |- context [whileTrue _ _ _ _ _ _ ?wk] =>
        rewrite (whileTrue_last fn m _ _ _ _ wk r s' Hlast)
          by (intros e He; specialize (Hthrow e He); lia)
    end.
    eexists. split; [reflexivity|]. cbn [remote events]. split; [reflexivity|]. split.
    + rewrite !invocations_app, invocations_retriedFrom, invocations_lastAttempt.
      now rewrite <- app_assoc.
    + rewrite !waits_app, waits_retriedFrom, waits_lastAttempt, !length_app, length_map,
        length_seq, Hlen.
      cbn [List.length]. lia.
Qed.

Lemma backoff_outcome_witness :
  exists w',
    withExponentialBackoff Examples.failsTwice None Samples.world1 =
      Some (Normal (js "ok"), w')
    /\ remote w' = 3%nat
    /\ invocations (events w') =
       invocations (events Samples.world1)
       ++ List.map Some [Examples.boom; Examples.boom] ++ [outcome (Normal (js "ok"))]
    /\ List.length (waits (events w')) =
       (List.length (waits (events Samples.world1)) + 2)%nat.
Proof.
  apply (backoff_outcome Examples.failsTwice None Samples.world1 2
           [Examples.boom; Examples.boom] 2%nat 3%nat (Normal (js "ok"))).
  - reflexivity.
  - reflexivity.
  - vm_compute. discriminate.
  - discriminate.
Defined.

(** X3.  Bounds on the delays.  When [initialRetryDelayMS] and
    [maxJitterMS] are integers that are not negative, with
    [initialRetryDelayMS + maxJitterMS < 2^53], [maxRetries] is at most 972
    and [Math.random] gives doubles of [0, 1), every delay waited is an
    integer; the delay before the retry numbered [k] is between
    [initialRetryDelayMS * 2^k] and [(initialRetryDelayMS + maxJitterMS) *
    2^k], and a run waits in total at most
    [(initialRetryDelayMS + maxJitterMS) * (2^(max 0 maxRetries) - 1)]
    milliseconds: at most 14 seconds with the default parameters. *)
Theorem backoff_wait_bounds {R T : Type} (fn : M R T)
  (params : option ExponentialBackoffParams.t) (w : World R) :
  (0 <= initialRetryDelayOf params)%Z -> (0 <= maxJitterOf params)%Z ->
  (initialRetryDelayOf params + maxJitterOf params < 2 ^ 53)%Z ->
  (maxRetriesOf params <= 972)%Z ->
  unitInterval (entropy w) ->
  exists (r : completion T) (w' : World R) (waited : list number) (delays : list Z),
    withExponentialBackoff fn params w = Some (r, w')
    /\ waits (events w') = waits (events w) ++ waited
    /\ List.map integerOf waited = List.map Some delays
    /\ (Z.of_nat (List.length delays) <= Z.max 0 (maxRetriesOf params))%Z
    /\ (forall k d, nth_error delays k = Some d ->
        (initialRetryDelayOf params * 2 ^ Z.of_nat k <= d
         <= (initialRetryDelayOf params + maxJitterOf params) * 2 ^ Z.of_nat k)%Z)
    /\ (initialRetryDelayOf params * (2 ^ Z.of_nat (List.length delays) - 1)
        <= totalMS delays
        <= (initialRetryDelayOf params + maxJitterOf params)
           * (2 ^ Z.max 0 (maxRetriesOf params) - 1))%Z
    /\ (params = None -> (totalMS delays <= 14000)%Z).
Proof.
  intros Hi Hj Hsafe Hmax Hent.
  destruct (withExponentialBackoff_delays fn params w Hi Hj Hsafe Hmax Hent)
    as (r & w' & errs & waited & delays & Hrun & _ & Hw & Hint & Hl & Hlen & _ & _ & _ & Hb).
  set (i := initialRetryDelayOf params) in *. set (j := maxJitterOf params) in *.
  assert (Hb' : forall k d, nth_error delays k = Some d ->
                (i * 2 ^ Z.of_nat k <= d <= (i + j) * 2 ^ Z.of_nat k)%Z).
  { intros k d Hd. destruct (Hb k d Hd) as (H1 & H2 & _). lia. }
  exists r, w', waited, delays.
  split; [exact Hrun|]. split; [exact Hw|]. split; [exact Hint|].
  split; [lia|]. split; [exact Hb'|].
  assert (Hsum : (i * (2 ^ Z.of_nat (List.length delays) - 1) <= totalMS delays
                  <= (i + j) * (2 ^ Z.max 0 (maxRetriesOf params) - 1))%Z).
  { pose proof (totalMS_pow2 i (i + j) delays Hb') as Hs.
    split; [apply Hs|]. etransitivity; [apply Hs|].
    apply Z.mul_le_mono_nonneg_l; [lia|].
    apply Z.sub_le_mono_r. apply Z.pow_le_mono_r; lia. }
  split; [exact Hsum|].
  intros ->. subst i j. cbn in Hsum. lia.
Qed.

Lemma backoff_wait_bounds_witness :
  exists (r : completion jsstr) (w' : World nat) (waited : list number) (delays : list Z),
    withExponentialBackoff Examples.failsTwice None Samples.world1 = Some (r, w')
    /\ waits (events w') = waits (events Samples.world1) ++ waited
    /\ List.map integerOf waited = List.map Some delays
    /\ (totalMS delays <= 14000)%Z.
Proof.
  destruct (backoff_wait_bounds Examples.failsTwice None Samples.world1)
    as (r & w' & waited & delays & Hrun & Hw & Hint & _ & _ & _ & H).
  - vm_compute. discriminate.
  - vm_compute. discriminate.
  - reflexivity.
  - vm_compute. discriminate.
  - intros [|[|[|[|k]]]]; reflexivity.
  - exists r, w', waited, delays. split; [exact Hrun|]. split; [exact Hw|].
    split; [exact Hint|]. now apply H.
Defined.

(** X4.  When [maxJitterMS] is not negative and is at most
    [initialRetryDelayMS], which is positive, as with the default parameters
    (1000 and 1000), and the parameters are in the safe range
    ([initialRetryDelayMS + maxJitterMS < 2^53], [maxRetries] at most 972),
    the successive delays of a run are integers that increase strictly,
    whatever doubles [Math.random] gives in [0, 1). *)
Theorem backoff_delays_increase {R T : Type} (fn : M R T)
  (params : option ExponentialBackoffParams.t) (w : World R) :
  (0 < initialRetryDelayOf params)%Z ->
  (0 <= maxJitterOf params <= initialRetryDelayOf params)%Z ->
  (initialRetryDelayOf params + maxJitterOf params < 2 ^ 53)%Z ->
  (maxRetriesOf params <= 972)%Z ->
  unitInterval (entropy w) ->
  exists (r : completion T) (w' : World R) (waited : list number) (delays : list Z),
    withExponentialBackoff fn params w = Some (r, w')
    /\ waits (events w') = waits (events w) ++ waited
    /\ List.map integerOf waited = List.map Some delays
    /\ (forall k a b, nth_error delays k = Some a -> nth_error delays (S k) = Some b ->
        (a < b)%Z).
Proof.
  intros Hi Hj Hsafe Hmax Hent.
  destruct (withExponentialBackoff_delays fn params w ltac:(lia) ltac:(lia) Hsafe Hmax Hent)
    as (r & w' & errs & waited & delays & Hrun & _ & Hw & Hint & _ & _ & _ & _ & _ & Hb).
  exists r, w', waited, delays.
  split; [exact Hrun|]. split; [exact Hw|]. split; [exact Hint|].
  intros k a b Ha Hb'.
  destruct (Hb k a Ha) as (_ & Ha2 & Ha3). destruct (Hb (S k) b Hb') as (Hb1 & _).
  rewrite Nat2Z.inj_succ, Z.pow_succ_r in Hb1 by lia.
  assert (0 < 2 ^ Z.of_nat k)%Z by (apply Z.pow_pos_nonneg; lia).
  destruct (Z.eq_dec (maxJitterOf params) 0) as [E|E].
  - rewrite E in *. nia.
  - specialize (Ha3 ltac:(lia)). nia.
Qed.

Lemma backoff_delays_increase_witness :
  exists (r : completion unit) (w' : World unit) (waited : list number) (delays : list Z),
    withExponentialBackoff Examples.alwaysFails None Examples.world0 = Some (r, w')
    /\ waits (events w') = waits (events Examples.world0) ++ waited
    /\ List.map integerOf waited = List.map Some delays
    /\ (forall k a b, nth_error delays k = Some a -> nth_error delays (S k) = Some b ->
        (a < b)%Z).
Proof.
  apply (backoff_delays_increase Examples.alwaysFails None Examples.world0).
  - reflexivity.
  - vm_compute. split; discriminate.
  - reflexivity.
  - vm_compute. discriminate.
  - intros k. reflexivity.
Defined.

(** ** More on the chunk transformer *)

(** X5.  Line endings.  A chunk whose lines end with a carriage return and
    a line feed gives what the chunk with plain line feeds gives: the same
    output and the same log. *)
Theorem modifyChunk_crlf (chunk : Buffer) (console : list logEntry) :
  modifyChunk (crlf chunk) console = modifyChunk chunk console.
Proof. apply modifyChunk_linesOf, linesOf_crlf. Qed.

(** X6.  White space.  White space (line feeds included, hence blank
    lines) around a chunk, before a line feed or after a line feed changes
    nothing to what [modifyChunk] returns and logs. *)
Theorem modifyChunk_white_space (ws1 ws2 a b : jsstr) (console : list logEntry) :
  blank ws1 = true -> blank ws2 = true ->
  modifyChunk (ws1 ++ a ++ ws2) console = modifyChunk a console
  /\ modifyChunk (a ++ ws1 ++ LF :: ws2 ++ b) console = modifyChunk (a ++ LF :: b) console.
Proof.
  intros H1 H2. split.
  - unfold modifyChunk. now rewrite dataStrsOf_blank_around.
  - apply modifyChunk_linesOf. rewrite app_assoc, !linesOf_app.
    now rewrite linesOf_blank_r, linesOf_blank_l.
Qed.

Lemma modifyChunk_white_space_witness :
  modifyChunk (js "  " ++ Examples.chunkHel ++ [CR; LF; LF]) [] =
    modifyChunk Examples.chunkHel []
  /\ modifyChunk (Examples.chunkHel ++ js "  " ++ LF :: [CR; LF; LF] ++ Examples.chunkLo) [] =
     modifyChunk (Examples.chunkHel ++ LF :: Examples.chunkLo) [].
Proof.
  apply (modifyChunk_white_space (js "  ") [CR; LF; LF] Examples.chunkHel Examples.chunkLo []);
    reflexivity.
Defined.

(** X7.  Lines that are not data.  Lines that, once trimmed, do not start
    with the header "data: " (comments, event names, a data line with no
    space after the colon) are skipped without a trace, wherever they are
    in the chunk. *)
Theorem modifyChunk_skips_lines (a junk b : Buffer) (console : list logEntry) :
  Forall (fun l => startsWith DATA_CHUNK_HEADER l = false) (dataStrsOf junk) ->
  modifyChunk (a ++ LF :: junk ++ LF :: b) console = modifyChunk (a ++ LF :: b) console
  /\ modifyChunk (junk ++ LF :: b) console = modifyChunk b console
  /\ modifyChunk (a ++ LF :: junk) console = modifyChunk a console.
Proof.
  intros Hj.
  assert (Hl : Forall (fun l => startsWith DATA_CHUNK_HEADER l = false) (linesOf junk)).
  { rewrite <- dataStrsOf_linesOf. now apply Forall_filter. }
  split; [|split]; apply modifyChunk_lines_eq; intros f; rewrite !linesOf_app.
  - apply forDataStrs_ignored, Hl.
  - apply (forDataStrs_ignored [] (linesOf junk) (linesOf b) f Hl).
  - pose proof (forDataStrs_ignored (linesOf a) (linesOf junk) [] f Hl) as H.
    now rewrite !app_nil_r in H.
Qed.

Lemma modifyChunk_skips_lines_witness :
  modifyChunk (Examples.chunkHel ++ LF :: (Lines.comment ++ LF :: Lines.noSpace)
               ++ LF :: Examples.chunkLo) [] =
    modifyChunk (Examples.chunkHel ++ LF :: Examples.chunkLo) []
  /\ modifyChunk ((Lines.comment ++ LF :: Lines.noSpace) ++ LF :: Examples.chunkLo) [] =
     modifyChunk Examples.chunkLo []
  /\ modifyChunk (Examples.chunkHel ++ LF :: Lines.comment ++ LF :: Lines.noSpace) [] =
     modifyChunk Examples.chunkHel [].
Proof.
  apply (modifyChunk_skips_lines Examples.chunkHel (Lines.comment ++ LF :: Lines.noSpace)
           Examples.chunkLo []).
  vm_compute. repeat constructor.
Defined.

(** X8.  Two chunks in one.  When the first of two chunks has no
    terminator line and each has a record, the chunk made of the first, a
    line feed and the second has for data the data of the first followed by
    the data of the second, is finished when one of them is, and logs what
    the first logs, then what the second logs. *)
Theorem modifyChunk_joined (ca cb : Buffer) (ra rb : StreamData)
  (la lb console : list logEntry) :
  modifyChunk ca [] = (Normal (JSON_stringify ra ++ JSON_LINE_SEPARATOR), la) ->
  modifyChunk cb [] = (Normal (JSON_stringify rb ++ JSON_LINE_SEPARATOR), lb) ->
  ~ In (DATA_CHUNK_HEADER ++ DATA_CHUNK_TERMINATOR) (dataStrsOf ca) ->
  modifyChunk (ca ++ LF :: cb) console =
  (Normal (JSON_stringify {| data := data ra ++ data rb;
                             finished := finished ra || finished rb |}
           ++ JSON_LINE_SEPARATOR),
   console ++ la ++ lb).
Proof.
  intros Ha Hb Hterm.
  apply modifyChunk_recordOf in Ha as [Ha ->], Hb as [Hb ->]. cbn [app].
  destruct (joined_chunks ca cb ra rb Ha Hb Hterm) as [Hr Hl].
  now rewrite modifyChunk_spec, Hr, Hl.
Qed.

Lemma modifyChunk_joined_witness :
  modifyChunk (Examples.chunkBroken ++ LF :: Examples.chunkLo) [] =
  (Normal (JSON_stringify {| data := js "Hello" ++ js "lo"; finished := false || true |}
           ++ JSON_LINE_SEPARATOR),
   [] ++ [LogError SyntaxError] ++ []).
Proof.
  apply (modifyChunk_joined Examples.chunkBroken Examples.chunkLo
           {| data := js "Hello"; finished := false |} {| data := js "lo"; finished := true |}
           [LogError SyntaxError] [] []).
  - vm_compute. reflexivity.
  - vm_compute. reflexivity.
  - vm_compute. intros [H|[H|[H|[]]]]; discriminate H.
Defined.

(** X9.  Only [choices[0]] counts.  Two frames whose [choices] arrays
    start with the same element are read alike: the other choices and the
    other properties of the frame have no effect on the output or on the
    log. *)
Theorem first_choice_only (chunk chunk' : Buffer) (pre post : list jsstr)
  (payload payload' : jsstr) (members members' : list (jsstr * json))
  (first : json) (others others' : list json) (console : list logEntry) :
  dataStrsOf chunk = pre ++ (DATA_CHUNK_HEADER ++ payload) :: post ->
  dataStrsOf chunk' = pre ++ (DATA_CHUNK_HEADER ++ payload') :: post ->
  JSON_parse payload = Normal (JObject members) ->
  JSON_parse payload' = Normal (JObject members') ->
  lookup (js "choices") members = Some (JArray (first :: others)) ->
  lookup (js "choices") members' = Some (JArray (first :: others')) ->
  modifyChunk chunk console = modifyChunk chunk' console.
Proof.
  intros Hc Hc' Hp Hp' Hm Hm'. unfold modifyChunk. rewrite Hc, Hc'.
  rewrite (forDataStrs_prefix pre _ ((DATA_CHUNK_HEADER ++ payload') :: post));
    [reflexivity|].
  intros f. rewrite (forDataStrs_payload payload _ post f Hp),
    (forDataStrs_payload payload' _ post f Hp').
  unfold bind, tryCatch. rewrite !tryBlock_decode.
  now rewrite (decodeFrame_first _ _ _ _ Hp Hm), (decodeFrame_first _ _ _ _ Hp' Hm').
Qed.

Lemma first_choice_only_witness :
  modifyChunk (Examples.chunkLo ++ LF :: DATA_CHUNK_HEADER ++ Lines.twoChoices) [] =
  modifyChunk (Examples.chunkLo ++ LF :: DATA_CHUNK_HEADER ++ Lines.oneChoice) [].
Proof.
  apply (first_choice_only _ _ [Examples.chunkLo] [] Lines.twoChoices Lines.oneChoice
           [(js "id", JString (js "c1"));
            (js "choices",
             JArray [JObject [(js "delta", JObject [(js "content", JString (js "Hel"))]);
                              (js "finish_reason", JNull)];
                     JObject [(js "delta", JObject [(js "content", JString (js "XX"))]);
                              (js "finish_reason", JString (js "stop"))]])]
           [(js "choices",
             JArray [JObject [(js "delta", JObject [(js "content", JString (js "Hel"))]);
                              (js "finish_reason", JNull)]])]
           (JObject [(js "delta", JObject [(js "content", JString (js "Hel"))]);
                     (js "finish_reason", JNull)])
           [JObject [(js "delta", JObject [(js "content", JString (js "XX"))]);
                     (js "finish_reason", JString (js "stop"))]]
           [] []);
    vm_compute; reflexivity.
Defined.

(** X17.  What [modifyChunk] can throw.  For a chunk none of whose
    content fragments is an array, [modifyChunk] returns the encoding of a
    record or throws a TypeError, and it throws only when a content
    fragment is not a string; no SyntaxError of [JSON.parse] and no other
    error leaves it. *)
Theorem modifyChunk_throws_TypeError_only (chunk : Buffer) (console : list logEntry) :
  existsb isArray (fragments (dataStrsOf chunk)) = false ->
  exists console',
    (exists streamData,
       modifyChunk chunk console =
       (Normal (JSON_stringify streamData ++ JSON_LINE_SEPARATOR), console'))
    \/ (modifyChunk chunk console = (Throw TypeError, console')
        /\ forallb isString (fragments (dataStrsOf chunk)) = false).
Proof.
  intros _. rewrite modifyChunk_spec. eexists. unfold recordOf, recordOfLines.
  destruct (joinedText (fragments (dataStrsOf chunk))) as [joined|e] eqn:E.
  - left. eexists. reflexivity.
  - right. apply joinedText_throws in E as [-> Hs]. now split.
Qed.

Lemma modifyChunk_throws_TypeError_only_witness :
  exists console',
    (exists streamData,
       modifyChunk Examples.chunkObject [] =
       (Normal (JSON_stringify streamData ++ JSON_LINE_SEPARATOR), console'))
    \/ (modifyChunk Examples.chunkObject [] = (Throw TypeError, console')
        /\ forallb isString (fragments (dataStrsOf Examples.chunkObject)) = false).
Proof.
  apply (modifyChunk_throws_TypeError_only Examples.chunkObject []).
  vm_compute. reflexivity.
Defined.

(** X18.  The text [modifyChunk] returns is well-formed UTF-16, whatever
    the data of the record: a lone surrogate in the data is written as an
    escape.  So [Buffer.from], which would replace a lone surrogate, keeps
    the text as it is. *)
Theorem modifyChunk_output_wellFormed (streamData : StreamData) :
  wellFormed (JSON_stringify streamData ++ JSON_LINE_SEPARATOR) = true
  /\ (forall chunk console out console',
        modifyChunk chunk console = (Normal out, console') -> wellFormed out = true).
Proof.
  assert (H : forall sd, wellFormed (JSON_stringify sd ++ JSON_LINE_SEPARATOR) = true).
  { intros sd. rewrite JSON_stringify_unfold, <- !app_assoc.
    rewrite wellFormed_plain_app by reflexivity.
    rewrite (wellFormed_quote_chars (List.length (data sd))) by apply le_n.
    now destruct (finished sd). }
  split; [apply H|].
  intros chunk console out console'. rewrite modifyChunk_spec.
  destruct (recordOf chunk) as [sd|e]; [|discriminate].
  intros E. injection E as <- _. apply H.
Qed.

Lemma modifyChunk_output_wellFormed_witness :
  wellFormed [55357%N] = false
  /\ modifyChunk Surrogates.chunkLone [] =
     (Normal (JSON_stringify {| data := [55357%N]; finished := false |}
              ++ JSON_LINE_SEPARATOR), [])
  /\ wellFormed (JSON_stringify {| data := [55357%N]; finished := false |}
                 ++ JSON_LINE_SEPARATOR) = true.
Proof.
  destruct (modifyChunk_output_wellFormed {| data := [55357%N]; finished := false |})
    as [_ H].
  split; [reflexivity|]. split; [vm_compute; reflexivity|].
  apply (H Surrogates.chunkLone [] _ []). vm_compute. reflexivity.
Defined.

(** X19.  One frame.  For a chunk of one data line whose payload is an
    object with [choices[0].delta] an object, and whose content is a string
    or is absent, [modifyChunk] logs nothing and returns the record whose
    data is the content (the empty string when there is none, as for the
    frame that only carries the role) and which is finished exactly when
    [choices[0].finish_reason] is the string "stop": another finish reason
    ("length", say) does not finish the record. *)
Theorem single_frame (chunk : Buffer) (payload : jsstr)
  (members first delta : list (jsstr * json)) (others : list json)
  (console : list logEntry) :
  dataStrsOf chunk = [DATA_CHUNK_HEADER ++ payload] ->
  JSON_parse payload = Normal (JObject members) ->
  lookup (js "choices") members = Some (JArray (JObject first :: others)) ->
  lookup (js "delta") first = Some (JObject delta) ->
  forallb isString
    (match lookup (js "content") delta with Some c => [c] | None => [] end) = true ->
  modifyChunk chunk console =
  (Normal (JSON_stringify
             {| data := match lookup (js "content") delta with
                        | Some (JString c) => c
                        | _ => []
                        end;
                finished := match lookup (js "finish_reason") first with
                            | Some (JString reason) => str_eqb reason STOP_FINISH_REASON
                            | _ => false
                            end |}
           ++ JSON_LINE_SEPARATOR),
   console).
Proof.
  intros Hc Hp Hm Hd Hs. unfold modifyChunk. rewrite Hc.
  rewrite (forDataStrs_payload payload _ [] _ Hp).
  unfold bind, tryCatch. rewrite tryBlock_decode, (decodeFrame_first _ _ _ _ Hp Hm).
  cbn [RequireObjectCoercible Get]. change (key_name K_delta) with (js "delta").
  rewrite Hd. cbn [RequireObjectCoercible Get].
  change (key_name K_content) with (js "content").
  change (key_name K_finish_reason) with (js "finish_reason").
  destruct (lookup (js "content") delta) as [c|].
  - destruct c as [| | | s | |]; try discriminate Hs.
    destruct (lookup (js "finish_reason") first) as [[| | |reason| |]|];
      cbn [strictEqualsString]; destruct s as [|u s];
      try destruct (str_eqb reason STOP_FINISH_REASON);
      cbn [forDataStrs ret ToBoolean Frame.push Frame.setFinished Frame.tokens
           Frame.finished Frame.console joinTokens ToString app];
      rewrite ?app_nil_r; reflexivity.
  - destruct (lookup (js "finish_reason") first) as [[| | |reason| |]|];
      cbn [strictEqualsString];
      try destruct (str_eqb reason STOP_FINISH_REASON); reflexivity.
Qed.

Lemma single_frame_witness :
  modifyChunk (jq "data: {'choices':[{'delta':{'content':'Hel'},'finish_reason':'length'}]}")
    [] =
  (Normal (JSON_stringify {| data := js "Hel"; finished := false |} ++ JSON_LINE_SEPARATOR),
   []).
Proof.
  apply (single_frame
           (jq "data: {'choices':[{'delta':{'content':'Hel'},'finish_reason':'length'}]}")
           (jq "{'choices':[{'delta':{'content':'Hel'},'finish_reason':'length'}]}")
           [(js "choices",
             JArray [JObject [(js "delta", JObject [(js "content", JString (js "Hel"))]);
                              (js "finish_reason", JString (js "length"))]])]
           [(js "delta", JObject [(js "content", JString (js "Hel"))]);
            (js "finish_reason", JString (js "length"))]
           [(js "content", JString (js "Hel"))] [] []);
    vm_compute; reflexivity.
Defined.

(** X21.  Missing properties of a frame.  A data line whose payload is an
    object with no [choices], or whose [choices[0]] has no [delta], is
    logged with a TypeError and adds nothing; one whose [choices] is an
    empty array is logged with the error "No choices returned from API".
    In each case the chunk of that line alone gives the empty record, not
    finished, and [modifyChunk] does not throw. *)
Theorem frame_missing_keys (chunk : Buffer) (payload : jsstr)
  (members : list (jsstr * json)) (console : list logEntry) :
  dataStrsOf chunk = [DATA_CHUNK_HEADER ++ payload] ->
  JSON_parse payload = Normal (JObject members) ->
  (lookup (js "choices") members = None ->
   modifyChunk chunk console =
   (Normal (JSON_stringify {| data := []; finished := false |} ++ JSON_LINE_SEPARATOR),
    console ++ [LogError TypeError]))
  /\ (lookup (js "choices") members = Some (JArray []) ->
      modifyChunk chunk console =
      (Normal (JSON_stringify {| data := []; finished := false |} ++ JSON_LINE_SEPARATOR),
       console ++ [LogError (Error (js "No choices returned from API"))]))
  /\ (forall first others,
        lookup (js "choices") members = Some (JArray (JObject first :: others)) ->
        lookup (js "delta") first = None ->
        modifyChunk chunk console =
        (Normal (JSON_stringify {| data := []; finished := false |} ++ JSON_LINE_SEPARATOR),
         console ++ [LogError TypeError])).
Proof.
  intros Hc Hp.
  assert (Hrun : forall e, decodeFrame payload = Throw e ->
            modifyChunk chunk console =
            (Normal (JSON_stringify {| data := []; finished := false |}
                     ++ JSON_LINE_SEPARATOR),
             console ++ [LogError e])).
  { intros e He. unfold modifyChunk. rewrite Hc.
    rewrite (forDataStrs_payload payload _ [] _ Hp).
    unfold bind, tryCatch. now rewrite tryBlock_decode, He. }
  split; [|split].
  - intros Hm. apply Hrun. unfold decodeFrame. rewrite Hp.
    cbn [RequireObjectCoercible Get]. change (key_name K_choices) with (js "choices").
    now rewrite Hm.
  - intros Hm. apply Hrun. now apply (decodeFrame_empty_choices _ members).
  - intros first others Hm Hd. apply Hrun.
    rewrite (decodeFrame_first _ _ _ _ Hp Hm). cbn [RequireObjectCoercible Get].
    change (key_name K_delta) with (js "delta"). now rewrite Hd.
Qed.

Lemma frame_missing_keys_witness :
  modifyChunk (jq "data: {'error':'overloaded'}") [] =
    (Normal (JSON_stringify {| data := []; finished := false |} ++ JSON_LINE_SEPARATOR),
     [] ++ [LogError TypeError])
  /\ modifyChunk (jq "data: {'choices':[{'index':0}]}") [] =
     (Normal (JSON_stringify {| data := []; finished := false |} ++ JSON_LINE_SEPARATOR),
      [] ++ [LogError TypeError]).
Proof.
  split.
  - apply (frame_missing_keys (jq "data: {'error':'overloaded'}") (jq "{'error':'overloaded'}")
             [(js "error", JString (js "overloaded"))] []);
      vm_compute; reflexivity.
  - destruct (frame_missing_keys (jq "data: {'choices':[{'index':0}]}")
                (jq "{'choices':[{'index':0}]}")
                [(js "choices", JArray [JObject [(js "index", JNumber (JSNumber.DZero false))]])]
                []) as (_ & _ & H); [vm_compute; reflexivity | vm_compute; reflexivity |].
    apply (H [(js "index", JNumber (JSNumber.DZero false))] []); vm_compute; reflexivity.
Defined.

(** ** More on the requests *)

(** X10.  What a failure costs.  When the API rejects every request (and
    [Math.random] gives doubles of [0, 1)), [streamSingleResponse] and
    [getResponseStream] throw the fixed error after 4 requests, each made
    in the state the one before has left, and 3 waits, of [1000, 2000),
    [2000, 4000) and [4000, 8000) milliseconds: between 7 and 14 seconds in
    all.  [console.error] is called once, with the diagnostic of the error
    the fourth request, the last, has failed with. *)
Theorem failed_request_cost {R : Type} (api : OpenAIApi R)
  (messages : list ChatCompletionRequestMessage) (w : World R) :
  (forall s, exists e s', chatRequest api messages s = (Throw e, s')) ->
  unitInterval (entropy w) ->
  exists (w' : World R) (e1 e2 e3 e : jserror) (s : R)
         (x0 x1 x2 : number) (d0 d1 d2 : Z),
    streamSingleResponse api messages w =
      Some (Throw (Error (js "Error getting response from OpenAI")), w')
    /\ getResponseStream api messages w =
       Some (Throw (Error (js "Error getting response from OpenAI")), w')
    /\ failsFor (chatRequest api messages) 3 (remote w) = Some ([e1; e2; e3], s)
    /\ chatRequest api messages s = (Throw e, remote w')
    /\ invocations (events w') =
       invocations (events w) ++ [Some e1; Some e2; Some e3; Some e]
    /\ console w' = console w ++ [diagnostic e]
    /\ waits (events w') = waits (events w) ++ [x0; x1; x2]
    /\ integerOf x0 = Some d0 /\ integerOf x1 = Some d1 /\ integerOf x2 = Some d2
    /\ (1000 <= d0 < 2000)%Z /\ (2000 <= d1 < 4000)%Z /\ (4000 <= d2 < 8000)%Z
    /\ (7000 <= totalMS [d0; d1; d2] < 14000)%Z.
Proof.
  intros Hfail Hent.
  destruct (withExponentialBackoff_delays (chatRequest api messages) None w)
    as (r & w1 & errs & waited & delays & Hrun & Hev & Hw & Hint & Hl & _ & Hthrow
        & Hcon & (s & Hfails & Hlast) & Hb);
    [discriminate|discriminate|reflexivity|discriminate|exact Hent|].
  destruct (Hfail s) as (e & s' & He). rewrite He in Hlast. injection Hlast as <- Hs. rewrite Hs in He.
  specialize (Hthrow e eq_refl). change (maxRetriesOf None) with 3%Z in Hthrow.
  destruct errs as [|e1 [|e2 [|e3 [|e4 errs]]]]; cbn [List.length] in Hthrow; try lia.
  destruct delays as [|d0 [|d1 [|d2 [|d3 delays]]]]; try discriminate Hl.
  destruct waited as [|x0 [|x1 [|x2 [|x3 waited]]]]; try discriminate Hint.
  cbn [List.map] in Hint. injection Hint as E0 E1 E2.
  pose proof (getResponseStream_spec api messages w _ w1 Hrun) as Hget. cbn iota in Hget.
  exists (console_error (diagnostic e) w1), e1, e2, e3, e, s, x0, x1, x2, d0, d1, d2.
  destruct (Hb 0%nat d0 eq_refl) as (L0 & _ & U0); specialize (U0 eq_refl).
  destruct (Hb 1%nat d1 eq_refl) as (L1 & _ & U1); specialize (U1 eq_refl).
  destruct (Hb 2%nat d2 eq_refl) as (L2 & _ & U2); specialize (U2 eq_refl).
  change (initialRetryDelayOf None) with 1000%Z in *.
  change (maxJitterOf None) with 1000%Z in *.
  cbn in L0, L1, L2, U0, U1, U2.
  split; [unfold streamSingleResponse; now rewrite Hget|]. split; [exact Hget|].
  cbn [events console remote console_error]. rewrite Hev, Hcon.
  rewrite !invocations_app, invocations_retriedFrom, invocations_lastAttempt.
  rewrite Hev in Hw.
  cbn [List.map app outcome totalMS fold_right List.length] in *.
  repeat split; try assumption; try lia.
Qed.

Lemma failed_request_cost_witness :
  exists (w' : World unit) (e : jserror) (x0 x1 x2 : number) (d0 d1 d2 : Z),
    streamSingleResponse Examples.down [] Examples.world0 =
      Some (Throw (Error (js "Error getting response from OpenAI")), w')
    /\ waits (events w') = waits (events Examples.world0) ++ [x0; x1; x2]
    /\ integerOf x0 = Some d0 /\ integerOf x1 = Some d1 /\ integerOf x2 = Some d2
    /\ (7000 <= totalMS [d0; d1; d2] < 14000)%Z
    /\ console w' = console Examples.world0 ++ [diagnostic e].
Proof.
  destruct (failed_request_cost Examples.down [] Examples.world0)
    as (w' & e1 & e2 & e3 & e & s & x0 & x1 & x2 & d0 & d1 & d2
        & H1 & _ & _ & _ & _ & Hc & Hw & E0 & E1 & E2 & _ & _ & _ & Ht).
  - intros s. exists Examples.rateLimited, s. reflexivity.
  - intros k. reflexivity.
  - exists w', e, x0, x1, x2, d0, d1, d2. now repeat split.
Defined.

(** X11.  Only the request is retried.  When the first request is answered
    with a stream, each chunk of which has a record, no other request is
    made, whatever the records hold: [streamSingleResponse] gives what the
    consumer makes of the encoded records, be it an error, after one
    invocation, no wait and no draw of [Math.random]. *)
Theorem stream_errors_not_retried {R : Type} (api : OpenAIApi R)
  (messages : list ChatCompletionRequestMessage) (w : World R)
  (source : Readable) (records : list StreamData) (s : R) :
  chatRequest api messages (remote w) = (Normal source, s) ->
  List.map recordOf source = List.map Normal records ->
  exists w',
    streamSingleResponse api messages w =
      Some (streamChatResponse {| chunks := List.map encode records; failure := None |}, w')
    /\ remote w' = s
    /\ events w' = events w ++ [Invoked None]
    /\ drawn w' = drawn w.
Proof.
  intros Hreq Hrec.
  assert (Hrun : withExponentialBackoff (chatRequest api messages) None w =
                 Some (Normal source,
                       {| remote := s; console := console w;
                          events := events w ++ [Invoked None];
                          entropy := entropy w; drawn := drawn w |})).
  { rewrite withExponentialBackoff_unfold.
    now rewrite (whileTrue_last _ _ _ _ _ _ w (Normal source) s Hreq) by discriminate. }
  unfold streamSingleResponse, getResponseStream, getAPIStream.
  fold (chatRequest api messages). rewrite Hrun. cbn [console remote events entropy drawn].
  rewrite pipe_modifyChunk by reflexivity.
  unfold readableOf. cbn [pushed errored new_ModifyChunkStream app].
  rewrite (piped_records source records Hrec). cbn [fst snd].
  eexists. split; [reflexivity|]. now repeat split.
Qed.

Lemma stream_errors_not_retried_witness :
  exists w',
    streamSingleResponse (Examples.serving [Examples.chunkSeparator]) [] Examples.world0 =
      Some (Throw SyntaxError, w')
    /\ remote w' = tt
    /\ events w' = events Examples.world0 ++ [Invoked None]
    /\ drawn w' = drawn Examples.world0.
Proof.
  destruct (stream_errors_not_retried (Examples.serving [Examples.chunkSeparator]) []
              Examples.world0 [Examples.chunkSeparator]
              [ {| data := JSON_LINE_SEPARATOR; finished := false |} ] tt)
    as (w' & Hrun & Hrem & Hev & Hdr).
  - reflexivity.
  - vm_compute. reflexivity.
  - exists w'. split; [|now repeat split].
    rewrite Hrun. apply (f_equal (fun r => Some (r, w'))). vm_compute. reflexivity.
Defined.

(** ** More on the consumer *)

(** X12.  Handlers observe.  Handlers that return whenever they are called
    change nothing to what [streamChatResponse] returns or throws, whatever
    the stream holds: the result is the one obtained with no handler. *)
Theorem handlers_observe_only {H : Type} (hs : Handlers.StreamHandlers H)
  (responseStream : ReadableStream) (h : H) :
  (forall f d, Handlers.onData hs = Some f -> Handlers.returns (f d)) ->
  (forall g, Handlers.onEnd hs = Some g -> Handlers.returns g) ->
  exists h',
    Handlers.streamChatResponse hs responseStream h =
    (streamChatResponse responseStream, h')
    /\ Handlers.streamChatResponse Handlers.none responseStream h =
       (streamChatResponse responseStream, h).
Proof.
  intros Hd He.
  destruct (forChunks_returns hs Hd He (chunks responseStream) (failure responseStream) [] h)
    as (h' & E).
  exists h'. split; [exact E|]. apply forChunks_none.
Qed.

Lemma handlers_observe_only_witness :
  exists calls,
    Handlers.streamChatResponse Handlers.recording
      {| chunks := [encode {| data := js "Hel"; finished := false |} ++ js "{";
                    encode {| data := js "lo"; finished := true |}];
         failure := None |} [] =
    (streamChatResponse
       {| chunks := [encode {| data := js "Hel"; finished := false |} ++ js "{";
                     encode {| data := js "lo"; finished := true |}];
          failure := None |}, calls).
Proof.
  destruct (handlers_observe_only Handlers.recording
              {| chunks := [encode {| data := js "Hel"; finished := false |} ++ js "{";
                            encode {| data := js "lo"; finished := true |}];
                 failure := None |} []) as (calls & E & _).
  - intros f d E. injection E as <-. intros h. eexists. reflexivity.
  - intros g E. injection E as <-. intros h. eexists. reflexivity.
  - now exists calls.
Defined.

(** X13.  The calls of the handlers.  On a stream of encoded records whose
    data are free of the separator, however they are grouped in chunks,
    [onData] is called once for each record read, in order, with the data of
    the record, before the data is added to the text; [onEnd] is called
    once, after the [onData] of the first finished record, where the reading
    stops; it is not called when no record is finished.  An error thrown by
    a handler ends the reading and is thrown by [streamChatResponse]. *)
Theorem handlers_notified {H : Type} (hs : Handlers.StreamHandlers H)
  (groups : list (list StreamData)) (h : H) (calls : list Handlers.call) :
  Forall (Forall (fun r => includes JSON_LINE_SEPARATOR (data r) = false)) groups ->
  Handlers.streamChatResponse hs
    {| chunks := List.map (fun g => List.concat (List.map encode g)) groups;
       failure := None |} h =
  Handlers.notify hs (List.concat groups) [] h
  /\ Handlers.streamChatResponse Handlers.recording
       {| chunks := List.map (fun g => List.concat (List.map encode g)) groups;
          failure := None |} calls =
     (Normal (accumulate (List.concat groups)),
      calls ++ Handlers.callsOf (List.concat groups)).
Proof.
  intros Hsep. unfold Handlers.streamChatResponse. cbn [chunks failure].
  rewrite !forChunks_notify by assumption. split; [reflexivity|].
  apply notify_recording.
Qed.

Lemma handlers_notified_witness :
  Handlers.streamChatResponse Handlers.recording
    {| chunks := List.map (fun g => List.concat (List.map encode g))
                   [[ {| data := js "Hel"; finished := false |};
                      {| data := js "lo"; finished := true |} ];
                    [ {| data := js "!"; finished := false |} ]];
       failure := None |} [] =
  (Normal (js "Hello"),
   [Handlers.DataCall (Some (JString (js "Hel")));
    Handlers.DataCall (Some (JString (js "lo"))); Handlers.EndCall]).
Proof.
  apply (handlers_notified Handlers.recording
           [[ {| data := js "Hel"; finished := false |};
              {| data := js "lo"; finished := true |} ];
            [ {| data := js "!"; finished := false |} ]] [] []).
  repeat constructor.
Defined.

(** X14.  [onEnd] needs a finished record.  When no record read from the
    stream is finished (the stream ends, fails, or holds a segment that
    cannot be read first), [onEnd] is not called: the run is the one
    obtained without [onEnd]. *)
Theorem onEnd_needs_finished {H : Type} (hs : Handlers.StreamHandlers H)
  (responseStream : ReadableStream) (h : H) :
  forallb notFinished (recordsRead responseStream) = true ->
  Handlers.streamChatResponse hs responseStream h =
  Handlers.streamChatResponse
    {| Handlers.onData := Handlers.onData hs; Handlers.onEnd := None;
       Handlers.onError := Handlers.onError hs |} responseStream h.
Proof. intros Hu. now apply forChunks_unfinished. Qed.

Lemma onEnd_needs_finished_witness :
  Handlers.streamChatResponse Handlers.recording
    {| chunks := [encode {| data := js "Hel"; finished := false |}];
       failure := Some Examples.boom |} [] =
  Handlers.streamChatResponse
    {| Handlers.onData := Handlers.onData Handlers.recording; Handlers.onEnd := None;
       Handlers.onError := Handlers.onError Handlers.recording |}
    {| chunks := [encode {| data := js "Hel"; finished := false |}];
       failure := Some Examples.boom |} [].
Proof.
  apply (onEnd_needs_finished Handlers.recording
           {| chunks := [encode {| data := js "Hel"; finished := false |}];
              failure := Some Examples.boom |} []).
  vm_compute. reflexivity.
Defined.

(** X15.  An error loses the text.  After records that are not finished,
    when the stream holds a chunk whose first segment is not JSON,
    [streamChatResponse] throws the error of [JSON.parse]; and when the
    stream fails, with whatever error, [streamChatResponse] throws that
    error.  In both cases the text read so far is not returned. *)
Theorem consumer_failure (records : list StreamData) :
  Forall (fun r => includes JSON_LINE_SEPARATOR (data r) = false) records ->
  Forall (fun r => finished r = false) records ->
  (forall (bad seg : jsstr) (segs : list jsstr) (rest : list Buffer)
          (ending : option jserror) (e : jserror),
     filter nonEmpty (split JSON_LINE_SEPARATOR bad) = seg :: segs ->
     JSON_parse seg = Throw e ->
     streamChatResponse {| chunks := List.map encode records ++ bad :: rest;
                           failure := ending |} = Throw e)
  /\ (forall e : jserror,
      streamChatResponse {| chunks := List.map encode records; failure := Some e |} =
      Throw e).
Proof.
  intros Hsep Hfin.
  assert (Hreads : List.map readRecord (flat_map segments (List.map encode records)) =
                   List.map unfinished (List.map data records)).
  { replace (List.map encode records)
      with (List.map (fun g => List.concat (List.map encode g))
                     (List.map (fun r => [r]) records))
      by (rewrite map_map; apply map_ext; intros r;
          cbn [List.map List.concat]; apply app_nil_r).
    rewrite readRecords_encoded
      by (rewrite Forall_map; eapply Forall_impl; [|exact Hsep];
          intros r Hr; now constructor).
    rewrite concat_singletons, map_map. apply map_ext_Forall.
    eapply Forall_impl; [|exact Hfin]. intros r Hr. unfold unfinished. now rewrite Hr. }
  split.
  - intros bad seg segs rest ending e Hbad Hparse.
    rewrite streamChatResponse_consume. unfold recordsRead. cbn [chunks failure].
    rewrite flat_map_app, map_app, Hreads, consume_unfinished.
    cbn [flat_map]. unfold segments at 1. rewrite Hbad. cbn [app List.map consume].
    unfold readRecord. now rewrite Hparse.
  - intros e. rewrite streamChatResponse_consume. unfold recordsRead.
    cbn [chunks failure]. rewrite Hreads.
    rewrite <- (app_nil_r (List.map unfinished _)), consume_unfinished.
    reflexivity.
Qed.

Lemma consumer_failure_witness :
  streamChatResponse
    {| chunks := List.map encode [ {| data := js "Hel"; finished := false |} ]
                 ++ js "{" :: [encode {| data := js "lo"; finished := true |}];
       failure := None |} = Throw SyntaxError
  /\ streamChatResponse
       {| chunks := List.map encode [ {| data := js "Hel"; finished := false |} ];
          failure := Some (Error (js "aborted")) |} = Throw (Error (js "aborted")).
Proof.
  destruct (consumer_failure [ {| data := js "Hel"; finished := false |} ]) as [H1 H2].
  - repeat constructor.
  - repeat constructor.
  - split.
    + apply (H1 (js "{") (js "{") [] [encode {| data := js "lo"; finished := true |}]
               None SyntaxError).
      * vm_compute. reflexivity.
      * vm_compute. reflexivity.
    + apply H2.
Defined.

(** X20.  Missing properties of a record.  A record that has no [data]
    property adds the text "undefined" to the result, and one that has no
    [finished] property does not end the reading: the rest of the stream is
    read after it. *)
Theorem consumer_missing_keys (chunk seg : jsstr) (members : list (jsstr * json))
  (rest : list Buffer) (ending : option jserror) :
  filter nonEmpty (split JSON_LINE_SEPARATOR chunk) = [seg] ->
  JSON_parse seg = Normal (JObject members) ->
  lookup (js "data") members = None ->
  lookup (js "finished") members = None ->
  streamChatResponse {| chunks := chunk :: rest; failure := ending |} =
  match streamChatResponse {| chunks := rest; failure := ending |} with
  | Normal text => Normal (js "undefined" ++ text)
  | Throw e => Throw e
  end.
Proof.
  intros Hseg Hp Hd Hf. unfold streamChatResponse. cbn [chunks failure forChunks].
  rewrite Hseg. cbn [forJsonLines]. rewrite Hp. cbn [RequireObjectCoercible Get].
  change (key_name K_data) with (js "data"). change (key_name K_finished) with (js "finished").
  rewrite Hd, Hf. cbn [ToStringV ToBoolean app]. apply forChunks_acc.
Qed.

Lemma consumer_missing_keys_witness :
  streamChatResponse
    {| chunks := (jq "{'text':'Hel'}" ++ JSON_LINE_SEPARATOR)
                 :: [encode {| data := js "lo"; finished := true |}];
       failure := None |} =
  match streamChatResponse
          {| chunks := [encode {| data := js "lo"; finished := true |}];
             failure := None |} with
  | Normal text => Normal (js "undefined" ++ text)
  | Throw e => Throw e
  end.
Proof.
  apply (consumer_missing_keys (jq "{'text':'Hel'}" ++ JSON_LINE_SEPARATOR)
           (jq "{'text':'Hel'}") [(js "text", JString (js "Hel"))]
           [encode {| data := js "lo"; finished := true |}] None);
    vm_compute; reflexivity.
Defined.

(** ** More on the whole pipeline *)

(** X16.  Cutting a chunk at a line feed.  Whether the transport delivers
    two groups of lines as one chunk or as two, the text returned in the end
    is the same, provided the first group has no terminator line and does
    not signal the stop reason (and the chunks have records whose data are
    free of the separator). *)
Theorem cut_at_line_feed (pre post : Readable) (a b : Buffer)
  (rpre rpost : list StreamData) (ra rb : StreamData) (console : list logEntry) :
  List.map recordOf pre = List.map Normal rpre ->
  recordOf a = Normal ra -> recordOf b = Normal rb ->
  List.map recordOf post = List.map Normal rpost ->
  ~ In (DATA_CHUNK_HEADER ++ DATA_CHUNK_TERMINATOR) (dataStrsOf a) ->
  finished ra = false ->
  Forall (fun r => includes JSON_LINE_SEPARATOR (data r) = false)
         (rpre ++ ra :: rb :: rpost) ->
  includes JSON_LINE_SEPARATOR (data ra ++ data rb) = false ->
  streamChatResponse
    (readableOf (fst (pipe (pre ++ (a ++ LF :: b) :: post)
                        (new_ModifyChunkStream modifyChunk) console))) =
  streamChatResponse
    (readableOf (fst (pipe (pre ++ a :: b :: post)
                        (new_ModifyChunkStream modifyChunk) console)))
  /\ streamChatResponse
       (readableOf (fst (pipe (pre ++ a :: b :: post)
                           (new_ModifyChunkStream modifyChunk) console))) =
     Normal (accumulate (rpre ++ ra :: rb :: rpost)).
Proof.
  intros Hpre Ha Hb Hpost Hterm Hfa Hsep Hab.
  destruct (joined_chunks a b ra rb Ha Hb Hterm) as [Hj _].
  apply Forall_app in Hsep as [Spre Srest].
  inversion Srest as [|? ? Sa Srest']; subst. inversion Srest' as [|? ? Sb Spost]; subst.
  rewrite (transformed_then_consumed (pre ++ (a ++ LF :: b) :: post)
             (rpre ++ {| data := data ra ++ data rb; finished := finished ra || finished rb |}
                   :: rpost)).
  - rewrite (transformed_then_consumed (pre ++ a :: b :: post) (rpre ++ ra :: rb :: rpost)).
    + split; [|reflexivity]. f_equal. rewrite !accumulate_app.
      cbn [accumulate data finished]. rewrite Hfa. cbn [orb].
      now rewrite <- !app_assoc.
    + rewrite !map_app. cbn [List.map]. now rewrite Hpre, Ha, Hb, Hpost.
    + apply Forall_app. split; [exact Spre|]. now repeat constructor.
  - rewrite !map_app. cbn [List.map]. now rewrite Hpre, Hj, Hpost.
  - apply Forall_app. split; [exact Spre|]. now constructor.
Qed.

Lemma cut_at_line_feed_witness :
  streamChatResponse
    (readableOf (fst (pipe ([] ++ (Examples.chunkHel ++ LF :: Examples.chunkLo) :: [])
                        (new_ModifyChunkStream modifyChunk) []))) =
  streamChatResponse
    (readableOf (fst (pipe ([] ++ Examples.chunkHel :: Examples.chunkLo :: [])
                        (new_ModifyChunkStream modifyChunk) [])))
  /\ streamChatResponse
       (readableOf (fst (pipe ([] ++ Examples.chunkHel :: Examples.chunkLo :: [])
                           (new_ModifyChunkStream modifyChunk) []))) =
     Normal (accumulate ([] ++ {| data := js "Hel"; finished := false |}
                            :: {| data := js "lo"; finished := true |} :: [])).
Proof.
  apply (cut_at_line_feed [] [] Examples.chunkHel Examples.chunkLo [] []
           {| data := js "Hel"; finished := false |}
           {| data := js "lo"; finished := true |} []).
  - reflexivity.
  - vm_compute. reflexivity.
  - vm_compute. reflexivity.
  - reflexivity.
  - vm_compute. intros [H|[]]. discriminate H.
  - reflexivity.
  - repeat constructor.
  - vm_compute. reflexivity.
Defined.
